(** * Animal repellent: the detection and alerting loop

    A shallow embedding of the alerting core of the repository:

    - [detection.py]: the cooldown gate [should_send_alert], the e-mail
      channel [send_email_alert], the sound channel [play_sound_alert], the
      per-box body of the loop of [main] (candidate filter, rescaling of
      the box, dispatch of the alert, persistence), the overrides read from
      the environment;
    - [database.py]: [add_detection] and [add_alert]; the table of the
      users with [create_user], [get_user_by_email], [authenticate_user];
    - [camera.py]: [start_detection_background] and
      [stop_detection_background];
    - [app.py]: the routes that register, log in and log out a user or
      the administrator and that start and stop the detection; the file
      names the uploads accept.

    Conventions of the model.

    - Python floats (confidences, box coordinates, [time.time()]) are
      rationals [Q].  Comparison and the difference of two clock readings
      are exact.  The quotients and products of the rescaling are rounded
      as the machine rounds them, to the 53 bits of a Python float and the
      24 bits of a [torch.float32], ties to even; the exponent range is not
      modelled (coordinates lie in a frame and sizes are array dimensions,
      far from the overflow and underflow thresholds).
    - Calls that read or touch the outside world (the clock, the file system,
      the SMTP server, SQLite, the child process) take their outcome from an
      environment record: [None] when the call returns, [Some e] when it
      raises [e].
    - Exceptions are values of [exn]; all of them are subclasses of Python's
      [Exception].  Code that can raise lives in the monad [M S], a state
      monad over [S] whose results are [Ok] or [Raise]; state written before
      an exception stays written, as in Python.
    - [print] is a log entry and never raises; the emoji that open the
      printed lines and the mail subject are left out of the strings.
    - [str.lower], [str.upper], [str.capitalize] and [str.strip] act on
      ASCII characters.
    - Paths are POSIX paths.
    - The table of the users is the list of its rows, with the write lock
      of the database: an insert is refused for an e-mail that is in the
      table and raises while the lock is held; the other calls to SQLite
      on this table return.  The salt and the time stamp a call draws are
      arguments of the model, and so is what other requests and the
      garbage collector do between two transactions of one request. *)

From Stdlib Require Import QArith Qabs Qpower Lqa ZArith List String Ascii Sorted.
From stdpp Require Import gmap strings list.

Local Open Scope string_scope.

(* ===================================================================== *)
(** * Exceptions and the state-and-exception monad                        *)
(* ===================================================================== *)

Inductive exn : Type :=
| TimeoutExpired                    (* subprocess.TimeoutExpired *)
| SMTPAuthenticationError           (* smtplib.SMTPAuthenticationError *)
| KeyError (key : string)
| ZeroDivisionError
| OtherException (what : string).   (* any other subclass of Exception *)

Inductive result (A : Type) : Type :=
| Ok (a : A)
| Raise (e : exn).
Arguments Ok {A} a.
Arguments Raise {A} e.

Definition M (S A : Type) : Type := S → result A * S.

#[export] Instance M_ret {S} : MRet (M S) := λ A a s, (Ok a, s).

#[export] Instance M_bind {S} : MBind (M S) := λ A B f m s,
  match m s with
  | (Ok a, s') => f a s'
  | (Raise e, s') => (Raise e, s')
  end.

#[export] Instance M_throw {S} : MThrow exn (M S) := λ A e s, (Raise e, s).

Definition get {S} : M S S := λ s, (Ok s, s).
Definition modify {S} (f : S → S) : M S unit := λ s, (Ok tt, f s).

(** [try: m  except Exception as e: h e] (every [exn] is an [Exception]). *)
Definition try_except {S A} (m : M S A) (h : exn → M S A) : M S A := λ s,
  match m s with
  | (Ok a, s') => (Ok a, s')
  | (Raise e, s') => h e s'
  end.

(** [try: m  finally: f]: [f] runs on both exits; what [m] returned or raised
    is kept unless [f] raises itself. *)
Definition try_finally {S A} (m : M S A) (f : M S unit) : M S A := λ s,
  let '(r, s') := m s in
  match f s' with
  | (Ok _, s'') => (r, s'')
  | (Raise e, s'') => (Raise e, s'')
  end.

(** An outside call: [None] returns, [Some e] raises [e]. *)
Definition outcome {S} (o : option exn) : M S unit :=
  match o with
  | None => mret tt
  | Some e => mthrow e
  end.

Definition raises {A} (r : result A) : bool :=
  match r with Ok _ => false | Raise _ => true end.

(* ===================================================================== *)
(** * Strings: [str.lower], [str.upper], [str.capitalize] on ASCII        *)
(* ===================================================================== *)

Definition ascii_lower (c : ascii) : ascii :=
  let n := N_of_ascii c in
  if (N.leb 65 n && N.leb n 90)%bool then ascii_of_N (n + 32) else c.

Definition ascii_upper (c : ascii) : ascii :=
  let n := N_of_ascii c in
  if (N.leb 97 n && N.leb n 122)%bool then ascii_of_N (n - 32) else c.

Fixpoint lower (s : string) : string :=
  match s with
  | EmptyString => EmptyString
  | String c r => String (ascii_lower c) (lower r)
  end.

Fixpoint upper (s : string) : string :=
  match s with
  | EmptyString => EmptyString
  | String c r => String (ascii_upper c) (upper r)
  end.

Definition capitalize (s : string) : string :=
  match s with
  | EmptyString => EmptyString
  | String c r => String (ascii_upper c) (lower r)
  end.

(** Truth value of [d.get(key)] for a string entry: absent ([None]) and the
    empty string are false. *)
Definition truthy (o : option string) : bool :=
  match o with
  | Some (String _ _) => true
  | _ => false
  end.

(** Python's [a or b] on two [d.get] results. *)
Definition py_or (a b : option string) : option string :=
  if truthy a then a else b.

(* ===================================================================== *)
(** * Configuration ([config.py])                                         *)
(* ===================================================================== *)

(** The dictionaries are records of optional entries: [None] is a missing
    key.  [d.get(k, dflt)] is [default dflt]; [d[k]] raises [KeyError]. *)

Record EmailConfig : Type := {
  enabled : option bool;
  smtp_server : option string;
  smtp_port : option Z;
  sender_email : option string;
  sender_password : option string;
  recipient_email : option string;
  override_sender : option string   (* set from DETECTION_SENDER_EMAIL *)
}.

Record DetectionConfig : Type := {
  confidence_threshold : option Q;
  alert_cooldown : option Q;
  frame_width : option Z;
  frame_height : option Z;
  save_detection_images : option bool;
  detections_folder : option string
}.

Record Config : Type := {
  EMAIL_CONFIG : EmailConfig;
  DETECTION_CONFIG : DetectionConfig;
  TARGET_ANIMALS : list string;
  user_id : option Z                 (* DATABASE_CONFIG['user_id'] *)
}.

Definition subscript {S} (key : string) {A} (o : option A) : M S A :=
  match o with
  | Some a => mret a
  | None => mthrow (KeyError key)
  end.

(** [DETECTION_CONFIG.get('confidence_threshold', 0.5)] and
    [DETECTION_CONFIG.get('alert_cooldown', 60)]. *)
Definition get_confidence_threshold (cfg : Config) : Q :=
  default (0.5)%Q (confidence_threshold (DETECTION_CONFIG cfg)).

Definition get_alert_cooldown (cfg : Config) : Q :=
  default 60%Q (alert_cooldown (DETECTION_CONFIG cfg)).

(** The values of [config.py]. *)
Definition config_py : Config := {|
  EMAIL_CONFIG := {|
    enabled := Some true;
    smtp_server := Some "smtp.gmail.com";
    smtp_port := Some 587%Z;
    sender_email := Some "your_gmail@gmail.com";
    sender_password := Some "yourpassword";
    recipient_email := Some "receiver email@gmail.com";
    override_sender := None |};
  DETECTION_CONFIG := {|
    confidence_threshold := Some (0.5)%Q;
    alert_cooldown := Some 60%Q;
    frame_width := Some 640%Z;
    frame_height := Some 480%Z;
    save_detection_images := Some true;
    detections_folder := Some "detections" |};
  TARGET_ANIMALS :=
    ["bird"; "cat"; "dog"; "horse"; "sheep"; "cow";
     "elephant"; "bear"; "zebra"; "giraffe"];
  user_id := Some 1%Z |}.

(* ===================================================================== *)
(** * The cooldown gate ([detection.py], [should_send_alert])             *)
(* ===================================================================== *)

(** [last_alert_time] is the global dictionary; [current_time] is what
    [time.time()] returned in this call. *)
Definition should_send_alert (cfg : Config) (current_time : Q)
    (animal_type : string) (last_alert_time : gmap string Q)
    : bool * gmap string Q :=
  let cooldown := get_alert_cooldown cfg in
  match last_alert_time !! animal_type with
  | None => (true, <[animal_type := current_time]> last_alert_time)
  | Some last =>
      if Qle_bool cooldown (current_time - last)
      then (true, <[animal_type := current_time]> last_alert_time)
      else (false, last_alert_time)
  end.

(** A sequence of calls of the gate, each with its label and the clock
    reading of that call; the answers are returned in call order beside the
    label and time they were given for. *)
Fixpoint gate_calls (cfg : Config) (calls : list (string * Q))
    (last_alert_time : gmap string Q)
    : list (string * Q * bool) * gmap string Q :=
  match calls with
  | [] => ([], last_alert_time)
  | (l, t) :: rest =>
      let '(b, st) := should_send_alert cfg t l last_alert_time in
      let '(answers, st') := gate_calls cfg rest st in
      ((l, t, b) :: answers, st')
  end.

(* ===================================================================== *)
(** * The e-mail channel ([detection.py], [send_email_alert])             *)
(* ===================================================================== *)

Record Message : Type := {
  msg_from : option string;
  msg_reply_to : option string;
  msg_to : string;
  msg_subject : string;
  msg_animal : string;          (* the body: capitalised animal type, *)
  msg_confidence : Q;           (* the confidence, shown as a percentage *)
  msg_image : option string     (* the attached detection image *)
}.

(** What the channel does to the outside world, in the order it does it. *)
Inductive email_event : Type :=
| EvPrint (line : string)
| EvCompose                                  (* MIMEMultipart() *)
| EvOpenImage (path : string)
| EvConnect (server : string) (port : Z)     (* smtplib.SMTP(server, port) *)
| EvStartTls
| EvLogin (user password : string)
| EvSendMessage (m : Message)
| EvQuit.                                    (* SMTP.__exit__ *)

(** How the file system and the SMTP server answer during one call. *)
Record EmailEnv : Type := {
  path_exists : string → bool;     (* os.path.exists *)
  on_open_image : option exn;      (* open, read, MIMEImage, attach *)
  on_connect : option exn;
  on_starttls : option exn;
  on_login : option exn;
  on_send_message : option exn;
  on_quit : option exn
}.

Definition emit (ev : email_event) : M (list email_event) unit :=
  modify (λ tr, (tr ++ [ev])%list).

(** An outside call: it is attempted (and so recorded) before it can fail. *)
Definition attempt (ev : email_event) (o : option exn)
    : M (list email_event) unit :=
  emit ev;; outcome o.

(** [with smtplib.SMTP(...) as server: body]: once the connection exists,
    [__exit__] runs whether [body] returned or raised; an exception of
    [__exit__] replaces the one of [body]. *)
Definition with_smtp (cfg : EmailConfig) (env : EmailEnv)
    (body : M (list email_event) unit) : M (list email_event) unit :=
  server ← subscript "smtp_server" (smtp_server cfg);
  port ← subscript "smtp_port" (smtp_port cfg);
  attempt (EvConnect server port) (on_connect env);;
  try_finally body (attempt EvQuit (on_quit env)).

(** The body of the [try] block. *)
Definition send_email_try (cfg : EmailConfig) (env : EmailEnv)
    (animal_type : string) (confidence : Q) (image_path : option string)
    : M (list email_event) bool :=
  emit EvCompose;;
  let from_header := py_or (override_sender cfg) (sender_email cfg) in
  let reply_to :=
    if truthy (override_sender cfg) then override_sender cfg else None in
  to ← subscript "recipient_email" (recipient_email cfg);
  let subject := "ALERT: " ++ upper animal_type ++ " Detected!" in
  image ←
    (if truthy image_path && path_exists env (default "" image_path)
     then try_except
            (attempt (EvOpenImage (default "" image_path)) (on_open_image env);;
             mret image_path)
            (λ _, emit (EvPrint "Could not attach image");; mret None)
     else mret None);
  let msg := {| msg_from := from_header; msg_reply_to := reply_to;
                msg_to := to; msg_subject := subject;
                msg_animal := capitalize animal_type;
                msg_confidence := confidence; msg_image := image |} in
  with_smtp cfg env
    (attempt EvStartTls (on_starttls env);;
     user ← subscript "sender_email" (sender_email cfg);
     password ← subscript "sender_password" (sender_password cfg);
     attempt (EvLogin user password) (on_login env);;
     attempt (EvSendMessage msg) (on_send_message env));;
  emit (EvPrint ("Email alert sent successfully for " ++ animal_type));;
  mret true.

(** The two [except] clauses. *)
Definition send_email_except (e : exn) : M (list email_event) bool :=
  match e with
  | SMTPAuthenticationError =>
      emit (EvPrint "Email authentication failed. Please check your email and app password.");;
      mret false
  | _ =>
      emit (EvPrint "Failed to send email");;
      mret false
  end.

Definition send_email_alert (cfg : EmailConfig) (env : EmailEnv)
    (animal_type : string) (confidence : Q) (image_path : option string)
    : M (list email_event) bool :=
  if negb (default false (enabled cfg)) then mret false
  else if negb (truthy (sender_email cfg)) || negb (truthy (sender_password cfg))
  then emit (EvPrint "Email not configured. Skipping email alert.");; mret false
  else try_except (send_email_try cfg env animal_type confidence image_path)
                  send_email_except.

(** The events that compose or deliver a message: everything but [print]. *)
Definition is_print (ev : email_event) : bool :=
  match ev with EvPrint _ => true | _ => false end.

Definition is_connect (ev : email_event) : bool :=
  match ev with EvConnect _ _ => true | _ => false end.

Definition is_send (ev : email_event) : bool :=
  match ev with EvSendMessage _ => true | _ => false end.

Definition count_events (p : email_event → bool) (tr : list email_event) : nat :=
  length (List.filter p tr).

(** A computation on the trace that only adds events at its end, and whose
    result and added events do not depend on what the trace held. *)
Definition appends {A} (m : M (list email_event) A) : Prop :=
  ∀ tr, m tr = ((m []).1, (tr ++ (m []).2)%list).

(** A subscripted entry of [EMAIL_CONFIG] is missing: composing the message
    or opening the connection raises [KeyError]. *)
Definition config_incomplete (cfg : EmailConfig) : Prop :=
  recipient_email cfg = None ∨ smtp_server cfg = None ∨ smtp_port cfg = None.

(** The transport (connection, TLS, login, sending) fails at some step. *)
Definition transport_fails (env : EmailEnv) : Prop :=
  is_Some (on_connect env) ∨ is_Some (on_starttls env) ∨
  is_Some (on_login env) ∨ is_Some (on_send_message env).

(* ===================================================================== *)
(** * The process supervisor ([camera.py], [stop_detection_background])   *)
(* ===================================================================== *)

Inductive proc_event : Type :=
| PTerminate (pid : nat)
| PWait (pid : nat) (timeout : option Z)
| PKill (pid : nat)
| PPrint (line : string).

(** [detection_process] is the module's global: [None], or the [Popen]
    object of the child (here its pid).  [proc_log] records what was asked
    of the child. *)
Record CameraState : Type := {
  detection_process : option nat;
  proc_log : list proc_event
}.

(** How the child answers during one call of the stop operation. *)
Record ProcEnv : Type := {
  on_terminate : option exn;
  on_wait_timeout : option exn;    (* wait(timeout=2) *)
  on_kill : option exn;
  on_wait : option exn             (* wait() *)
}.

Definition proc (ev : proc_event) (o : option exn) : M CameraState unit :=
  modify (λ s, {| detection_process := detection_process s;
                  proc_log := (proc_log s ++ [ev])%list |});;
  outcome o.

Definition clear_process : M CameraState unit :=
  modify (λ s, {| detection_process := None; proc_log := proc_log s |}).

Definition stop_detection_background (env : ProcEnv) : M CameraState unit :=
  s ← get;
  match detection_process s with
  | None => mret tt
  | Some p =>
      try_finally
        (try_except
           (proc (PTerminate p) (on_terminate env);;
            proc (PWait p (Some 2%Z)) (on_wait_timeout env))
           (λ e,
              match e with
              | TimeoutExpired =>
                  proc (PKill p) (on_kill env);;
                  proc (PWait p None) (on_wait env)
              | _ =>
                  proc (PPrint "Error stopping detection process") None;;
                  try_except (proc (PKill p) (on_kill env)) (λ _, mret tt)
              end))
        clear_process
  end.

(* ===================================================================== *)
(** * Persistence ([database.py], [add_detection], [add_alert])           *)
(* ===================================================================== *)

Record DetectionRecord : Type := {
  det_user_id : Z;
  det_animal_type : string;
  det_location : option string
}.

Record AlertRecord : Type := {
  alert_user_id : Z;
  alert_message : string;
  alert_type : string
}.

(** One spawned daemon thread and what it did; the loop never joins the
    thread nor reads its result. *)
Inductive thread_run : Type :=
| SoundThread (animal : string) (failed : bool)
| EmailThread (returned : result bool) (events : list email_event).

(** The state of the detection process: the globals and locals of [main],
    the two tables the loop appends to, and what it showed. *)
Record LoopState : Type := {
  last_alert_time : gmap string Q;
  detection_count : nat;
  frame_count : nat;
  detected_animals : gset string;
  rectangles : list (Z * Z * Z * Z);   (* boxes drawn on display_frame *)
  threads : list thread_run;
  detections : list DetectionRecord;
  alerts : list AlertRecord;
  console : list string
}.

Definition set_last_alert_time (m : gmap string Q) (s : LoopState) : LoopState :=
  {| last_alert_time := m; detection_count := detection_count s;
     frame_count := frame_count s; detected_animals := detected_animals s;
     rectangles := rectangles s; threads := threads s;
     detections := detections s; alerts := alerts s; console := console s |}.

Definition set_detection_count (n : nat) (s : LoopState) : LoopState :=
  {| last_alert_time := last_alert_time s; detection_count := n;
     frame_count := frame_count s; detected_animals := detected_animals s;
     rectangles := rectangles s; threads := threads s;
     detections := detections s; alerts := alerts s; console := console s |}.

Definition set_frame_count (n : nat) (s : LoopState) : LoopState :=
  {| last_alert_time := last_alert_time s; detection_count := detection_count s;
     frame_count := n; detected_animals := detected_animals s;
     rectangles := rectangles s; threads := threads s;
     detections := detections s; alerts := alerts s; console := console s |}.

Definition set_detected_animals (d : gset string) (s : LoopState) : LoopState :=
  {| last_alert_time := last_alert_time s; detection_count := detection_count s;
     frame_count := frame_count s; detected_animals := d;
     rectangles := rectangles s; threads := threads s;
     detections := detections s; alerts := alerts s; console := console s |}.

Definition set_rectangles (r : list (Z * Z * Z * Z)) (s : LoopState) : LoopState :=
  {| last_alert_time := last_alert_time s; detection_count := detection_count s;
     frame_count := frame_count s; detected_animals := detected_animals s;
     rectangles := r; threads := threads s;
     detections := detections s; alerts := alerts s; console := console s |}.

Definition set_threads (t : list thread_run) (s : LoopState) : LoopState :=
  {| last_alert_time := last_alert_time s; detection_count := detection_count s;
     frame_count := frame_count s; detected_animals := detected_animals s;
     rectangles := rectangles s; threads := t;
     detections := detections s; alerts := alerts s; console := console s |}.

Definition set_detections (d : list DetectionRecord) (s : LoopState) : LoopState :=
  {| last_alert_time := last_alert_time s; detection_count := detection_count s;
     frame_count := frame_count s; detected_animals := detected_animals s;
     rectangles := rectangles s; threads := threads s;
     detections := d; alerts := alerts s; console := console s |}.

Definition set_alerts (a : list AlertRecord) (s : LoopState) : LoopState :=
  {| last_alert_time := last_alert_time s; detection_count := detection_count s;
     frame_count := frame_count s; detected_animals := detected_animals s;
     rectangles := rectangles s; threads := threads s;
     detections := detections s; alerts := a; console := console s |}.

Definition set_console (c : list string) (s : LoopState) : LoopState :=
  {| last_alert_time := last_alert_time s; detection_count := detection_count s;
     frame_count := frame_count s; detected_animals := detected_animals s;
     rectangles := rectangles s; threads := threads s;
     detections := detections s; alerts := alerts s; console := c |}.

Definition print (line : string) : M LoopState unit :=
  modify (λ s, set_console (console s ++ [line])%list s).

(** The statements of one insert, and the one at which SQLite raises, if
    any. *)
Inductive db_step : Type := DbConnect | DbExecute | DbCommit | DbClose.

#[export] Instance db_step_eq_dec : EqDecision db_step.
Proof. solve_decision. Defined.

Definition sqlite_error : exn := OtherException "sqlite3.Error".

Definition db_call (fault : option db_step) (step : db_step) : M LoopState unit :=
  if decide (fault = Some step) then mthrow sqlite_error else mret tt.

(** The row is in the table once [conn.commit()] has returned. *)
Definition add_detection (fault : option db_step)
    (uid : Z) (animal_type : string) (location : option string)
    : M LoopState unit :=
  db_call fault DbConnect;;       (* get_conn(); conn.cursor() *)
  db_call fault DbExecute;;       (* cur.execute('INSERT INTO detections ...') *)
  db_call fault DbCommit;;        (* conn.commit() *)
  modify (λ s, set_detections
     (detections s ++ [ {| det_user_id := uid; det_animal_type := animal_type;
                           det_location := location |} ])%list s);;
  db_call fault DbClose.          (* conn.close() *)

Definition add_alert (fault : option db_step)
    (uid : Z) (message : string) (type : string) : M LoopState unit :=
  db_call fault DbConnect;;
  db_call fault DbExecute;;       (* cur.execute('INSERT INTO alerts ...') *)
  db_call fault DbCommit;;
  modify (λ s, set_alerts
     (alerts s ++ [ {| alert_user_id := uid; alert_message := message;
                       alert_type := type |} ])%list s);;
  db_call fault DbClose.

(* ===================================================================== *)
(** * The detection loop ([detection.py], [main])                         *)
(* ===================================================================== *)

(** One box of the classifier's result. *)
Record Box : Type := {
  cls : Z;                  (* int(box.cls[0]) *)
  conf : Q;                 (* float(box.conf[0]) *)
  xyxy : Q * Q * Q * Q      (* box.xyxy[0] *)
}.

(** What the outside world answers while one box is processed. *)
Record BoxEnv : Type := {
  time_time : Q;                      (* time.time() in should_send_alert *)
  timestamp : string;                 (* datetime.now().strftime(...) *)
  on_imwrite : option exn;            (* os.makedirs or cv2.imwrite raises *)
  imwrite_returns : bool;             (* what cv2.imwrite returns otherwise *)
  sound_fails : bool;                 (* play_sound_alert in its thread *)
  email_env : EmailEnv;               (* send_email_alert in its thread *)
  detection_fault : option db_step;   (* add_detection *)
  alert_fault : option db_step        (* add_alert *)
}.

(** [floor (log2 (n / d))] for positive [n] and [d]. *)
Definition floor_log2 (n d : Z) : Z :=
  let e := (Z.log2 n - Z.log2 d)%Z in
  if (n * 2 ^ Z.max 0 (- e) <? d * 2 ^ Z.max 0 e)%Z then (e - 1)%Z else e.

(** [n / d] rounded to the nearest integer, a tie to the even one
    ([d] positive). *)
Definition round_half_even (n d : Z) : Z :=
  let f := (n / d)%Z in
  match (2 * (n mod d) ?= d)%Z with
  | Lt => f
  | Gt => (f + 1)%Z
  | Eq => if Z.even f then f else (f + 1)%Z
  end.

(** The nearest number with [prec] significant bits, a tie to the one with
    an even last bit: the rounding of IEEE 754 between its underflow and
    overflow thresholds. *)
Definition round_prec (prec : Z) (q : Q) : Q :=
  let n := Qnum q in
  let d := Zpos (Qden q) in
  if (n =? 0)%Z then 0%Q
  else
    let u := (floor_log2 (Z.abs n) d - prec + 1)%Z in
    let m := round_half_even (n * 2 ^ Z.max 0 (- u)) (d * 2 ^ Z.max 0 u) in
    (inject_Z m * 2 ^ u)%Q.

(** A Python [float] (binary64) and a [torch.float32] (binary32). *)
Definition float64 (q : Q) : Q := round_prec 53 q.
Definition float32 (q : Q) : Q := round_prec 24 q.

(** [int(x)] of a float: truncation toward zero. *)
Definition Qtrunc (q : Q) : Z := Z.quot (Qnum q) (Zpos (Qden q)).

(** [a / b] on two ints: the quotient rounded to a Python float. *)
Definition true_div {S} (a b : Z) : M S Q :=
  if decide (b = 0%Z) then mthrow ZeroDivisionError
  else mret (float64 (inject_Z a / inject_Z b)).

(** One coordinate, [int(x * scale)]: [x] is a [torch.float32] and [scale]
    a Python float, which torch takes in single precision; the product is
    rounded to single precision and [int] truncates it toward zero. *)
Definition rescale_coordinate (x scale : Q) : Z :=
  Qtrunc (float32 (x * float32 scale)).

(** "Scale coordinates back to original frame".  A shape is
    [(rows, columns)], so [shape[1]] is the width and [shape[0]] the
    height. *)
Definition rescale {S} (frame_shape process_frame_shape : Z * Z)
    (box : Q * Q * Q * Q) : M S (Z * Z * Z * Z) :=
  let '(x1, y1, x2, y2) := box in
  scale_x ← true_div (snd frame_shape) (snd process_frame_shape);
  scale_y ← true_div (fst frame_shape) (fst process_frame_shape);
  mret (rescale_coordinate x1 scale_x, rescale_coordinate y1 scale_y,
        rescale_coordinate x2 scale_x, rescale_coordinate y2 scale_y).

Definition Qlt_bool (x y : Q) : bool := negb (Qle_bool y x).

(** [label in TARGET_ANIMALS and confidence > confidence_threshold]. *)
Definition is_candidate (cfg : Config) (label : string) (confidence : Q) : bool :=
  bool_decide (label ∈ TARGET_ANIMALS cfg)
  && Qlt_bool (get_confidence_threshold cfg) confidence.

(** [os.path.join(path, name)] on POSIX paths. *)
Definition starts_with_slash (s : string) : bool :=
  match s with
  | String c _ => Ascii.eqb c "/"
  | EmptyString => false
  end.

Fixpoint ends_with_slash (s : string) : bool :=
  match s with
  | EmptyString => false
  | String c EmptyString => Ascii.eqb c "/"
  | String _ r => ends_with_slash r
  end.

Definition path_join (path name : string) : string :=
  if starts_with_slash name then name
  else if match path with EmptyString => true | _ => ends_with_slash path end
       then path ++ name
       else path ++ "/" ++ name.

(** [cv2.imwrite] reports a write that failed by returning [False]; the
    call here drops what it returns, so only an exception reaches the
    handler. *)
Definition save_detection_image (cfg : Config) (env : BoxEnv)
    (animal_type : string) : M LoopState (option string) :=
  if negb (default true (save_detection_images (DETECTION_CONFIG cfg)))
  then mret None
  else
    try_except
      (let folder := default "detections" (detections_folder (DETECTION_CONFIG cfg)) in
       let filename := "detection_" ++ animal_type ++ "_" ++ timestamp env ++ ".jpg" in
       let filepath := path_join folder filename in
       outcome (on_imwrite env);;
       let _ := imwrite_returns env in
       print ("Detection image saved: " ++ filename);;
       mret (Some filepath))
      (λ _, print "Failed to save detection image";; mret None).

(** [threading.Thread(target=..., daemon=True).start()]: the target runs
    beside the loop, on a trace of its own. *)
Definition start_thread (t : thread_run) : M LoopState unit :=
  modify (λ s, set_threads (threads s ++ [t])%list s).

(** The state transition of the gate, as the loop calls it. *)
Definition call_should_send_alert (cfg : Config) (env : BoxEnv)
    (label : string) : M LoopState bool :=
  s ← get;
  let '(fire, m) := should_send_alert cfg (time_time env) label (last_alert_time s) in
  modify (set_last_alert_time m);;
  mret fire.

(** "Save to database": one [try] around both inserts. *)
Definition save_to_database (cfg : Config) (env : BoxEnv) (label : string)
    : M LoopState unit :=
  let uid := default 1%Z (user_id cfg) in
  try_except
    (add_detection (detection_fault env) uid (capitalize label) (Some "Camera Feed");;
     add_alert (alert_fault env) uid
       (capitalize label ++ " detected - Alert activated") "danger")
    (λ _, print "Database error").

(** What follows a [True] of the gate.  The three lines printed for the
    alert are one entry of the console; starting a thread is taken to
    succeed. *)
Definition trigger_alert (cfg : Config) (env : BoxEnv)
    (label : string) (confidence : Q) : M LoopState unit :=
  modify (λ s, set_detection_count (S (detection_count s)) s);;
  print ("ALERT: " ++ upper label ++ " detected!");;
  image_path ← save_detection_image cfg env label;
  start_thread (SoundThread label (sound_fails env));;
  (let '(r, evs) :=
     send_email_alert (EMAIL_CONFIG cfg) (email_env env) label confidence image_path []
   in start_thread (EmailThread r evs));;
  save_to_database cfg env label.

Definition pass : M LoopState unit := mret tt.

(** The body of the [try] inside [for box in r.boxes].  [names] is
    [model.names]. *)
Definition process_box_try (cfg : Config) (names : gmap Z string)
    (frame_shape process_frame_shape : Z * Z) (box : Box) (env : BoxEnv)
    : M LoopState unit :=
  name ← subscript "model.names" (names !! cls box);
  let label := lower name in
  let confidence := conf box in
  if is_candidate cfg label confidence then
    modify (λ s, set_detected_animals ({[label]} ∪ detected_animals s) s);;
    r ← rescale frame_shape process_frame_shape (xyxy box);
    modify (λ s, set_rectangles (rectangles s ++ [r])%list s);;
    fire ← call_should_send_alert cfg env label;
    if fire : bool then trigger_alert cfg env label confidence else pass
  else pass.

(** The body of [for box in r.boxes], with its [except Exception]. *)
Definition process_box (cfg : Config) (names : gmap Z string)
    (frame_shape process_frame_shape : Z * Z) (be : Box * BoxEnv)
    : M LoopState unit :=
  try_except
    (process_box_try cfg names frame_shape process_frame_shape be.1 be.2)
    (λ _, print "Error processing detection").


Fixpoint for_each {S A} (f : A → M S unit) (l : list A) : M S unit :=
  match l with
  | [] => mret tt
  | a :: rest => f a;; for_each f rest
  end.

(** One frame that the camera delivered, with the boxes the classifier
    found in its resized copy. *)
Record Frame : Type := {
  frame_shape : Z * Z;
  boxes : list (Box * BoxEnv)
}.

(** [cv2.resize(frame, (frame_width, frame_height))]: OpenCV raises on a
    size that is not positive. *)
Definition resize (cfg : Config) : M LoopState (Z * Z) :=
  let w := default 640%Z (frame_width (DETECTION_CONFIG cfg)) in
  let h := default 480%Z (frame_height (DETECTION_CONFIG cfg)) in
  if (Z.ltb 0 w && Z.ltb 0 h)%bool then mret (h, w)
  else mthrow (OtherException "cv2.error").

(** One turn of [while not should_exit]. *)
Definition loop_iteration (cfg : Config) (names : gmap Z string) (fr : Frame)
    : M LoopState unit :=
  modify (λ s, set_frame_count (S (frame_count s)) s);;
  process_frame_shape ← resize cfg;
  modify (set_detected_animals ∅);;
  for_each (process_box cfg names (frame_shape fr) process_frame_shape) (boxes fr).

(** The loop over the frames read until the camera fails or the user
    quits, inside the [try ... except Exception] of [main]. *)
Definition main_loop (cfg : Config) (names : gmap Z string) (frames : list Frame)
    : M LoopState unit :=
  try_except (for_each (loop_iteration cfg names) frames)
             (λ _, print "Error during detection").

(** The state at the start of [main]. *)
Definition initial_state : LoopState := {|
  last_alert_time := ∅; detection_count := 0; frame_count := 0;
  detected_animals := ∅; rectangles := []; threads := [];
  detections := []; alerts := []; console := [] |}.

(** The rescaling as the specification words it: the exact quotients. *)
Definition rescale_spec (W H w h : Z) (box : Q * Q * Q * Q) : Q * Q * Q * Q :=
  let '(x1, y1, x2, y2) := box in
  (x1 * inject_Z W / inject_Z w, y1 * inject_Z H / inject_Z h,
   x2 * inject_Z W / inject_Z w, y2 * inject_Z H / inject_Z h)%Q.

(** The box the loop draws when both divisions succeed. *)
Definition scaled (frame_shape process_frame_shape : Z * Z)
    (box : Q * Q * Q * Q) : Z * Z * Z * Z :=
  let '(x1, y1, x2, y2) := box in
  let scale_x := float64 (inject_Z frame_shape.2 / inject_Z process_frame_shape.2) in
  let scale_y := float64 (inject_Z frame_shape.1 / inject_Z process_frame_shape.1) in
  (rescale_coordinate x1 scale_x, rescale_coordinate y1 scale_y,
   rescale_coordinate x2 scale_x, rescale_coordinate y2 scale_y).

(** The state of the loop once a candidate has been noted, drawn and put to
    the gate. *)
Definition after_gate (cfg : Config) (fs ps : Z * Z) (box : Box) (env : BoxEnv)
    (label : string) (s : LoopState) : LoopState :=
  set_last_alert_time
    (should_send_alert cfg (time_time env) label (last_alert_time s)).2
    (set_rectangles (rectangles s ++ [scaled fs ps (xyxy box)])%list
       (set_detected_animals ({[label]} ∪ detected_animals s) s)).

(* ===================================================================== *)
(** * What a run persists                                                 *)
(* ===================================================================== *)

(** From [s] to [s'] rows were only appended: no more alert rows than
    detection rows, and no more detection rows than alerts were counted. *)
Definition persisted_within (s s' : LoopState) : Prop :=
  ∃ d a, detections s' = (detections s ++ d)%list ∧
         alerts s' = (alerts s ++ a)%list ∧
         (length a ≤ length d)%nat ∧
         (detection_count s + length d ≤ detection_count s')%nat.

(** From [s] to [s'] one row was appended to each table per counted alert. *)
Definition persisted_exactly (s s' : LoopState) : Prop :=
  ∃ d a, detections s' = (detections s ++ d)%list ∧
         alerts s' = (alerts s ++ a)%list ∧
         length a = length d ∧
         detection_count s' = (detection_count s + length d)%nat.

(** SQLite raises in neither insert of this box. *)
Definition no_db_fault (env : BoxEnv) : Prop :=
  detection_fault env = None ∧ alert_fault env = None.

Definition no_db_faults (frames : list Frame) : Prop :=
  ∀ fr be, fr ∈ frames → be ∈ boxes fr → no_db_fault be.2.

(* ===================================================================== *)
(** * Sample inputs                                                       *)
(* ===================================================================== *)

(** Some entries of [model.names] of the COCO classifier. *)
Definition coco_names : gmap Z string :=
  {[ 0%Z := "person"; 14%Z := "bird"; 15%Z := "cat"; 16%Z := "dog";
     17%Z := "horse"; 19%Z := "cow" ]}.

(** Every outside call of the e-mail channel returns. *)
Definition email_env_ok : EmailEnv := {|
  path_exists := λ _, true; on_open_image := None; on_connect := None;
  on_starttls := None; on_login := None; on_send_message := None;
  on_quit := None |}.

(** The SMTP server refuses the login. *)
Definition email_env_auth_failure : EmailEnv := {|
  path_exists := λ _, true; on_open_image := None; on_connect := None;
  on_starttls := None; on_login := Some SMTPAuthenticationError;
  on_send_message := None; on_quit := None |}.

Definition email_config_disabled : EmailConfig := {|
  enabled := Some false;
  smtp_server := Some "smtp.gmail.com";
  smtp_port := Some 587%Z;
  sender_email := Some "your_gmail@gmail.com";
  sender_password := Some "yourpassword";
  recipient_email := Some "receiver email@gmail.com";
  override_sender := None |}.

(** One box processed at clock reading [t]: the sound and the e-mail fail,
    and SQLite raises where [dfault] and [afault] say. *)
Definition box_env (t : Q) (dfault afault : option db_step) : BoxEnv := {|
  time_time := t; timestamp := "20251126_103000"; on_imwrite := None;
  imwrite_returns := true; sound_fails := true; email_env := email_env_auth_failure;
  detection_fault := dfault; alert_fault := afault |}.

Definition dog_box (confidence : Q) (box : Q * Q * Q * Q) : Box :=
  {| cls := 16; conf := confidence; xyxy := box |}.

(** A 1280x720 frame with one dog in it. *)
Definition dog_frame (t : Q) (dfault afault : option db_step) : Frame := {|
  frame_shape := (720, 1280)%Z;
  boxes := [(dog_box (0.9)%Q (100, 100, 200, 200)%Q, box_env t dfault afault)] |}.

(** A child that outlives [wait(timeout=2)] and cannot be killed. *)
Definition proc_env_kill_fails : ProcEnv := {|
  on_terminate := None;
  on_wait_timeout := Some TimeoutExpired;
  on_kill := Some (OtherException "PermissionError");
  on_wait := None |}.

Definition proc_env_ok : ProcEnv := {|
  on_terminate := None; on_wait_timeout := None;
  on_kill := None; on_wait := None |}.

(** The first exception of the [try] block of the stop operation. *)
Definition stop_try_raises (env : ProcEnv) : option exn :=
  match on_terminate env with
  | Some e => Some e
  | None => on_wait_timeout env
  end.

(* ===================================================================== *)
(** * The e-mail channel: what a trace shows                              *)
(* ===================================================================== *)

Definition is_quit (ev : email_event) : bool :=
  match ev with EvQuit => true | _ => false end.

Definition is_open_image (ev : email_event) : bool :=
  match ev with EvOpenImage _ => true | _ => false end.

(** The channel is switched on and every entry of [EMAIL_CONFIG] it reads
    is there. *)
Definition email_ready (cfg : EmailConfig) : Prop :=
  default false (enabled cfg) = true ∧
  truthy (sender_email cfg) = true ∧ truthy (sender_password cfg) = true ∧
  is_Some (recipient_email cfg) ∧ is_Some (smtp_server cfg) ∧
  is_Some (smtp_port cfg).

(** Every call to the SMTP server returns. *)
Definition transport_ok (env : EmailEnv) : Prop :=
  on_connect env = None ∧ on_starttls env = None ∧ on_login env = None ∧
  on_send_message env = None ∧ on_quit env = None.

(** What an event may carry of the configured identities: the server and
    the login are those of [EMAIL_CONFIG]; a message goes to the configured
    recipient, and shows the override as its sender and its reply address
    when there is one. *)
Definition event_identities (cfg : EmailConfig) (ev : email_event) : Prop :=
  match ev with
  | EvLogin user password =>
      sender_email cfg = Some user ∧ sender_password cfg = Some password
  | EvConnect server port =>
      smtp_server cfg = Some server ∧ smtp_port cfg = Some port
  | EvSendMessage m =>
      recipient_email cfg = Some (msg_to m) ∧
      msg_from m = (if truthy (override_sender cfg) then override_sender cfg
                    else sender_email cfg) ∧
      msg_reply_to m = (if truthy (override_sender cfg) then override_sender cfg
                        else None)
  | _ => True
  end.

(** The detection image is on disk and cannot be read. *)
Definition email_env_unreadable_image : EmailEnv := {|
  path_exists := λ _, true;
  on_open_image := Some (OtherException "PermissionError");
  on_connect := None; on_starttls := None; on_login := None;
  on_send_message := None; on_quit := None |}.

(* ===================================================================== *)
(** * The detection loop: what a run shows                                *)
(* ===================================================================== *)

(** The call a box makes to the cooldown gate, if it passes the filter:
    its label and the clock reading of its turn. *)
Definition candidate_call (cfg : Config) (names : gmap Z string)
    (be : Box * BoxEnv) : option (string * Q) :=
  match names !! cls be.1 with
  | Some name =>
      if is_candidate cfg (lower name) (conf be.1)
      then Some (lower name, time_time be.2) else None
  | None => None
  end.

Definition candidate_calls (cfg : Config) (names : gmap Z string)
    (bs : list (Box * BoxEnv)) : list (string * Q) :=
  omap (candidate_call cfg names) bs.

(** The number of calls the gate answered [true]. *)
Definition count_true (answers : list (string * Q * bool)) : nat :=
  length (List.filter snd answers).

(** The configured size of the processing frame is positive. *)
Definition frame_size_ok (cfg : Config) : Prop :=
  (0 < default 640 (frame_width (DETECTION_CONFIG cfg)))%Z ∧
  (0 < default 480 (frame_height (DETECTION_CONFIG cfg)))%Z.

(** The rows one alert for [label] writes. *)
Definition detection_row (cfg : Config) (label : string) : DetectionRecord :=
  {| det_user_id := default 1%Z (user_id cfg);
     det_animal_type := capitalize label;
     det_location := Some "Camera Feed" |}.

Definition alert_row (cfg : Config) (label : string) : AlertRecord :=
  {| alert_user_id := default 1%Z (user_id cfg);
     alert_message := capitalize label ++ " detected - Alert activated";
     alert_type := "danger" |}.

(** From [s] to [s'] the tables only gained rows of alerts for target
    animals. *)
Definition rows_of_targets (cfg : Config) (s s' : LoopState) : Prop :=
  ∃ d a, detections s' = (detections s ++ d)%list ∧
         alerts s' = (alerts s ++ a)%list ∧
         Forall (λ r, ∃ l, l ∈ TARGET_ANIMALS cfg ∧ r = detection_row cfg l) d ∧
         Forall (λ r, ∃ l, l ∈ TARGET_ANIMALS cfg ∧ r = alert_row cfg l) a.

Definition is_sound_thread (t : thread_run) : bool :=
  match t with SoundThread _ _ => true | _ => false end.

Definition is_email_thread (t : thread_run) : bool :=
  match t with EmailThread _ _ => true | _ => false end.

(** From [s] to [s'] one sound thread and one e-mail thread were started
    per counted alert, and no other. *)
Definition threads_per_alert (s s' : LoopState) : Prop :=
  ∃ t, threads s' = (threads s ++ t)%list ∧
       detection_count s' = (detection_count s + length (List.filter is_sound_thread t))%nat ∧
       length (List.filter is_email_thread t) = length (List.filter is_sound_thread t) ∧
       length t = (2 * length (List.filter is_sound_thread t))%nat.

(** What [save_detection_image] returns. *)
Definition saved_image_path (cfg : Config) (env : BoxEnv) (label : string)
    : option string :=
  if default true (save_detection_images (DETECTION_CONFIG cfg))
     && bool_decide (on_imwrite env = None)
  then Some (path_join
               (default "detections" (detections_folder (DETECTION_CONFIG cfg)))
               ("detection_" ++ label ++ "_" ++ timestamp env ++ ".jpg"))
  else None.

(** The same answers of the outside world, with another result of
    [cv2.imwrite]. *)
Definition set_imwrite_returns (b : bool) (env : BoxEnv) : BoxEnv := {|
  time_time := time_time env; timestamp := timestamp env;
  on_imwrite := on_imwrite env; imwrite_returns := b;
  sound_fails := sound_fails env; email_env := email_env env;
  detection_fault := detection_fault env; alert_fault := alert_fault env |}.

(** [config.py] with a processing frame of width 0. *)
Definition config_zero_width : Config := {|
  EMAIL_CONFIG := EMAIL_CONFIG config_py;
  DETECTION_CONFIG := {|
    confidence_threshold := Some (0.5)%Q;
    alert_cooldown := Some 60%Q;
    frame_width := Some 0%Z;
    frame_height := Some 480%Z;
    save_detection_images := Some true;
    detections_folder := Some "detections" |};
  TARGET_ANIMALS := TARGET_ANIMALS config_py;
  user_id := user_id config_py |}.

(** The loop thirty seconds after an alert for a dog at 1000 s. *)
Definition state_after_dog_alert : LoopState :=
  set_detection_count 1 (set_last_alert_time {["dog" := 1000%Q]} initial_state).

(* ===================================================================== *)
(** * The sound channel ([detection.py], [play_sound_alert])              *)
(* ===================================================================== *)

(** [SOUND_CONFIG]. *)
Record SoundConfig : Type := {
  sound_enabled : option bool;
  beep_frequency : option Z;
  beep_duration : option Z;
  beep_count : option Z
}.

Definition sound_config_py : SoundConfig := {|
  sound_enabled := Some true; beep_frequency := Some 1000%Z;
  beep_duration := Some 500%Z; beep_count := Some 3%Z |}.

Definition ANIMAL_SOUNDS : gmap string string :=
  {[ "cat" := "sound/cat.mp3"; "cow" := "sound/cow.mp3";
     "lion" := "sound/lion.mp3" ]}.

Inductive sound_event : Type :=
| SndPrint (line : string)
| SndPopen (file : string)       (* powershell ... SoundPlayer ... PlaySync() *)
| SndFfplay (file : string)      (* ffplay -nodisp -autoexit file *)
| SndBeep (frequency duration : Z)
| SndSleep.                      (* time.sleep(0.2) *)

(** How the platform answers during one call. *)
Record SoundEnv : Type := {
  sound_file_exists : string → bool;   (* os.path.exists *)
  on_sound_popen : option exn;         (* subprocess.Popen *)
  on_ffplay : option exn;              (* subprocess.run(..., timeout=5) *)
  winsound_available : bool;           (* import winsound *)
  on_beep : nat → option exn           (* the i-th winsound.Beep *)
}.

Definition load_sound_file (env : SoundEnv) (animal_type : string)
    : option string :=
  let sound_file := ANIMAL_SOUNDS !! lower animal_type in
  if truthy sound_file && sound_file_exists env (default "" sound_file)
  then sound_file else None.

Definition sound_emit (ev : sound_event) : M (list sound_event) unit :=
  modify (λ tr, (tr ++ [ev])%list).

Definition sound_attempt (ev : sound_event) (o : option exn)
    : M (list sound_event) unit :=
  sound_emit ev;; outcome o.

(** The nested [try] blocks that play the file of the animal; the result
    says whether the function has returned (a [return] was reached). *)
Definition play_sound_file (env : SoundEnv) (animal_type sound_file : string)
    : M (list sound_event) bool :=
  try_except
    (try_except
       (sound_attempt (SndPopen sound_file) (on_sound_popen env);;
        sound_emit (SndPrint ("Playing sound alert for " ++ animal_type
                              ++ ": " ++ sound_file));;
        mret true)
       (λ _,
          try_except
            (sound_attempt (SndFfplay sound_file) (on_ffplay env);;
             sound_emit (SndPrint ("Playing sound alert for " ++ animal_type
                                   ++ ": " ++ sound_file));;
             mret true)
            (λ _,
               sound_emit (SndPrint ("Could not play " ++ sound_file
                                     ++ ", falling back to beep"));;
               mret false)))
    (λ _, sound_emit (SndPrint "Error playing sound");; mret false).

(** [for _ in range(n): winsound.Beep(...); time.sleep(0.2)], from the
    [i]-th beep on. *)
Fixpoint beep_loop (env : SoundEnv) (frequency duration : Z) (i n : nat)
    : M (list sound_event) unit :=
  match n with
  | O => mret tt
  | S n' =>
      sound_attempt (SndBeep frequency duration) (on_beep env i);;
      sound_emit SndSleep;;
      beep_loop env frequency duration (S i) n'
  end.

Definition import_error : exn := OtherException "ImportError".

Definition is_import_error (e : exn) : bool :=
  match e with
  | OtherException "ImportError" => true
  | _ => false
  end.

(** "Fall back to beep". *)
Definition beep_fallback (scfg : SoundConfig) (env : SoundEnv)
    : M (list sound_event) unit :=
  try_except
    ((if winsound_available env then mret tt else mthrow import_error);;
     beep_loop env (default 1000%Z (beep_frequency scfg))
       (default 500%Z (beep_duration scfg)) 0
       (Z.to_nat (default 3%Z (beep_count scfg)));;
     sound_emit (SndPrint "Sound alert played (beep)"))
    (λ e,
       if is_import_error e
       then sound_emit (SndPrint "Sound alert not available on this platform")
       else sound_emit (SndPrint "Sound alert error")).

Definition play_sound_alert (scfg : SoundConfig) (env : SoundEnv)
    (animal_type : option string) : M (list sound_event) unit :=
  if negb (default true (sound_enabled scfg)) then mret tt
  else
    returned ←
      (if truthy animal_type
       then match load_sound_file env (default "" animal_type) with
            | Some sound_file =>
                play_sound_file env (default "" animal_type) sound_file
            | None => mret false
            end
       else mret false);
    if returned : bool then mret tt else beep_fallback scfg env.

Definition is_beep (ev : sound_event) : bool :=
  match ev with SndBeep _ _ => true | _ => false end.

Definition is_player (ev : sound_event) : bool :=
  match ev with SndPopen _ | SndFfplay _ => true | _ => false end.

Definition is_ffplay (ev : sound_event) : bool :=
  match ev with SndFfplay _ => true | _ => false end.

(** The sound file [play_sound_alert] looks for. *)
Definition sound_file_for (env : SoundEnv) (animal_type : option string)
    : option string :=
  if truthy animal_type then load_sound_file env (default "" animal_type)
  else None.

(** A platform with the sound files, where PowerShell and ffplay are
    missing and [winsound] works. *)
Definition sound_env_beep_only : SoundEnv := {|
  sound_file_exists := λ _, true;
  on_sound_popen := Some (OtherException "FileNotFoundError");
  on_ffplay := Some (OtherException "FileNotFoundError");
  winsound_available := true;
  on_beep := λ _, None |}.

(* ===================================================================== *)
(** * The users table ([database.py])                                     *)
(* ===================================================================== *)

(** A value of a column, as [sqlite3] hands it to Python, or of the
    session. *)
Inductive value : Type :=
| VInt (n : Z)
| VText (s : string)
| VBool (b : bool)
| VNull.

#[export] Instance value_eq_dec : EqDecision value.
Proof. solve_decision. Defined.

(** A row of [users].  [name], [email] and [password] are [NOT NULL] (the
    callers pass [str]); [email] is [UNIQUE] under the binary collation,
    that is equality of strings; [id] is
    [INTEGER PRIMARY KEY AUTOINCREMENT]. *)
Record UserRow : Type := {
  user_row_id : Z;
  user_name : string;
  user_email : string;
  user_password : string;           (* the hash *)
  user_location : option string;
  user_created_at : string
}.

(** The database as the functions of the users see it: the table in the
    order of the inserts, the largest id it ever gave (the row of [users]
    in [sqlite_sequence]), and whether a connection that was left open
    holds the write lock. *)
Record UsersTable : Type := {
  user_rows : list UserRow;
  users_sequence : Z;
  write_locked : bool
}.

(** [sqlite3.OperationalError: database is locked], raised by an insert
    that waited five seconds for the write lock. *)
Definition database_is_locked : exn :=
  OtherException "OperationalError: database is locked".

(** The garbage collector reaches the connections that were left open:
    closing them rolls their transactions back and frees the lock. *)
Definition collect_garbage (t : UsersTable) : UsersTable :=
  {| user_rows := user_rows t; users_sequence := users_sequence t;
     write_locked := false |}.

Definition text_or_null (o : option string) : value :=
  match o with Some s => VText s | None => VNull end.

(** [dict(row)] of [SELECT * FROM users]. *)
Definition row_dict (r : UserRow) : gmap string value :=
  {[ "id" := VInt (user_row_id r); "name" := VText (user_name r);
     "email" := VText (user_email r); "password" := VText (user_password r);
     "location" := text_or_null (user_location r);
     "created_at" := VText (user_created_at r) ]}.

(** [dict(row)] of [SELECT id, name, email, location, created_at]. *)
Definition public_dict (r : UserRow) : gmap string value :=
  {[ "id" := VInt (user_row_id r); "name" := VText (user_name r);
     "email" := VText (user_email r);
     "location" := text_or_null (user_location r);
     "created_at" := VText (user_created_at r) ]}.

(** [{k: row[k] for k in row.keys() if k != 'password'}]. *)
Definition without_password (d : gmap string value) : gmap string value :=
  filter (λ kv, kv.1 ≠ "password") d.

(** [SELECT * FROM users WHERE email = ?] and [fetchone()]. *)
Definition select_user_by_email (email : string) (t : UsersTable)
    : option UserRow :=
  List.find (λ r, bool_decide (user_email r = email)) (user_rows t).

(** [SELECT ... FROM users WHERE id = ?] and [fetchone()]. *)
Definition select_user_by_id (id : Z) (t : UsersTable) : option UserRow :=
  List.find (λ r, bool_decide (user_row_id r = id)) (user_rows t).

Definition get_user_by_email (email : string) (t : UsersTable)
    : option (gmap string value) :=
  row_dict <$> select_user_by_email email t.

(** The id [AUTOINCREMENT] gives the next row: one more than the largest id
    the table holds or ever gave. *)
Definition largest_rowid (rows : list UserRow) : Z :=
  foldr Z.max 0%Z (user_row_id <$> rows).

Definition next_rowid (t : UsersTable) : Z :=
  (Z.max (users_sequence t) (largest_rowid (user_rows t)) + 1)%Z.

(** The row [create_user] inserts. *)
Definition new_user_row (pw_hash now name email : string)
    (location : option string) (t : UsersTable) : UserRow :=
  {| user_row_id := next_rowid t; user_name := name;
     user_email := email; user_password := pw_hash;
     user_location := location; user_created_at := now |}.

Section Passwords.

(** [werkzeug.security]: the hash of a password under the salt it draws,
    and the check of a password against a hash. *)
Variable generate_password_hash : string → string → string.
Variable check_password_hash : string → string → bool.

(** [create_user]: [salt] is the salt werkzeug draws, [now] is
    [CURRENT_TIMESTAMP].  The insert waits for the write lock and raises
    [OperationalError] when it does not get it.  The insert of an e-mail
    that is in the table raises [sqlite3.IntegrityError], which the
    function turns into [None]: it returns without [conn.close()], so the
    connection stays open inside its transaction, with the write lock,
    until the garbage collector reaches it. *)
Definition create_user (salt now : string)
    (name email password : string) (location : option string)
    : M UsersTable (option (gmap string value)) := λ t,
  let pw_hash := generate_password_hash salt password in
  if write_locked t then (Raise database_is_locked, t)
  else if bool_decide (email ∈ user_email <$> user_rows t)
  then (Ok None,
        {| user_rows := user_rows t; users_sequence := users_sequence t;
           write_locked := true |})
  else
    let row := new_user_row pw_hash now name email location t in
    let t' := {| user_rows := user_rows t ++ [row];
                 users_sequence := user_row_id row;
                 write_locked := false |} in
    let user_id := user_row_id row in
    (Ok (public_dict <$> select_user_by_id user_id t'), t').

(** [authenticate_user]. *)
Definition authenticate_user (email password : string) (t : UsersTable)
    : option (gmap string value) :=
  match get_user_by_email email t with
  | None => None
  | Some row =>
      match row !! "password" with
      | Some (VText pw_hash) =>
          if check_password_hash pw_hash password
          then Some (without_password row)
          else None
      | _ => None
      end
  end.

End Passwords.

(** The e-mails and the ids of the table are pairwise different. *)
Definition users_table_ok (t : UsersTable) : Prop :=
  NoDup (user_email <$> user_rows t) ∧ NoDup (user_row_id <$> user_rows t).

Definition users_empty : UsersTable :=
  {| user_rows := []; users_sequence := 0; write_locked := false |}.

(** A table with one user, after a registration under the same e-mail was
    refused. *)
Definition users_after_refusal : UsersTable :=
  {| user_rows := [ {| user_row_id := 1; user_name := "Asha";
                       user_email := "a@b.c"; user_password := "secret";
                       user_location := None;
                       user_created_at := "2025-11-26 10:30:00" |} ];
     users_sequence := 1; write_locked := true |}.

(** A toy hash for the examples: the password itself. *)
Definition toy_hash (salt password : string) : string := password.

Definition toy_check (hash password : string) : bool :=
  bool_decide (hash = password).

(* ===================================================================== *)
(** * Starting the detection ([camera.py], [detection.py])                *)
(* ===================================================================== *)

(** A child process as [subprocess.Popen] made it. *)
Record Child : Type := {
  child_pid : nat;
  child_environ : gmap string string
}.

(** The module [camera] and every child it has spawned, oldest first. *)
Record Supervisor : Type := {
  camera : CameraState;
  children : list Child
}.

(** How the system answers one start: the environment of the web process
    and what [Popen] does (the new child's pid, or an exception). *)
Record StartEnv : Type := {
  os_environ : gmap string string;
  on_spawn : result nat
}.

(** [env = os.environ.copy()] and the two optional entries. *)
Definition spawn_environ (environ : gmap string string)
    (sender_email recipient_email : option string) : gmap string string :=
  let env1 :=
    if truthy sender_email
    then <["DETECTION_SENDER_EMAIL" := default "" sender_email]> environ
    else environ in
  if truthy recipient_email
  then <["DETECTION_RECIPIENT_EMAIL" := default "" recipient_email]> env1
  else env1.

Definition supervisor_print (line : string) : M Supervisor unit :=
  modify (λ s, {| camera := {| detection_process := detection_process (camera s);
                               proc_log := (proc_log (camera s) ++ [PPrint line])%list |};
                  children := children s |}).

(** [subprocess.Popen(['python', 'detection.py'], ..., env=env)] and the
    assignment of its result to [detection_process]. *)
Definition spawn (env : StartEnv) (environ : gmap string string)
    : M Supervisor unit :=
  match on_spawn env with
  | Ok pid =>
      modify (λ s,
        {| camera := {| detection_process := Some pid;
                        proc_log := proc_log (camera s) |};
           children := (children s ++ [ {| child_pid := pid;
                                           child_environ := environ |} ])%list |})
  | Raise e => mthrow e
  end.

Definition start_detection_background (env : StartEnv)
    (sender_email recipient_email : option string) : M Supervisor unit :=
  try_except
    (spawn env (spawn_environ (os_environ env) sender_email recipient_email))
    (λ _, supervisor_print "Error starting detection process").

(** A function of the module [camera] run on the supervisor. *)
Definition on_camera {A} (m : M CameraState A) : M Supervisor A := λ s,
  let '(r, c) := m (camera s) in
  (r, {| camera := c; children := children s |}).

(** The top of [detection.py]: the two variables of the environment
    change [EMAIL_CONFIG] when they are set and not empty. *)
Definition apply_environment (environ : gmap string string)
    (cfg : EmailConfig) : EmailConfig :=
  let env_sender := environ !! "DETECTION_SENDER_EMAIL" in
  let cfg1 :=
    if truthy env_sender
    then {| enabled := enabled cfg; smtp_server := smtp_server cfg;
            smtp_port := smtp_port cfg; sender_email := sender_email cfg;
            sender_password := sender_password cfg;
            recipient_email := recipient_email cfg;
            override_sender := env_sender |}
    else cfg in
  let env_recipient := environ !! "DETECTION_RECIPIENT_EMAIL" in
  if truthy env_recipient
  then {| enabled := enabled cfg1; smtp_server := smtp_server cfg1;
          smtp_port := smtp_port cfg1; sender_email := sender_email cfg1;
          sender_password := sender_password cfg1;
          recipient_email := env_recipient;
          override_sender := override_sender cfg1 |}
  else cfg1.

(** The process an event of the log addresses. *)
Definition event_pid (ev : proc_event) : option nat :=
  match ev with
  | PTerminate p | PWait p _ | PKill p => Some p
  | PPrint _ => None
  end.

Definition supervisor_idle : Supervisor :=
  {| camera := {| detection_process := None; proc_log := [] |};
     children := [] |}.

(** The supervisor after one start that gave [pid]. *)
Definition supervisor_tracking (pid : nat) : Supervisor :=
  {| camera := {| detection_process := Some pid; proc_log := [] |};
     children := [ {| child_pid := pid; child_environ := ∅ |} ] |}.

Definition start_env (pid : nat) : StartEnv :=
  {| os_environ := {[ "PATH" := "/usr/bin" ]}; on_spawn := Ok pid |}.

(* ===================================================================== *)
(** * The routes of the web application ([app.py])                        *)
(* ===================================================================== *)

(** [str.strip()] on ASCII white space. *)
Definition is_space (c : ascii) : bool :=
  let n := N_of_ascii c in
  (N.eqb n 32 || (N.leb 9 n && N.leb n 13) || (N.leb 28 n && N.leb n 31))%bool.

Fixpoint lstrip (s : string) : string :=
  match s with
  | EmptyString => EmptyString
  | String c r => if is_space c then lstrip r else s
  end.

Fixpoint rstrip (s : string) : string :=
  match s with
  | EmptyString => EmptyString
  | String c r =>
      match rstrip r with
      | EmptyString => if is_space c then EmptyString else String c EmptyString
      | r' => String c r'
      end
  end.

Definition strip (s : string) : string := rstrip (lstrip s).

(** Truth value of a string. *)
Definition nonempty (s : string) : bool :=
  match s with EmptyString => false | String _ _ => true end.

(** Truth value of [d.get(key)] for a value of a column. *)
Definition value_truthy (v : option value) : bool :=
  match v with
  | Some (VInt n) => negb (n =? 0)%Z
  | Some (VText s) => nonempty s
  | Some (VBool b) => b
  | Some VNull | None => false
  end.

(** Truth value of a dict or [None]. *)
Definition dict_truthy (d : option (gmap string value)) : bool :=
  match d with
  | Some m => negb (bool_decide (m = ∅))
  | None => false
  end.

(** The e-mail of the session as the argument [camera] expects, a [str] or
    [None]: the routes store a text under [user_email] or nothing. *)
Definition text_argument (v : option value) : option string :=
  match v with
  | Some (VText s) => Some s
  | _ => None
  end.

Inductive response : Type :=
| Redirect (endpoint : string)
| RenderTemplate (template : string).

Inductive http_method : Type := GET | POST.

(** [request.form]. *)
Record Form : Type := {
  form_username : option string;
  form_name : option string;
  form_email : option string;
  form_password : option string;
  form_location : option string
}.

(** [request.form.get(key, '')]. *)
Definition form_get (field : option string) : string := default "" field.

(** What the routes act on: the module [camera], the table [users], the
    session of the browser and the messages flashed. *)
Record WebState : Type := {
  supervisor : Supervisor;
  users : UsersTable;
  session : gmap string value;
  flashes : list string
}.

Definition set_users (t : UsersTable) (w : WebState) : WebState :=
  {| supervisor := supervisor w; users := t; session := session w;
     flashes := flashes w |}.

Definition set_session (sess : gmap string value) (w : WebState) : WebState :=
  {| supervisor := supervisor w; users := users w; session := sess;
     flashes := flashes w |}.

Definition flash (message : string) : M WebState unit :=
  modify (λ w, {| supervisor := supervisor w; users := users w;
                  session := session w;
                  flashes := (flashes w ++ [message])%list |}).

Definition on_supervisor {A} (m : M Supervisor A) : M WebState A := λ w,
  let '(r, s) := m (supervisor w) in
  (r, {| supervisor := s; users := users w; session := session w;
         flashes := flashes w |}).

(** A function of the module [database] run on the application. *)
Definition on_users {A} (m : M UsersTable A) : M WebState A := λ w,
  let '(r, t) := m (users w) in (r, set_users t w).

(** [session.get('user_id')] as a truth value. *)
Definition logged_in (sess : gmap string value) : bool :=
  value_truthy (sess !! "user_id").

(** [d[key]]. *)
Definition dict_subscript (d : gmap string value) (key : string)
    : M WebState value :=
  match d !! key with
  | Some v => mret v
  | None => mthrow (KeyError key)
  end.

(** [session['user_id'] = user['id']; session['user_email'] = user['email']],
    the two lines [user_register] and [user_login] share. *)
Definition set_session_user (user : gmap string value) : M WebState unit :=
  user_id ← dict_subscript user "id";
  modify (λ w, set_session (<["user_id" := user_id]> (session w)) w);;
  user_email ← dict_subscript user "email";
  modify (λ w, set_session (<["user_email" := user_email]> (session w)) w).

(** [str(e)], abridged. *)
Definition str_exn (e : exn) : string :=
  match e with
  | TimeoutExpired => "Command timed out"
  | SMTPAuthenticationError => "SMTPAuthenticationError"
  | KeyError key => key
  | ZeroDivisionError => "division by zero"
  | OtherException what => what
  end.

Section Routes.

Variable generate_password_hash : string → string → string.
Variable check_password_hash : string → string → bool.

(** The route [/user/register]; [salt] and [now] are what [create_user]
    draws.  The look-up and the insert are two transactions: [between] is
    what happens to the database from the one to the other (the writes of
    other requests in flight, a run of the garbage collector), the
    identity when the request is served alone.  An exception of
    [create_user] leaves the route. *)
Definition user_register (salt now : string)
    (between : UsersTable → UsersTable) (method : http_method)
    (form : Form) : M WebState response :=
  match method with
  | GET => mret (RenderTemplate "user_register.html")
  | POST =>
      let name := strip (form_get (form_name form)) in
      let email := lower (strip (form_get (form_email form))) in
      let password := form_get (form_password form) in
      let location :=
        let l := strip (form_get (form_location form)) in
        if nonempty l then Some l else None in
      if (negb (nonempty name) || negb (nonempty email)
          || negb (nonempty password))%bool
      then flash "Name, email and password are required";;
           mret (RenderTemplate "user_register.html")
      else
        w ← get;
        if dict_truthy (get_user_by_email email (users w))
        then flash "A user with that email already exists";;
             mret (RenderTemplate "user_register.html")
        else
          modify (λ w, set_users (between (users w)) w);;
          user ← on_users (create_user generate_password_hash salt now
                             name email password location);
          if dict_truthy user
          then set_session_user (default ∅ user);;
               mret (Redirect "user_dashboard")
          else flash "Failed to create user (email may already be in use)";;
               mret (RenderTemplate "user_register.html")
  end.

(** The route [/user/login]. *)
Definition user_login (method : http_method) (form : Form)
    : M WebState response :=
  match method with
  | GET => mret (RenderTemplate "user_login.html")
  | POST =>
      let email := lower (strip (form_get (form_email form))) in
      let password := form_get (form_password form) in
      w ← get;
      let user := authenticate_user check_password_hash email password
                    (users w) in
      if dict_truthy user
      then set_session_user (default ∅ user);;
           mret (Redirect "user_dashboard")
      else flash "Invalid email or password";;
           mret (RenderTemplate "user_login.html")
  end.

End Routes.

(** The route [/logout]. *)
Definition logout : M WebState response :=
  modify (set_session ∅);; mret (Redirect "home").

(** The route [/admin/login]. *)
Definition admin_login (method : http_method) (form : Form)
    : M WebState response :=
  match method with
  | GET => mret (RenderTemplate "admin_login.html")
  | POST =>
      let username := form_get (form_username form) in
      let password := form_get (form_password form) in
      if (bool_decide (username = "admin") && bool_decide (password = "admin"))%bool
      then modify (λ w, set_session
                          (<["admin_authenticated" := VBool true]> (session w)) w);;
           mret (Redirect "admin_dashboard")
      else flash "Invalid username or password";;
           mret (RenderTemplate "admin_login.html")
  end.

(** The route [/admin/logout]: [session.pop('admin_authenticated', None)]. *)
Definition admin_logout : M WebState response :=
  modify (λ w, set_session (delete "admin_authenticated" (session w)) w);;
  mret (Redirect "admin_login").

(** The route [/start_detection]. *)
Definition start_detection (env : StartEnv) : M WebState response :=
  w ← get;
  if negb (logged_in (session w)) then mret (Redirect "user_login")
  else
    try_except
      (let user_email := text_argument (session w !! "user_email") in
       on_supervisor (start_detection_background env user_email user_email);;
       flash "Detection started in background.")
      (λ e, flash ("Error starting detection: " ++ str_exn e));;
    mret (RenderTemplate "user_camera.html").

(** The route [/start_detection/stop]. *)
Definition stop_detection (env : ProcEnv) : M WebState response :=
  w ← get;
  if negb (logged_in (session w)) then mret (Redirect "user_login")
  else
    try_except
      (on_supervisor (on_camera (stop_detection_background env));;
       flash "Detection stopped.")
      (λ e, flash ("Error stopping detection: " ++ str_exn e));;
    mret (Redirect "user_dashboard").

(** A row a registration can have written: a positive id and an e-mail that
    is not empty. *)
Definition registered_row (r : UserRow) : Prop :=
  (0 < user_row_id r)%Z ∧ user_email r ≠ "".

(** The session is that of no user, or names one row of the table by id
    and e-mail. *)
Definition session_names_user (w : WebState) : Prop :=
  (session w !! "user_id" = None ∧ session w !! "user_email" = None) ∨
  ∃ r, r ∈ user_rows (users w) ∧
       session w !! "user_id" = Some (VInt (user_row_id r)) ∧
       session w !! "user_email" = Some (VText (user_email r)).

(** The invariant of the web application. *)
Definition web_ok (w : WebState) : Prop :=
  users_table_ok (users w) ∧
  Forall registered_row (user_rows (users w)) ∧
  session_names_user w.

(** What may happen to the table between two transactions: rows are added,
    none is changed or removed, and the rows stay those of registrations
    with pairwise different e-mails and ids. *)
Definition keeps_registrations (between : UsersTable → UsersTable) : Prop :=
  ∀ t, users_table_ok t → Forall registered_row (user_rows t) →
       users_table_ok (between t) ∧
       Forall registered_row (user_rows (between t)) ∧
       ∀ r, r ∈ user_rows t → r ∈ user_rows (between t).

Definition web_initial : WebState :=
  {| supervisor := supervisor_idle; users := users_empty; session := ∅;
     flashes := [] |}.

Definition registration_form : Form :=
  {| form_username := None;
     form_name := Some " Asha "; form_email := Some " Asha@Farm.example ";
     form_password := Some "secret"; form_location := Some "" |}.

(** The application after the first registration, served alone. *)
Definition web_registered : WebState :=
  (user_register toy_hash "salt" "2025-11-26 10:30:00" id POST
     registration_form web_initial).2.

(** Another request registers the same e-mail between the look-up and the
    insert. *)
Definition rival_registration (t : UsersTable) : UsersTable :=
  (create_user toy_hash "salt" "2025-11-26 10:29:59" "Ben"
     "asha@farm.example" "other" None t).2.

(* ===================================================================== *)
(** * The file names the uploads accept ([app.py])                        *)
(* ===================================================================== *)

Definition ALLOWED_EXTENSIONS : gset string :=
  {[ "png"; "jpg"; "jpeg"; "gif"; "bmp" ]}.

Definition ALLOWED_DATASET_EXT : gset string :=
  {[ "zip"; "png"; "jpg"; "jpeg"; "bmp"; "gif" ]}.

(** ['.' in filename]. *)
Fixpoint contains_dot (s : string) : bool :=
  match s with
  | EmptyString => false
  | String c r => (Ascii.eqb c "." || contains_dot r)%bool
  end.

(** [filename.rsplit('.', 1)[1]]: what follows the last dot; [None] stands
    for the [IndexError] of a name without dot. *)
Fixpoint rsplit_dot (s : string) : option string :=
  match s with
  | EmptyString => None
  | String c r =>
      match rsplit_dot r with
      | Some e => Some e
      | None => if Ascii.eqb c "." then Some r else None
      end
  end.

Definition allowed_in (allowed : gset string) (filename : string) : bool :=
  contains_dot filename &&
  match rsplit_dot filename with
  | Some e => bool_decide (lower e ∈ allowed)
  | None => false
  end.

Definition is_allowed_dataset_file (filename : string) : bool :=
  allowed_in ALLOWED_DATASET_EXT filename.

Definition allowed_file (filename : string) : bool :=
  allowed_in ALLOWED_EXTENSIONS filename.

(* ===================================================================== *)
(** * Properties of the cooldown gate                                     *)
(* ===================================================================== *)

Section CooldownGate.

Variable cfg : Config.

Lemma should_send_alert_unseen (st : gmap string Q) (l : string) (now : Q) :
  st !! l = None →
  should_send_alert cfg now l st = (true, <[l := now]> st).
Proof. intros Hl. unfold should_send_alert. by rewrite Hl. Qed.

Lemma should_send_alert_elapsed (st : gmap string Q) (l : string) (last now : Q) :
  st !! l = Some last →
  (get_alert_cooldown cfg <= now - last)%Q →
  should_send_alert cfg now l st = (true, <[l := now]> st).
Proof.
  intros Hl Hle. unfold should_send_alert. rewrite Hl.
  apply Qle_bool_iff in Hle. by rewrite Hle.
Qed.

Lemma should_send_alert_suppressed (st : gmap string Q) (l : string) (last now : Q) :
  st !! l = Some last →
  (now - last < get_alert_cooldown cfg)%Q →
  should_send_alert cfg now l st = (false, st).
Proof.
  intros Hl Hlt. unfold should_send_alert. rewrite Hl.
  destruct (Qle_bool _ _) eqn:Hb; [|done].
  apply Qle_bool_iff in Hb. by apply Qlt_not_le in Hlt.
Qed.

(** A [True] of the gate leaves [now] as the label's entry. *)
Lemma should_send_alert_true_records (st : gmap string Q) (l : string) (now : Q) :
  (should_send_alert cfg now l st).1 = true →
  (should_send_alert cfg now l st).2 !! l = Some now.
Proof.
  unfold should_send_alert.
  destruct (st !! l) as [last|]; [destruct (Qle_bool _ _)|]; simpl;
    intros; try done; apply lookup_insert_eq.
Qed.

(** The gate writes no entry but the one of the label it is asked about. *)
Lemma should_send_alert_frame (st : gmap string Q) (a b : string) (now : Q) :
  a ≠ b → (should_send_alert cfg now a st).2 !! b = st !! b.
Proof.
  intros Hne. unfold should_send_alert.
  destruct (st !! a) as [last|]; [destruct (Qle_bool _ _)|]; simpl;
    try done; by apply lookup_insert_ne.
Qed.

(** The gate reads no entry but the one of the label it is asked about. *)
Lemma should_send_alert_local (st1 st2 : gmap string Q) (b : string) (now : Q) :
  st1 !! b = st2 !! b →
  (should_send_alert cfg now b st1).1 = (should_send_alert cfg now b st2).1 ∧
  (should_send_alert cfg now b st1).2 !! b = (should_send_alert cfg now b st2).2 !! b.
Proof.
  intros Heq. unfold should_send_alert. rewrite <- Heq.
  destruct (st1 !! b) as [last|] eqn:Hb; [destruct (Qle_bool _ _)|]; simpl;
    rewrite ?lookup_insert_eq; split; congruence.
Qed.

Lemma gate_calls_cons (l : string) (t : Q) (rest : list (string * Q))
    (st : gmap string Q) :
  gate_calls cfg ((l, t) :: rest) st =
    ((l, t, (should_send_alert cfg t l st).1)
       :: (gate_calls cfg rest (should_send_alert cfg t l st).2).1,
     (gate_calls cfg rest (should_send_alert cfg t l st).2).2).
Proof.
  simpl. destruct (should_send_alert cfg t l st) as [b st1]. simpl.
  by destruct (gate_calls cfg rest st1).
Qed.

(** The answers come in call order, one per call. *)
Lemma gate_calls_labels (calls : list (string * Q)) (st : gmap string Q) :
  fst <$> (gate_calls cfg calls st).1 = calls.
Proof.
  revert st. induction calls as [|[l t] rest IH]; intros st; [done|].
  rewrite gate_calls_cons. simpl. by rewrite IH.
Qed.

(** The calls for other labels can be dropped: the answers for [b] and
    the entry of [b] stay what they are. *)
Lemma gate_calls_only (b : string) (calls : list (string * Q))
    (st1 st2 : gmap string Q) :
  st1 !! b = st2 !! b →
  filter (λ r, r.1.1 = b) (gate_calls cfg calls st1).1
    = (gate_calls cfg (filter (λ c, c.1 = b) calls) st2).1 ∧
  (gate_calls cfg calls st1).2 !! b
    = (gate_calls cfg (filter (λ c, c.1 = b) calls) st2).2 !! b.
Proof.
  revert st1 st2. induction calls as [|[l t] rest IH]; intros st1 st2 Heq;
    [done|].
  rewrite gate_calls_cons. cbn [fst snd].
  destruct (decide (l = b)) as [->|Hne].
  - rewrite !filter_cons_True by done.
    rewrite gate_calls_cons. cbn [fst snd].
    destruct (should_send_alert_local st1 st2 b t Heq) as [Hans Hst].
    destruct (IH _ _ Hst) as [IH1 IH2]. by rewrite Hans, IH1.
  - rewrite !filter_cons_False by (cbn; congruence).
    apply IH. by rewrite should_send_alert_frame.
Qed.

(** After an alert for [l] at [last], every later alert for [l] comes at
    least a cooldown after [last], when no call is made before [last]. *)
Lemma gate_calls_spacing (l : string) (calls : list (string * Q)) :
  StronglySorted (λ c c', c.2 <= c'.2)%Q calls →
  ∀ (st : gmap string Q) (last t : Q),
    st !! l = Some last →
    (∀ c, c ∈ calls → (last <= c.2)%Q) →
    (l, t, true) ∈ (gate_calls cfg calls st).1 →
    (get_alert_cooldown cfg <= t - last)%Q.
Proof.
  induction 1 as [|[l' t'] rest Hrest IH Hall]; intros st last t Hl Hge Hin.
  - by apply elem_of_nil in Hin.
  - rewrite gate_calls_cons in Hin. simpl in Hin.
    assert (Hlast : (last <= t')%Q) by (apply (Hge (l', t')); left).
    assert (Hge' : ∀ c, c ∈ rest → (last <= c.2)%Q)
      by (intros c Hc; apply Hge; by right).
    rewrite Forall_forall in Hall.
    apply elem_of_cons in Hin as [Hhd|Htl].
    + injection Hhd as <- <- Hb. symmetry in Hb.
      unfold should_send_alert in Hb. rewrite Hl in Hb.
      destruct (Qle_bool _ _) eqn:Hq; [|done].
      by apply Qle_bool_iff in Hq.
    + destruct (decide (l' = l)) as [->|Hne].
      * unfold should_send_alert in Htl. rewrite Hl in Htl.
        destruct (Qle_bool _ _) eqn:Hq; simpl in Htl.
        -- assert (get_alert_cooldown cfg <= t - t')%Q; [|lra].
           apply (IH (<[l := t']> st)); [apply lookup_insert_eq| |done].
           intros c Hc. exact (Hall c Hc).
        -- by apply (IH st).
      * apply (IH (should_send_alert cfg t' l' st).2); [|done|done].
        by rewrite should_send_alert_frame.
Qed.

Lemma gate_calls_two_alerts (l : string) (ti tj : Q)
    (r1 r2 r3 : list (string * Q * bool)) :
  ∀ (calls : list (string * Q)) (st : gmap string Q),
    StronglySorted (λ c c', c.2 <= c'.2)%Q calls →
    (gate_calls cfg calls st).1
      = (r1 ++ (l, ti, true) :: r2 ++ (l, tj, true) :: r3)%list →
    (get_alert_cooldown cfg <= tj - ti)%Q.
Proof.
  induction r1 as [|a r1 IH]; intros calls st Hsorted Hans.
  - destruct calls as [|[l' t'] rest]; [done|].
    rewrite gate_calls_cons in Hans. simpl in Hans.
    injection Hans as -> -> Hb Hrest.
    apply StronglySorted_inv in Hsorted as [Hsorted Hall].
    rewrite Forall_forall in Hall.
    apply (gate_calls_spacing l rest Hsorted (should_send_alert cfg ti l st).2).
    + by apply should_send_alert_true_records.
    + intros c Hc. exact (Hall c Hc).
    + rewrite Hrest. apply elem_of_app. right. left.
  - destruct calls as [|[l' t'] rest]; [done|].
    rewrite gate_calls_cons in Hans. simpl in Hans.
    injection Hans as _ Hrest.
    apply StronglySorted_inv in Hsorted as [Hsorted _].
    by apply (IH rest (should_send_alert cfg t' l' st).2).
Qed.

(** In a run that starts without an entry for [l], the first call for [l]
    is answered [true]. *)
Lemma gate_calls_first (l : string) (t : Q) (before after : list (string * Q)) :
  ∀ st : gmap string Q,
    st !! l = None →
    (∀ c, c ∈ before → c.1 ≠ l) →
    (gate_calls cfg (before ++ (l, t) :: after) st).1 !! length before
      = Some (l, t, true).
Proof.
  induction before as [|[l' t'] before IH]; intros st Hl Hother.
  - simpl app. rewrite gate_calls_cons. simpl.
    by rewrite should_send_alert_unseen.
  - simpl app. rewrite gate_calls_cons. simpl. apply IH.
    + rewrite should_send_alert_frame; [done|].
      apply (Hother (l', t')). left.
    + intros c Hc. apply Hother. by right.
Qed.

End CooldownGate.

(** C4.  For a label that has no entry in the cooldown state, the gate
    answers [true] whatever the clock reads, and the call itself records the
    clock reading as the label's last alert time (no other entry changes:
    the new state is the old one with that single insertion). *)
Theorem cooldown_first_pass (cfg : Config) (st : gmap string Q)
    (l : string) (now : Q) :
  st !! l = None →
  (should_send_alert cfg now l st).1 = true ∧
  (should_send_alert cfg now l st).2 = <[l := now]> st ∧
  (should_send_alert cfg now l st).2 !! l = Some now.
Proof.
  intros Hl. rewrite should_send_alert_unseen by done. simpl.
  by rewrite lookup_insert_eq.
Qed.

Lemma cooldown_first_pass_witness :
  ({["cat" := 10%Q]} : gmap string Q) !! "dog" = None ∧
  (should_send_alert config_py 7 "dog" {["cat" := 10%Q]}).1 = true ∧
  (should_send_alert config_py 7 "dog" {["cat" := 10%Q]}).2
    = <["dog" := 7%Q]> {["cat" := 10%Q]} ∧
  (should_send_alert config_py 7 "dog" {["cat" := 10%Q]}).2 !! "dog" = Some 7%Q.
Proof.
  split; [reflexivity|].
  apply (cooldown_first_pass config_py {["cat" := 10%Q]} "dog" 7%Q). reflexivity.
Defined.

(** C5.  For a label that has an entry [last]: when
    [now - last >= cooldown] (the bound included) the gate answers [true]
    and sets the entry to [now]; otherwise it answers [false] and the
    cooldown state is the same map as before.  With a cooldown of 60
    seconds, calls for "dog" at [t0], [t0 + 30] and [t0 + 61], the first of
    which is answered [true], are answered [true], [false], [true]. *)
Theorem cooldown_seen_label :
  (∀ (cfg : Config) (st : gmap string Q) (l : string) (last now : Q),
     st !! l = Some last →
     ((get_alert_cooldown cfg <= now - last)%Q →
      should_send_alert cfg now l st = (true, <[l := now]> st)) ∧
     ((now - last < get_alert_cooldown cfg)%Q →
      should_send_alert cfg now l st = (false, st))) ∧
  (∀ (cfg : Config) (st : gmap string Q) (t0 : Q),
     (get_alert_cooldown cfg == 60)%Q →
     (should_send_alert cfg t0 "dog" st).1 = true →
     (gate_calls cfg [("dog", t0); ("dog", t0 + 30); ("dog", t0 + 61)]%Q st).1
       = [("dog", t0, true); ("dog", t0 + 30, false); ("dog", t0 + 61, true)]%Q).
Proof.
  split.
  - intros cfg st l last now Hl. split; intros H.
    + by apply should_send_alert_elapsed with last.
    + by apply should_send_alert_suppressed with last.
  - intros cfg st t0 Hcd Hfirst.
    pose proof (should_send_alert_true_records cfg st "dog" t0 Hfirst) as Hrec.
    rewrite !gate_calls_cons. cbn [fst snd gate_calls]. rewrite Hfirst.
    set (st1 := (should_send_alert cfg t0 "dog" st).2) in *.
    rewrite (should_send_alert_suppressed cfg st1 "dog" t0 (t0 + 30))
      by (done || lra).
    cbn [fst snd].
    rewrite (should_send_alert_elapsed cfg st1 "dog" t0 (t0 + 61))
      by (done || lra).
    done.
Qed.

Lemma cooldown_seen_label_witness :
  should_send_alert config_py 100 "dog" {["dog" := 40%Q]}
    = (true, <["dog" := 100%Q]> {["dog" := 40%Q]}) ∧
  should_send_alert config_py 99 "dog" {["dog" := 40%Q]}
    = (false, {["dog" := 40%Q]}) ∧
  (gate_calls config_py [("dog", 1000); ("dog", 1000 + 30); ("dog", 1000 + 61)]%Q ∅).1
    = [("dog", 1000, true); ("dog", 1000 + 30, false); ("dog", 1000 + 61, true)]%Q.
Proof.
  split; [|split].
  - apply (proj1 cooldown_seen_label config_py {["dog" := 40%Q]} "dog" 40%Q 100%Q);
      [reflexivity | by vm_compute].
  - apply (proj1 cooldown_seen_label config_py {["dog" := 40%Q]} "dog" 40%Q 99%Q);
      [reflexivity | by vm_compute].
  - apply (proj2 cooldown_seen_label config_py ∅ 1000%Q);
      [by vm_compute | reflexivity].
Defined.

(** C6.  For two distinct labels [a] and [b]: a call of the gate for [a]
    leaves the entry of [b] as it was; the answer for [b] and the entry the
    call leaves for [b] depend on no entry but the one of [b]; and in every
    sequence of calls, the answers given for [b] and the final entry of [b]
    are those of the sequence with the calls for all other labels taken
    out. *)
Theorem cooldown_category_independence (cfg : Config) (a b : string) :
  a ≠ b →
  (∀ (now : Q) (st : gmap string Q),
     (should_send_alert cfg now a st).2 !! b = st !! b) ∧
  (∀ (now : Q) (st1 st2 : gmap string Q),
     st1 !! b = st2 !! b →
     (should_send_alert cfg now b st1).1 = (should_send_alert cfg now b st2).1 ∧
     (should_send_alert cfg now b st1).2 !! b
       = (should_send_alert cfg now b st2).2 !! b) ∧
  (∀ (calls : list (string * Q)) (st : gmap string Q),
     filter (λ r, r.1.1 = b) (gate_calls cfg calls st).1
       = (gate_calls cfg (filter (λ c, c.1 = b) calls) st).1 ∧
     (gate_calls cfg calls st).2 !! b
       = (gate_calls cfg (filter (λ c, c.1 = b) calls) st).2 !! b).
Proof.
  intros Hne. split; [|split].
  - intros now st. by apply should_send_alert_frame.
  - intros now st1 st2 Heq. by apply should_send_alert_local.
  - intros calls st. by apply gate_calls_only.
Qed.

Lemma cooldown_category_independence_witness :
  "dog" ≠ "cat" ∧
  (should_send_alert config_py 50 "dog" {["cat" := 45%Q]}).2 !! "cat" = Some 45%Q ∧
  filter (λ r, r.1.1 = "cat")
    (gate_calls config_py
       [("dog", 0); ("cat", 10); ("dog", 20); ("cat", 30); ("dog", 65); ("cat", 70)]%Q
       ∅).1
    = (gate_calls config_py [("cat", 10); ("cat", 30); ("cat", 70)]%Q ∅).1.
Proof.
  assert (Hne : "dog" ≠ "cat") by discriminate.
  split; [exact Hne|].
  pose proof (cooldown_category_independence config_py "dog" "cat" Hne)
    as (Hframe & _ & Hcalls).
  split.
  - exact (Hframe 50%Q {["cat" := 45%Q]}).
  - exact (proj1 (Hcalls
      [("dog", 0); ("cat", 10); ("dog", 20); ("cat", 30); ("dog", 65); ("cat", 70)]%Q
      ∅)).
Defined.

(** C2.  In every sequence of calls of the gate whose clock readings never
    decrease, two calls for the same label that are both answered [true]
    lie at least the configured cooldown apart; and when the run starts
    without an entry for the label, the first call for it is answered
    [true] whatever its clock reading. *)
Theorem cooldown_spacing (cfg : Config) (l : string)
    (calls : list (string * Q)) (st : gmap string Q) :
  StronglySorted (λ c c', c.2 <= c'.2)%Q calls →
  (∀ (r1 r2 r3 : list (string * Q * bool)) (ti tj : Q),
     (gate_calls cfg calls st).1
       = (r1 ++ (l, ti, true) :: r2 ++ (l, tj, true) :: r3)%list →
     (get_alert_cooldown cfg <= tj - ti)%Q) ∧
  (∀ (before after : list (string * Q)) (t : Q),
     st !! l = None →
     calls = (before ++ (l, t) :: after)%list →
     (∀ c, c ∈ before → c.1 ≠ l) →
     (gate_calls cfg calls st).1 !! length before = Some (l, t, true)).
Proof.
  intros Hsorted. split.
  - intros r1 r2 r3 ti tj Hans.
    by apply (gate_calls_two_alerts cfg l ti tj r1 r2 r3 calls st).
  - intros before after t Hl -> Hother. by apply gate_calls_first.
Qed.

Lemma cooldown_spacing_witness :
  StronglySorted (λ c c', c.2 <= c'.2)%Q
    [("dog", 5); ("cat", 10); ("dog", 40); ("dog", 65); ("dog", 70)]%Q ∧
  (get_alert_cooldown config_py <= 65 - 5)%Q ∧
  (gate_calls config_py
     [("dog", 5); ("cat", 10); ("dog", 40); ("dog", 65); ("dog", 70)]%Q ∅).1 !! 0
    = Some ("dog", 5%Q, true).
Proof.
  assert (Hsorted : StronglySorted (λ c c', c.2 <= c'.2)%Q
    [("dog", 5); ("cat", 10); ("dog", 40); ("dog", 65); ("dog", 70)]%Q)
    by (repeat constructor; by vm_compute).
  split; [exact Hsorted|].
  pose proof (cooldown_spacing config_py "dog" _ ∅ Hsorted) as [Hgap Hfirst].
  split.
  - apply (Hgap [] [("cat", 10%Q, true); ("dog", 40%Q, false)]
                [("dog", 70%Q, false)] 5%Q 65%Q).
    reflexivity.
  - apply (Hfirst [] [("cat", 10); ("dog", 40); ("dog", 65); ("dog", 70)]%Q 5%Q);
      [reflexivity | reflexivity | intros c Hc; by apply elem_of_nil in Hc].
Defined.

(* ===================================================================== *)
(** * Properties of the e-mail channel                                    *)
(* ===================================================================== *)

Section EmailTrace.

Lemma appends_ret {A} (a : A) : appends (mret a).
Proof. intros tr. unfold mret, M_ret. simpl. by rewrite app_nil_r. Qed.

Lemma appends_throw {A} (e : exn) : appends (mthrow e : M _ A).
Proof. intros tr. unfold mthrow, M_throw. simpl. by rewrite app_nil_r. Qed.

Lemma appends_emit (ev : email_event) : appends (emit ev).
Proof. by intros tr. Qed.

Lemma appends_outcome (o : option exn) : appends (outcome o).
Proof. destruct o; [apply appends_throw | apply appends_ret]. Qed.

Lemma appends_subscript {A} (key : string) (o : option A) :
  appends (subscript key o).
Proof. destruct o; [apply appends_ret | apply appends_throw]. Qed.

Lemma appends_bind {A B} (m : M (list email_event) A)
    (f : A → M (list email_event) B) :
  appends m → (∀ a, appends (f a)) → appends (m ≫= f).
Proof.
  intros Hm Hf tr. unfold mbind, M_bind. rewrite (Hm tr).
  destruct (m []) as [[a|e] n]; simpl.
  - rewrite (Hf a (tr ++ n)%list), (Hf a n). simpl. by rewrite app_assoc.
  - done.
Qed.

Lemma appends_try_except {A} (m : M (list email_event) A)
    (h : exn → M (list email_event) A) :
  appends m → (∀ e, appends (h e)) → appends (try_except m h).
Proof.
  intros Hm Hh tr. unfold try_except. rewrite (Hm tr).
  destruct (m []) as [[a|e] n]; simpl.
  - done.
  - rewrite (Hh e (tr ++ n)%list), (Hh e n). simpl. by rewrite app_assoc.
Qed.

Lemma appends_try_finally {A} (m : M (list email_event) A)
    (f : M (list email_event) unit) :
  appends m → appends f → appends (try_finally m f).
Proof.
  intros Hm Hf tr. unfold try_finally. rewrite (Hm tr).
  destruct (m []) as [r n]; simpl.
  rewrite (Hf (tr ++ n)%list), (Hf n).
  destruct (f []) as [[[]|e] k]; simpl; by rewrite app_assoc.
Qed.

Lemma appends_attempt (ev : email_event) (o : option exn) :
  appends (attempt ev o).
Proof.
  apply appends_bind; [apply appends_emit | intros; apply appends_outcome].
Qed.

Lemma appends_ite {A} (b : bool) (m1 m2 : M (list email_event) A) :
  appends m1 → appends m2 → appends (if b then m1 else m2).
Proof. by destruct b. Qed.

Lemma appends_send_email_except (e : exn) : appends (send_email_except e).
Proof.
  destruct e; (apply appends_bind;
    [apply appends_emit | intros; apply appends_ret]).
Qed.

End EmailTrace.

Create HintDb appends.

#[local] Hint Resolve appends_ret appends_throw appends_emit appends_outcome
  appends_subscript appends_attempt appends_send_email_except : appends.

Ltac appends_step :=
  first
    [ apply appends_bind; [|intros ?]
    | apply appends_try_except; [|intros ?]
    | apply appends_try_finally
    | apply appends_ite
    | solve [auto with appends] ].

Lemma appends_send_email_alert (cfg : EmailConfig) (env : EmailEnv)
    (animal_type : string) (confidence : Q) (image_path : option string) :
  appends (send_email_alert cfg env animal_type confidence image_path).
Proof.
  unfold send_email_alert, send_email_try, with_smtp.
  repeat appends_step.
Qed.

Ltac email_run :=
  unfold send_email_alert, send_email_try, with_smtp, attempt, emit, subscript,
    send_email_except, try_except, try_finally, outcome, modify, py_or,
    mbind, M_bind, mret, M_ret, mthrow, M_throw; simpl.

(** Case analysis on the next undetermined test of the goal. *)
Ltac email_case :=
  match goal with
  | |- context [match ?x with _ => _ end] =>
      lazymatch x with
      | context [match _ with _ => _ end] => fail
      | _ => destruct x eqn:?
      end
  end; simpl in *.

(** One call on an empty trace, path by path. *)
Lemma send_email_alert_run (cfg : EmailConfig) (env : EmailEnv)
    (animal_type : string) (confidence : Q) (image_path : option string) :
  ∃ b new,
    send_email_alert cfg env animal_type confidence image_path [] = (Ok b, new) ∧
    (transport_fails env → b = false) ∧
    (config_incomplete cfg ∨ is_Some (on_quit env) → b = false) ∧
    (b = false → default false (enabled cfg) = true →
       ∃ line, last new = Some (EvPrint line)) ∧
    (count_events is_connect new ≤ 1)%nat ∧
    (count_events is_send new ≤ 1)%nat.
Proof.
  destruct cfg as [en srv port se sp rcp ovr].
  destruct env as [pe oimg ocon otls olog osnd oquit].
  unfold transport_fails, config_incomplete. email_run.
  repeat email_case.
  all: eexists _, _; split; [reflexivity|]; cbn; repeat split.
  all: try lia.
  all: try (intros; discriminate).
  all: try (intros; eexists; reflexivity).
  all: try (intros [H|[H|[H|H]]]; destruct H as [? H]; discriminate).
  all: try (intros [[H|[H|H]]|[? H]]; discriminate).
  intros _ Hen. rewrite Hen in *. discriminate.
Qed.

Lemma send_email_alert_skips (cfg : EmailConfig) (env : EmailEnv)
    (animal_type : string) (confidence : Q) (image_path : option string) :
  default false (enabled cfg) = false ∨
  truthy (sender_email cfg) = false ∨ truthy (sender_password cfg) = false →
  send_email_alert cfg env animal_type confidence image_path [] = (Ok false, []) ∨
  send_email_alert cfg env animal_type confidence image_path []
    = (Ok false, [EvPrint "Email not configured. Skipping email alert."]).
Proof.
  intros H. unfold send_email_alert.
  destruct (default false (enabled cfg)); simpl; [|by left].
  destruct (truthy (sender_email cfg)); simpl; [|by right].
  destruct (truthy (sender_password cfg)); simpl; [|by right].
  destruct H as [H|[H|H]]; discriminate.
Qed.

(** C8.  Whatever the configuration, the arguments and the answers of the
    file system and of the SMTP server, [send_email_alert] returns a
    boolean and raises nothing.  When the transport fails at any step
    (connection, TLS, login, sending), and likewise when composing the
    message or closing the connection raises, it returns [False]; a
    [False] of the enabled channel comes after a log line, the last thing
    the call does.  One call opens at most one connection and sends at
    most one message: nothing is retried.  (A detection image that cannot
    be read is logged where it happens and the message goes without it.) *)
Theorem send_email_alert_contains_failures (cfg : EmailConfig) (env : EmailEnv)
    (animal_type : string) (confidence : Q) (image_path : option string)
    (tr : list email_event) :
  ∃ (b : bool) (new : list email_event),
    send_email_alert cfg env animal_type confidence image_path tr
      = (Ok b, (tr ++ new)%list) ∧
    (transport_fails env → b = false) ∧
    (config_incomplete cfg ∨ is_Some (on_quit env) → b = false) ∧
    (b = false → default false (enabled cfg) = true →
       ∃ line, last new = Some (EvPrint line)) ∧
    (count_events is_connect new ≤ 1)%nat ∧
    (count_events is_send new ≤ 1)%nat.
Proof.
  destruct (send_email_alert_run cfg env animal_type confidence image_path)
    as (b & new & Hrun & Hrest).
  exists b, new. split; [|exact Hrest].
  rewrite (appends_send_email_alert cfg env animal_type confidence image_path tr).
  by rewrite Hrun.
Qed.

(** C10.  When the channel is disabled (the flag is false or absent), or
    the sender address or the sender password is absent or empty,
    [send_email_alert] returns [False] and does nothing else than, in the
    second case, print one warning: no message is composed, no file is
    opened, no connection is made. *)
Theorem send_email_alert_disabled (cfg : EmailConfig) (env : EmailEnv)
    (animal_type : string) (confidence : Q) (image_path : option string)
    (tr : list email_event) :
  default false (enabled cfg) = false ∨
  truthy (sender_email cfg) = false ∨ truthy (sender_password cfg) = false →
  ∃ new : list email_event,
    send_email_alert cfg env animal_type confidence image_path tr
      = (Ok false, (tr ++ new)%list) ∧
    (new = [] ∨ new = [EvPrint "Email not configured. Skipping email alert."]) ∧
    (default false (enabled cfg) = false → new = []) ∧
    Forall (λ ev, is_print ev = true) new.
Proof.
  intros H.
  rewrite (appends_send_email_alert cfg env animal_type confidence image_path tr).
  destruct (send_email_alert_skips cfg env animal_type confidence image_path H)
    as [Hrun|Hrun]; rewrite Hrun; simpl.
  - exists []. repeat split; auto.
  - eexists. repeat split; [by right| |by repeat constructor].
    intros Hoff. unfold send_email_alert in Hrun. rewrite Hoff in Hrun.
    simpl in Hrun. by injection Hrun.
Qed.

(** The channel switched off, in front of a server that would refuse the
    login. *)
Lemma send_email_alert_disabled_witness :
  (default false (enabled email_config_disabled) = false ∨
   truthy (sender_email email_config_disabled) = false ∨
   truthy (sender_password email_config_disabled) = false) ∧
  ∃ new : list email_event,
    send_email_alert email_config_disabled email_env_auth_failure
        "dog" (0.9)%Q None [EvPrint "earlier line"]
      = (Ok false, ([EvPrint "earlier line"] ++ new)%list) ∧
    (new = [] ∨ new = [EvPrint "Email not configured. Skipping email alert."]) ∧
    (default false (enabled email_config_disabled) = false → new = []) ∧
    Forall (λ ev, is_print ev = true) new.
Proof.
  split; [left; reflexivity|].
  apply (send_email_alert_disabled email_config_disabled email_env_auth_failure
           "dog" (0.9)%Q None [EvPrint "earlier line"]).
  left. reflexivity.
Defined.

(** Every outside call returns: [True], and the message was handed to
    the server once. *)
Example send_email_alert_delivers :
  (send_email_alert (EMAIL_CONFIG config_py) email_env_ok
     "dog" (0.9)%Q None []).1 = Ok true ∧
  count_events is_send
    (send_email_alert (EMAIL_CONFIG config_py) email_env_ok
       "dog" (0.9)%Q None []).2 = 1%nat.
Proof. split; reflexivity. Qed.

(** A refused login on the enabled channel: [False] after the log line;
    one connection was opened and no message was sent. *)
Example send_email_alert_auth_failure :
  send_email_alert (EMAIL_CONFIG config_py) email_env_auth_failure
      "dog" (0.9)%Q None []
    = (Ok false,
       [EvCompose; EvConnect "smtp.gmail.com" 587; EvStartTls;
        EvLogin "your_gmail@gmail.com" "yourpassword"; EvQuit;
        EvPrint "Email authentication failed. Please check your email and app password."]).
Proof. reflexivity. Qed.

(* ===================================================================== *)
(** * Properties of the detection loop                                    *)
(* ===================================================================== *)

Ltac loop_run :=
  unfold process_box, process_box_try, trigger_alert, save_to_database,
    save_detection_image, call_should_send_alert, start_thread, add_detection,
    add_alert, db_call, rescale, true_div, print, pass, subscript, get, modify,
    try_except, outcome, mbind, M_bind, mret, M_ret, mthrow, M_throw.

Ltac loop_case :=
  match goal with
  | |- context [match ?x with _ => _ end] =>
      lazymatch x with
      | context [match _ with _ => _ end] => fail
      | _ => destruct x eqn:?
      end
  end; simpl in *.

Ltac appended :=
  first [ reflexivity | symmetry; apply app_nil_r ].

Lemma save_to_database_effect (cfg : Config) (env : BoxEnv) (label : string)
    (s : LoopState) :
  let s' := (save_to_database cfg env label s).2 in
  (save_to_database cfg env label s).1 = Ok tt ∧
  last_alert_time s' = last_alert_time s ∧
  detection_count s' = detection_count s ∧
  frame_count s' = frame_count s ∧
  detected_animals s' = detected_animals s ∧
  rectangles s' = rectangles s ∧
  ∃ d a, detections s' = (detections s ++ d)%list ∧
         alerts s' = (alerts s ++ a)%list ∧
         (length a ≤ length d)%nat ∧ (length d ≤ 1)%nat ∧
         (no_db_fault env → length d = 1%nat ∧ length a = 1%nat) ∧
         (is_Some (detection_fault env) → a = []).
Proof.
  destruct s. destruct env as [t ts oim ir sf ee df af]. unfold no_db_fault.
  destruct df as [[]|], af as [[]|]; loop_run; simpl.
  all: repeat split; try done.
  all: eexists _, _; split; [appended|split; [appended|]].
  all: simpl; repeat split; try lia; try done; try (intros [? ?]; done).
  all: match goal with H : _ = None ∧ _ = None |- _ => destruct H; discriminate end.
Qed.

Lemma save_detection_image_effect (cfg : Config) (env : BoxEnv) (label : string)
    (s : LoopState) :
  ∃ path c, save_detection_image cfg env label s = (Ok path, set_console c s).
Proof.
  destruct s. loop_run. simpl. repeat loop_case; eexists _, _; reflexivity.
Qed.

Lemma trigger_alert_effect (cfg : Config) (env : BoxEnv) (label : string)
    (confidence : Q) (s : LoopState) :
  let s' := (trigger_alert cfg env label confidence s).2 in
  (trigger_alert cfg env label confidence s).1 = Ok tt ∧
  last_alert_time s' = last_alert_time s ∧
  detection_count s' = S (detection_count s) ∧
  frame_count s' = frame_count s ∧
  detected_animals s' = detected_animals s ∧
  rectangles s' = rectangles s ∧
  ∃ d a, detections s' = (detections s ++ d)%list ∧
         alerts s' = (alerts s ++ a)%list ∧
         (length a ≤ length d)%nat ∧ (length d ≤ 1)%nat ∧
         (no_db_fault env → length d = 1%nat ∧ length a = 1%nat) ∧
         (is_Some (detection_fault env) → a = []).
Proof.
  unfold trigger_alert, start_thread, print, modify, mbind, M_bind. simpl.
  match goal with |- context [save_detection_image cfg env label ?s0] =>
    destruct (save_detection_image_effect cfg env label s0) as (path & c & ->)
  end.
  destruct (send_email_alert _ _ _ _ _ _) as [r evs].
  match goal with |- context [save_to_database cfg env label ?s0] =>
    pose proof (save_to_database_effect cfg env label s0) as H
  end.
  destruct s. simpl in *. exact H.
Qed.

Lemma rescale_nonzero {S} (fs ps : Z * Z) (box : Q * Q * Q * Q) (s : S) :
  ps.1 ≠ 0%Z → ps.2 ≠ 0%Z →
  rescale fs ps box s = (Ok (scaled fs ps box), s).
Proof.
  intros H1 H2. destruct box as [[[x1 y1] x2] y2].
  unfold rescale, scaled, true_div, mbind, M_bind, mret, M_ret.
  rewrite !decide_False by done. reflexivity.
Qed.

Lemma rescale_zero {S} (fs ps : Z * Z) (box : Q * Q * Q * Q) (s : S) :
  ps.1 = 0%Z ∨ ps.2 = 0%Z →
  rescale fs ps box s = (Raise ZeroDivisionError, s).
Proof.
  intros H. destruct box as [[[x1 y1] x2] y2].
  unfold rescale, true_div, mbind, M_bind, mret, M_ret, mthrow, M_throw.
  destruct (decide (ps.2 = 0%Z)); [done|].
  destruct (decide (ps.1 = 0%Z)); [done|]. by destruct H.
Qed.

Lemma process_box_unnamed cfg names fs ps box env s :
  names !! cls box = None →
  process_box cfg names fs ps (box, env) s
    = (Ok tt, set_console (console s ++ ["Error processing detection"])%list s).
Proof.
  intros Hn. unfold process_box, process_box_try, try_except, subscript,
    mbind, M_bind, mthrow, M_throw. simpl. by rewrite Hn.
Qed.

Lemma process_box_rejected cfg names fs ps box env s name :
  names !! cls box = Some name →
  is_candidate cfg (lower name) (conf box) = false →
  process_box cfg names fs ps (box, env) s = (Ok tt, s).
Proof.
  intros Hn Hc. unfold process_box, process_box_try, try_except, subscript,
    mbind, M_bind, mret, M_ret. simpl. by rewrite Hn, Hc.
Qed.

Lemma process_box_candidate cfg names fs ps box env s name :
  names !! cls box = Some name →
  is_candidate cfg (lower name) (conf box) = true →
  ps.1 ≠ 0%Z → ps.2 ≠ 0%Z →
  process_box cfg names fs ps (box, env) s =
    if (should_send_alert cfg (time_time env) (lower name) (last_alert_time s)).1
    then (Ok tt, (trigger_alert cfg env (lower name) (conf box)
                    (after_gate cfg fs ps box env (lower name) s)).2)
    else (Ok tt, after_gate cfg fs ps box env (lower name) s).
Proof.
  intros Hn Hc H1 H2.
  unfold process_box, process_box_try, try_except, subscript,
    mbind, M_bind, mret, M_ret, modify. simpl. rewrite Hn, Hc.
  rewrite rescale_nonzero by done.
  unfold call_should_send_alert, get, modify, mbind, M_bind, mret, M_ret, pass.
  simpl. unfold after_gate.
  destruct (should_send_alert _ _ _ _) as [fire m] eqn:Hg. destruct s; simpl in *.
  destruct fire; [|done].
  match goal with |- context [trigger_alert ?a ?b ?c ?d ?s0] =>
    pose proof (trigger_alert_effect a b c d s0) as [Hok _];
    destruct (trigger_alert a b c d s0) as [r s2]
  end.
  simpl in *. by rewrite Hok.
Qed.

Lemma process_box_zero_shape cfg names fs ps box env s name :
  names !! cls box = Some name →
  is_candidate cfg (lower name) (conf box) = true →
  ps.1 = 0%Z ∨ ps.2 = 0%Z →
  process_box cfg names fs ps (box, env) s =
    (Ok tt, set_console (console s ++ ["Error processing detection"])%list
              (set_detected_animals ({[lower name]} ∪ detected_animals s) s)).
Proof.
  intros Hn Hc Hz.
  unfold process_box, process_box_try, try_except, subscript,
    mbind, M_bind, mret, M_ret, modify. simpl. rewrite Hn, Hc.
  rewrite rescale_zero by done. by destruct s.
Qed.

Lemma persisted_within_refl s : persisted_within s s.
Proof. exists [], []. rewrite !app_nil_r. simpl. repeat split; lia. Qed.

Lemma persisted_within_trans s1 s2 s3 :
  persisted_within s1 s2 → persisted_within s2 s3 → persisted_within s1 s3.
Proof.
  intros (d1 & a1 & Hd1 & Ha1 & Hl1 & Hc1) (d2 & a2 & Hd2 & Ha2 & Hl2 & Hc2).
  exists (d1 ++ d2)%list, (a1 ++ a2)%list.
  rewrite Hd2, Hd1, Ha2, Ha1, <- !app_assoc, !length_app.
  repeat split; lia.
Qed.

Lemma persisted_exactly_refl s : persisted_exactly s s.
Proof. exists [], []. rewrite !app_nil_r. simpl. repeat split; lia. Qed.

Lemma persisted_exactly_trans s1 s2 s3 :
  persisted_exactly s1 s2 → persisted_exactly s2 s3 → persisted_exactly s1 s3.
Proof.
  intros (d1 & a1 & Hd1 & Ha1 & Hl1 & Hc1) (d2 & a2 & Hd2 & Ha2 & Hl2 & Hc2).
  exists (d1 ++ d2)%list, (a1 ++ a2)%list.
  rewrite Hd2, Hd1, Ha2, Ha1, <- !app_assoc, !length_app.
  repeat split; lia.
Qed.

(** States that differ in neither table nor in the alert counter. *)
Lemma persisted_same s s' :
  detections s' = detections s → alerts s' = alerts s →
  detection_count s' = detection_count s →
  persisted_within s s' ∧ persisted_exactly s s'.
Proof.
  intros Hd Ha Hc.
  split; exists [], []; rewrite !app_nil_r; simpl; repeat split; lia || done.
Qed.

Lemma trigger_alert_persisted cfg env label confidence s0 s :
  detections s0 = detections s → alerts s0 = alerts s →
  detection_count s0 = detection_count s →
  persisted_within s (trigger_alert cfg env label confidence s0).2 ∧
  (no_db_fault env →
   persisted_exactly s (trigger_alert cfg env label confidence s0).2).
Proof.
  intros Hd Ha Hc.
  destruct (trigger_alert_effect cfg env label confidence s0)
    as (_ & _ & Hn & _ & _ & _ & d & a & Hd' & Ha' & Hla & Hld & Hex & _).
  split.
  - exists d, a. rewrite Hd', Ha', Hn, Hd, Ha, Hc. repeat split; lia.
  - intros Hnf. destruct (Hex Hnf) as [Hd1 Ha1].
    exists d, a. rewrite Hd', Ha', Hn, Hd, Ha, Hc. repeat split; lia.
Qed.

Lemma process_box_ok cfg names fs ps be s :
  (process_box cfg names fs ps be s).1 = Ok tt.
Proof.
  destruct be as [box env].
  destruct (names !! cls box) as [name|] eqn:Hn;
    [|by rewrite process_box_unnamed].
  destruct (is_candidate cfg (lower name) (conf box)) eqn:Hc;
    [|by rewrite (process_box_rejected _ _ _ _ _ _ _ name)].
  destruct (decide (ps.1 = 0%Z ∨ ps.2 = 0%Z)) as [Hz|Hnz].
  - by rewrite (process_box_zero_shape _ _ _ _ _ _ _ name).
  - rewrite (process_box_candidate _ _ _ _ _ _ _ name) by tauto.
    by destruct (should_send_alert _ _ _ _).1.
Qed.

Lemma process_box_persisted cfg names fs ps be s :
  persisted_within s (process_box cfg names fs ps be s).2 ∧
  (no_db_fault be.2 → persisted_exactly s (process_box cfg names fs ps be s).2).
Proof.
  destruct be as [box env].
  destruct (names !! cls box) as [name|] eqn:Hn.
  2: { rewrite process_box_unnamed by done.
       destruct (persisted_same s (set_console
         (console s ++ ["Error processing detection"])%list s)); by destruct s. }
  destruct (is_candidate cfg (lower name) (conf box)) eqn:Hc.
  2: { rewrite (process_box_rejected _ _ _ _ _ _ _ name) by done.
       split; intros; [apply persisted_within_refl | apply persisted_exactly_refl]. }
  destruct (decide (ps.1 = 0%Z ∨ ps.2 = 0%Z)) as [Hz|Hnz].
  - rewrite (process_box_zero_shape _ _ _ _ _ _ _ name) by done.
    match goal with |- context [persisted_within s ?s0] =>
      destruct (persisted_same s s0)
    end; by destruct s.
  - rewrite (process_box_candidate _ _ _ _ _ _ _ name) by tauto.
    destruct (should_send_alert _ _ _ _).1; cbn [fst snd].
    + apply trigger_alert_persisted; by destruct s.
    + destruct (persisted_same s (after_gate cfg fs ps box env (lower name) s));
        by destruct s.
Qed.

Lemma for_each_cons {S A} (f : A → M S unit) (a : A) (l : list A) (s : S) :
  for_each f (a :: l) s =
    match f a s with
    | (Ok _, s1) => for_each f l s1
    | (Raise e, s1) => (Raise e, s1)
    end.
Proof. reflexivity. Qed.

(** A relation between the states before and after that every step
    establishes holds across the loop, stopped by an exception or not. *)
Lemma for_each_invariant {S A} (R : S → S → Prop) (f : A → M S unit)
    (l : list A) :
  (∀ s, R s s) → (∀ s1 s2 s3, R s1 s2 → R s2 s3 → R s1 s3) →
  (∀ a, a ∈ l → ∀ s, R s (f a s).2) →
  ∀ s, R s (for_each f l s).2.
Proof.
  intros Hrefl Htrans. induction l as [|a l IH]; intros Hstep s.
  - apply Hrefl.
  - rewrite for_each_cons.
    pose proof (Hstep a ltac:(left) s) as Ha.
    destruct (f a s) as [[[]|e] s1]; simpl in *; [|done].
    apply Htrans with s1; [done|]. apply IH. intros b Hb. apply Hstep. by right.
Qed.

Lemma for_each_ok {S A} (f : A → M S unit) (l : list A) :
  (∀ a s, (f a s).1 = Ok tt) → ∀ s, (for_each f l s).1 = Ok tt.
Proof.
  intros Hok. induction l as [|a l IH]; intros s; [done|].
  rewrite for_each_cons. pose proof (Hok a s) as Ha.
  destruct (f a s) as [[[]|e] s1]; simpl in *; [apply IH|done].
Qed.

Lemma loop_iteration_persisted cfg names fr s :
  persisted_within s (loop_iteration cfg names fr s).2 ∧
  ((∀ be, be ∈ boxes fr → no_db_fault be.2) →
   persisted_exactly s (loop_iteration cfg names fr s).2).
Proof.
  unfold loop_iteration, resize, modify, mbind, M_bind, mret, M_ret,
    mthrow, M_throw. simpl.
  destruct (_ && _)%bool; simpl.
  2: { match goal with |- context [persisted_within s ?s0] =>
         destruct (persisted_same s s0) end; by destruct s. }
  match goal with |- context [for_each ?f ?l ?s0] =>
    assert (Hs0 : persisted_within s s0 ∧ persisted_exactly s s0)
      by (apply persisted_same; by destruct s);
    pose proof (for_each_invariant persisted_within f l
      persisted_within_refl persisted_within_trans
      (λ a _ s, proj1 (process_box_persisted cfg names _ _ a s)) s0) as Hw
  end.
  split.
  - eapply persisted_within_trans; [apply Hs0|apply Hw].
  - intros Hnf. eapply persisted_exactly_trans; [apply Hs0|].
    apply for_each_invariant;
      [apply persisted_exactly_refl | apply persisted_exactly_trans|].
    intros a Ha s1. apply process_box_persisted. by apply Hnf.
Qed.

Lemma main_loop_ok cfg names frames s :
  (main_loop cfg names frames s).1 = Ok tt.
Proof.
  unfold main_loop, try_except.
  by destruct (for_each _ _ _) as [[[]|e] s1].
Qed.

Lemma main_loop_persisted cfg names frames s :
  persisted_within s (main_loop cfg names frames s).2 ∧
  (no_db_faults frames → persisted_exactly s (main_loop cfg names frames s).2).
Proof.
  unfold main_loop, try_except.
  pose proof (for_each_invariant persisted_within (loop_iteration cfg names)
    frames persisted_within_refl persisted_within_trans
    (λ a _ s, proj1 (loop_iteration_persisted cfg names a s)) s) as Hw.
  assert (Hx : no_db_faults frames →
    persisted_exactly s (for_each (loop_iteration cfg names) frames s).2).
  { intros Hnf. apply for_each_invariant;
      [apply persisted_exactly_refl | apply persisted_exactly_trans|].
    intros fr Hfr s1. apply loop_iteration_persisted.
    intros be Hbe. by apply (Hnf fr). }
  destruct (for_each _ _ _) as [[[]|e] s1]; simpl in *; [done|].
  assert (persisted_within s1 (set_console
      (console s1 ++ ["Error during detection"])%list s1) ∧
    persisted_exactly s1 (set_console
      (console s1 ++ ["Error during detection"])%list s1)) as [Pw Px]
    by (apply persisted_same; by destruct s1).
  split.
  - eapply persisted_within_trans; [apply Hw|apply Pw].
  - intros Hnf. eapply persisted_exactly_trans; [by apply Hx|apply Px].
Qed.

Lemma save_to_database_skips_alert (cfg : Config) (env : BoxEnv)
    (label : string) (s : LoopState) :
  is_Some (detection_fault env) →
  alerts (save_to_database cfg env label s).2 = alerts s.
Proof.
  intros Hf.
  destruct (save_to_database_effect cfg env label s)
    as (_ & _ & _ & _ & _ & _ & d & a & _ & Ha & _ & _ & _ & Hskip).
  rewrite Ha, (Hskip Hf). apply app_nil_r.
Qed.

(** C1, as the code has it.  In every run, with [N] the number of
    triggered alerts, the loop only appends rows: at most [N] detection
    rows and no more alert rows than detection rows, so none is written
    twice, whatever the sound and e-mail actions of the triggers do; when no
    insert fails it appends exactly [N] rows to each table.  An insert of
    the detection row that raises makes the loop skip the alert row of
    that trigger: both inserts stand in one [try] block. *)
Theorem run_persists_per_trigger (cfg : Config) (names : gmap Z string)
    (frames : list Frame) (s : LoopState) :
  let s' := (main_loop cfg names frames s).2 in
  let N := (detection_count s' - detection_count s)%nat in
  (main_loop cfg names frames s).1 = Ok tt ∧
  (detection_count s ≤ detection_count s')%nat ∧
  (∃ d a, detections s' = (detections s ++ d)%list ∧
          alerts s' = (alerts s ++ a)%list ∧
          (length a ≤ length d)%nat ∧ (length d ≤ N)%nat ∧
          (no_db_faults frames → length d = N ∧ length a = N)) ∧
  (∀ env label s0,
     is_Some (detection_fault env) →
     alerts (save_to_database cfg env label s0).2 = alerts s0).
Proof.
  intros s' N. subst s' N.
  destruct (main_loop_persisted cfg names frames s)
    as [(d & a & Hd & Ha & Hla & Hc) Hexact].
  split; [apply main_loop_ok|]. split; [lia|]. split.
  - exists d, a. split; [done|]. split; [done|]. split; [lia|]. split; [lia|].
    intros Hnf. destruct (Hexact Hnf) as (d' & a' & Hd' & Ha' & Hl' & Hc').
    rewrite Hd' in Hd. apply app_inv_head in Hd. subst d'.
    rewrite Ha' in Ha. apply app_inv_head in Ha. subst a'. lia.
  - intros env label s0. apply save_to_database_skips_alert.
Qed.

(** Three dogs at 1000 s, 1030 s and 1061 s: two alerts; both side
    channels fail each time; two rows in each table. *)
Lemma run_persists_per_trigger_witness :
  no_db_faults [dog_frame 1000 None None; dog_frame 1030 None None;
                dog_frame 1061 None None] ∧
  detection_count (main_loop config_py coco_names
    [dog_frame 1000 None None; dog_frame 1030 None None;
     dog_frame 1061 None None] initial_state).2 = 2%nat ∧
  length (detections (main_loop config_py coco_names
    [dog_frame 1000 None None; dog_frame 1030 None None;
     dog_frame 1061 None None] initial_state).2) = 2%nat ∧
  length (alerts (main_loop config_py coco_names
    [dog_frame 1000 None None; dog_frame 1030 None None;
     dog_frame 1061 None None] initial_state).2) = 2%nat.
Proof.
  assert (Hnf : no_db_faults [dog_frame 1000 None None;
    dog_frame 1030 None None; dog_frame 1061 None None]).
  { intros fr be Hfr Hbe.
    repeat (apply elem_of_cons in Hfr as [->|Hfr]);
      try (by apply elem_of_nil in Hfr);
      apply list_elem_of_singleton in Hbe as ->; by split. }
  split; [exact Hnf|]. split; [reflexivity|].
  destruct (run_persists_per_trigger config_py coco_names
    [dog_frame 1000 None None; dog_frame 1030 None None;
     dog_frame 1061 None None] initial_state)
    as (_ & _ & (d & a & Hd & Ha & _ & _ & Hexact) & _).
  destruct (Hexact Hnf) as [Hld Hla].
  rewrite Hd, Ha. simpl. by rewrite Hld, Hla.
Defined.

(** One triggered alert, and SQLite raises in the insert of the detection
    row: at [conn.commit()], neither row is written; at [conn.close()], the
    detection row is written and the alert row is skipped. *)
Lemma run_skips_alert_record :
  (let s' := (main_loop config_py coco_names
                [dog_frame 1000 (Some DbCommit) None] initial_state).2 in
   detection_count s' = 1%nat ∧ length (detections s') = 0%nat ∧
   length (alerts s') = 0%nat) ∧
  (let s' := (main_loop config_py coco_names
                [dog_frame 1000 (Some DbClose) None] initial_state).2 in
   detection_count s' = 1%nat ∧ length (detections s') = 1%nat ∧
   length (alerts s') = 0%nat).
Proof. by vm_compute. Qed.

Lemma Qlt_bool_iff (x y : Q) : Qlt_bool x y = true ↔ (x < y)%Q.
Proof.
  unfold Qlt_bool. rewrite negb_true_iff. split.
  - intros Hb. apply Qnot_le_lt. intros Hle.
    apply Qle_bool_iff in Hle. congruence.
  - intros Hlt. destruct (Qle_bool y x) eqn:Hb; [|done].
    apply Qle_bool_iff in Hb. by apply Qlt_not_le in Hlt.
Qed.

Lemma is_candidate_iff (cfg : Config) (label : string) (confidence : Q) :
  is_candidate cfg label confidence = true ↔
  label ∈ TARGET_ANIMALS cfg ∧ (get_confidence_threshold cfg < confidence)%Q.
Proof.
  unfold is_candidate.
  by rewrite andb_true_iff, bool_decide_eq_true, Qlt_bool_iff.
Qed.

Lemma after_gate_fields cfg fs ps box env label s :
  detected_animals (after_gate cfg fs ps box env label s)
    = {[label]} ∪ detected_animals s ∧
  rectangles (after_gate cfg fs ps box env label s)
    = (rectangles s ++ [scaled fs ps (xyxy box)])%list ∧
  last_alert_time (after_gate cfg fs ps box env label s)
    = (should_send_alert cfg (time_time env) label (last_alert_time s)).2 ∧
  detection_count (after_gate cfg fs ps box env label s) = detection_count s.
Proof. by destruct s. Qed.

(** What the loop has done with a candidate when the resized frame is not
    empty. *)
Lemma process_box_candidate_fields cfg names fs ps box env s name :
  names !! cls box = Some name →
  is_candidate cfg (lower name) (conf box) = true →
  ps.1 ≠ 0%Z → ps.2 ≠ 0%Z →
  let s' := (process_box cfg names fs ps (box, env) s).2 in
  let gate := should_send_alert cfg (time_time env) (lower name) (last_alert_time s) in
  detected_animals s' = {[lower name]} ∪ detected_animals s ∧
  rectangles s' = (rectangles s ++ [scaled fs ps (xyxy box)])%list ∧
  last_alert_time s' = gate.2 ∧
  detection_count s' = (detection_count s + if gate.1 then 1 else 0)%nat.
Proof.
  intros Hn Hc H1 H2. simpl.
  rewrite (process_box_candidate _ _ _ _ _ _ _ name) by done.
  destruct (after_gate_fields cfg fs ps box env (lower name) s)
    as (Hd & Hr & Hl & Hk).
  destruct (should_send_alert _ _ _ _).1; cbn [fst snd].
  - destruct (trigger_alert_effect cfg env (lower name) (conf box)
      (after_gate cfg fs ps box env (lower name) s))
      as (_ & Hl' & Hk' & _ & Hd' & Hr' & _).
    rewrite Hd', Hr', Hl', Hk', Hd, Hr, Hl, Hk. repeat split; lia.
  - rewrite Hd, Hr, Hl, Hk. repeat split; lia.
Qed.

(** C3.  A box whose class has the name [name], with [label] the name in
    lower case, is a candidate exactly when [label] is in [TARGET_ANIMALS]
    and its confidence is strictly greater than the configured threshold.
    A candidate is added to [detected_animals] and, the resized frame not
    being empty, put to the cooldown gate, whose answer decides whether an
    alert is counted.  A box that is not a candidate, in particular one
    whose confidence equals the threshold, leaves the whole state of the
    loop as it was: it is neither added nor put to the gate. *)
Theorem candidate_filter (cfg : Config) (names : gmap Z string)
    (fs ps : Z * Z) (box : Box) (env : BoxEnv) (s : LoopState) (name : string) :
  names !! cls box = Some name →
  let label := lower name in
  let s' := (process_box cfg names fs ps (box, env) s).2 in
  let gate := should_send_alert cfg (time_time env) label (last_alert_time s) in
  let candidate :=
    label ∈ TARGET_ANIMALS cfg ∧
    (get_confidence_threshold cfg < conf box)%Q in
  (is_candidate cfg label (conf box) = true ↔ candidate) ∧
  (candidate →
     label ∈ detected_animals s' ∧
     (ps.1 ≠ 0%Z → ps.2 ≠ 0%Z →
      last_alert_time s' = gate.2 ∧
      detection_count s' = (detection_count s + if gate.1 then 1 else 0)%nat)) ∧
  (¬ candidate → s' = s) ∧
  ((conf box == get_confidence_threshold cfg)%Q → s' = s).
Proof.
  intros Hn label s' gate candidate.
  assert (Hrej : ¬ candidate → s' = s).
  { intros Hnot. subst s'.
    rewrite (process_box_rejected _ _ _ _ _ _ _ name); [done|done|].
    destruct (is_candidate cfg (lower name) (conf box)) eqn:Hc; [|done].
    by apply is_candidate_iff in Hc. }
  split; [apply is_candidate_iff|]. split; [|split; [exact Hrej|]].
  - intros Hcand. apply is_candidate_iff in Hcand. split.
    + destruct (decide (ps.1 = 0%Z ∨ ps.2 = 0%Z)) as [Hz|Hnz].
      * subst s'. rewrite (process_box_zero_shape _ _ _ _ _ _ _ name) by done.
        destruct s; simpl. apply elem_of_union. left. by apply elem_of_singleton.
      * destruct (process_box_candidate_fields cfg names fs ps box env s name)
          as (Hd & _); [done|done|tauto|tauto|].
        subst s'. rewrite Hd. apply elem_of_union. left. by apply elem_of_singleton.
    + intros H1 H2.
      destruct (process_box_candidate_fields cfg names fs ps box env s name)
        as (_ & _ & Hl & Hk); done.
  - intros Heq. apply Hrej. intros [_ Hlt]. rewrite Heq in Hlt.
    by apply Qlt_irrefl in Hlt.
Qed.

(** With the threshold 0.5 of [config.py]: a dog at confidence 0.51 is a
    candidate and triggers the first alert; at 0.5 nothing happens. *)
Lemma candidate_filter_witness :
  coco_names !! 16%Z = Some "dog" ∧
  is_candidate config_py "dog" (0.51)%Q = true ∧
  "dog" ∈ detected_animals
    (process_box config_py coco_names (720, 1280)%Z (480, 640)%Z
       (dog_box (0.51)%Q (100, 100, 200, 200)%Q, box_env 1000 None None)
       initial_state).2 ∧
  (process_box config_py coco_names (720, 1280)%Z (480, 640)%Z
     (dog_box (0.5)%Q (100, 100, 200, 200)%Q, box_env 1000 None None)
     initial_state).2 = initial_state.
Proof.
  assert (Hn : coco_names !! 16%Z = Some "dog") by reflexivity.
  split; [exact Hn|].
  assert (Hc : is_candidate config_py "dog" (0.51)%Q = true) by reflexivity.
  split; [exact Hc|].
  split.
  - destruct (candidate_filter config_py coco_names (720, 1280)%Z (480, 640)%Z
      (dog_box (0.51)%Q (100, 100, 200, 200)%Q) (box_env 1000 None None)
      initial_state "dog" Hn) as (Hiff & Hcand & _ & _).
    apply Hcand. apply Hiff. exact Hc.
  - destruct (candidate_filter config_py coco_names (720, 1280)%Z (480, 640)%Z
      (dog_box (0.5)%Q (100, 100, 200, 200)%Q) (box_env 1000 None None)
      initial_state "dog" Hn) as (_ & _ & _ & Hbound).
    apply Hbound. reflexivity.
Defined.

(** [int(.)] is a function of the value of the float. *)
Lemma Qtrunc_comp (q q' : Q) : (q == q')%Q → Qtrunc q = Qtrunc q'.
Proof.
  destruct q as [n d], q' as [n' d']. unfold Qeq, Qtrunc. simpl. intros H.
  rewrite <- (Z.quot_mul_cancel_r n (Z.pos d) (Z.pos d')) by done.
  rewrite <- (Z.quot_mul_cancel_r n' (Z.pos d') (Z.pos d)) by done.
  by rewrite H, (Z.mul_comm (Z.pos d)).
Qed.

Lemma Qtrunc_inject_Z (z : Z) : Qtrunc (inject_Z z) = z.
Proof. unfold Qtrunc. simpl. apply Z.quot_1_r. Qed.

(* ===================================================================== *)
(** * Properties of the rounding                                          *)
(* ===================================================================== *)

Section Rounding.

Local Open Scope Q_scope.

Lemma pow2_pos (k : Z) : 0 < 2 ^ k.
Proof. by apply Qpower_0_lt. Qed.

Lemma pow2_plus (a b : Z) : 2 ^ (a + b) == 2 ^ a * 2 ^ b.
Proof. apply Qpower_plus. discriminate. Qed.

Lemma pow2_succ (a : Z) : 2 ^ (a + 1) == 2 * 2 ^ a.
Proof. rewrite pow2_plus. change (2 ^ 1) with 2. ring. Qed.

Lemma inject_pow2 (k : Z) : (0 <= k)%Z → inject_Z (2 ^ k) == 2 ^ k.
Proof. intros Hk. by rewrite Zpower_Qpower. Qed.

(** [2 ^ max 0 u] over [2 ^ max 0 (-u)] is [2 ^ u]. *)
Lemma pow2_split (u : Z) : 2 ^ Z.max 0 u == 2 ^ u * 2 ^ Z.max 0 (- u).
Proof.
  rewrite <- pow2_plus. replace (u + Z.max 0 (- u))%Z with (Z.max 0 u) by lia.
  reflexivity.
Qed.

Lemma inject_scaled (n k : Z) :
  (0 <= k)%Z → inject_Z (n * 2 ^ k) == inject_Z n * 2 ^ k.
Proof. intros Hk. by rewrite inject_Z_mult, inject_pow2. Qed.

(** [floor_log2 n d] is the exponent of the binade of [n / d]. *)
Lemma floor_log2_spec (n d : Z) :
  (0 < n)%Z → (0 < d)%Z →
  2 ^ floor_log2 n d * inject_Z d <= inject_Z n ∧
  inject_Z n < 2 ^ (floor_log2 n d + 1) * inject_Z d.
Proof.
  intros Hn Hd. unfold floor_log2.
  set (a := Z.log2 n). set (b := Z.log2 d).
  assert (0 <= a)%Z as Ha by apply Z.log2_nonneg.
  assert (0 <= b)%Z as Hb by apply Z.log2_nonneg.
  destruct (Z.log2_spec n Hn) as [Hn1 Hn2]. fold a in Hn1, Hn2.
  destruct (Z.log2_spec d Hd) as [Hd1 Hd2]. fold b in Hd1, Hd2.
  rewrite <- Z.add_1_r in Hn2, Hd2.
  rewrite Zle_Qle, inject_pow2 in Hn1, Hd1 by done.
  rewrite Zlt_Qlt, inject_pow2, pow2_succ in Hn2, Hd2 by lia.
  pose proof (pow2_pos a) as HA. pose proof (pow2_pos b) as HB.
  pose proof (pow2_pos (a - b)) as HE.
  assert (2 ^ (a - b) * 2 ^ b == 2 ^ a) as HEB.
  { rewrite <- pow2_plus. by replace (a - b + b)%Z with a by lia. }
  pose proof (pow2_pos (Z.max 0 (- (a - b)))) as HP.
  pose proof (pow2_split (a - b)) as HR.
  destruct (Z.ltb_spec (n * 2 ^ Z.max 0 (- (a - b))) (d * 2 ^ Z.max 0 (a - b)))
    as [Ht|Ht].
  - rewrite Zlt_Qlt, !inject_scaled in Ht by lia. rewrite HR in Ht.
    replace (a - b - 1 + 1)%Z with (a - b)%Z by lia.
    assert (2 * 2 ^ (a - b - 1) == 2 ^ (a - b)) as Hhalf.
    { rewrite <- pow2_succ. by replace (a - b - 1 + 1)%Z with (a - b)%Z by lia. }
    set (E := 2 ^ (a - b)) in *. set (E' := 2 ^ (a - b - 1)) in *.
    set (A := 2 ^ a) in *. set (B := 2 ^ b) in *.
    set (P := 2 ^ Z.max 0 (- (a - b))) in *.
    set (N := inject_Z n) in *. set (D := inject_Z d) in *.
    split; nra.
  - rewrite Zle_Qle, !inject_scaled in Ht by lia. rewrite HR in Ht.
    rewrite pow2_succ.
    set (E := 2 ^ (a - b)) in *.
    set (A := 2 ^ a) in *. set (B := 2 ^ b) in *.
    set (P := 2 ^ Z.max 0 (- (a - b))) in *.
    set (N := inject_Z n) in *. set (D := inject_Z d) in *.
    split; nra.
Qed.

Lemma round_half_even_spec (n d : Z) :
  (0 < d)%Z → (Z.abs (2 * (round_half_even n d * d - n)) <= d)%Z.
Proof.
  intros Hd. unfold round_half_even.
  pose proof (Z.div_mod n d ltac:(lia)) as Hdm.
  pose proof (Z.mod_pos_bound n d Hd) as Hm.
  destruct (Z.compare_spec (2 * (n mod d)) d) as [H|H|H];
    [destruct (Z.even (n / d))|..]; nia.
Qed.

Lemma Qmake_scale (n : Z) (d : positive) : (n # d) * inject_Z (Zpos d) == inject_Z n.
Proof. rewrite Qmake_Qdiv. field. discriminate. Qed.

(** Dividing an inequality by a positive factor. *)
Lemma Qle_cancel_r (x y z : Q) : 0 < z → x * z <= y * z → x <= y.
Proof. intros Hz H. by apply (Qmult_le_r _ _ z). Qed.

(** The rounded number is within half a unit in the last place. *)
Lemma round_prec_near (p n : Z) (d : positive) :
  n ≠ 0%Z →
  let e := floor_log2 (Z.abs n) (Zpos d) in
  let u := (e - p + 1)%Z in
  ∃ m : Z,
    round_prec p (n # d) = inject_Z m * 2 ^ u ∧
    - (2 ^ u) <= 2 * (inject_Z m * 2 ^ u - (n # d)) <= 2 ^ u.
Proof.
  intros Hn e u. unfold round_prec. cbn [Qnum Qden].
  destruct (Z.eqb_spec n 0%Z) as [|_]; [done|]. fold e. fold u.
  set (m := round_half_even _ _). exists m. split; [done|].
  assert (0 < Zpos d * 2 ^ Z.max 0 u)%Z as HD
    by (apply Z.mul_pos_pos; [done|apply Z.pow_pos_nonneg; lia]).
  pose proof (round_half_even_spec (n * 2 ^ Z.max 0 (- u)) _ HD) as Hr.
  fold m in Hr. apply Z.abs_le in Hr. destruct Hr as [Hr1 Hr2].
  rewrite Zle_Qle in Hr1, Hr2.
  rewrite inject_Z_opp in Hr1.
  unfold Z.sub in Hr1, Hr2.
  rewrite !inject_Z_mult, inject_Z_plus, inject_Z_opp, !inject_Z_mult in Hr1, Hr2.
  change (inject_Z 2) with 2 in *.
  rewrite !inject_pow2 in Hr1, Hr2 by lia.
  pose proof (pow2_split u) as HR. pose proof (pow2_pos u) as HU.
  pose proof (pow2_pos (Z.max 0 (- u))) as HP.
  pose proof (Qmake_scale n d) as HX.
  assert (0 < inject_Z (Zpos d)) as Hd by (unfold Qlt; simpl; lia).
  rewrite HR in Hr1, Hr2.
  set (U := 2 ^ u) in *. set (P := 2 ^ Z.max 0 (- u)) in *.
  set (M := inject_Z m) in *. set (X := n # d) in *.
  set (D := inject_Z (Zpos d)) in *. set (N := inject_Z n) in *.
  split; apply (Qle_cancel_r _ _ (D * P)); try nra.
Qed.

(** The relative error of a rounding to [p] bits is at most [2 ^ -p]. *)
Lemma round_prec_error (p : Z) (q : Q) :
  Qabs (round_prec p q - q) <= Qabs q * 2 ^ (- p).
Proof.
  destruct q as [n d].
  destruct (Z.eq_dec n 0%Z) as [->|Hn].
  { unfold round_prec. cbn [Qnum]. cbn [Z.eqb].
    assert (0 # d == 0) as -> by reflexivity.
    pose proof (pow2_pos (- p)). rewrite Qabs_pos by lra.
    change (Qabs 0) with 0. lra. }
  destruct (round_prec_near p n d Hn) as (m & -> & Hlo & Hhi).
  assert (0 < Z.abs n)%Z as Habs by lia.
  destruct (floor_log2_spec (Z.abs n) (Zpos d) Habs ltac:(done)) as [He _].
  set (e := floor_log2 (Z.abs n) (Zpos d)) in *.
  assert (2 ^ (e - p + 1) == 2 * (2 ^ e * 2 ^ (- p))) as HU.
  { rewrite pow2_succ. replace (e - p)%Z with (e + - p)%Z by lia.
    by rewrite pow2_plus. }
  pose proof (pow2_pos (- p)) as HT. pose proof (pow2_pos e) as HE.
  pose proof (Qmake_scale n d) as HX.
  assert (0 < inject_Z (Zpos d)) as Hd by (unfold Qlt; simpl; lia).
  rewrite HU in Hlo, Hhi. rewrite HU.
  set (T := 2 ^ (- p)) in *. set (E := 2 ^ e) in *.
  set (M := inject_Z m) in *. set (X := n # d) in *.
  set (D := inject_Z (Zpos d)) in *.
  apply Qabs_Qle_condition.
  destruct (Z.lt_total n 0%Z) as [Hneg|[?|Hpos]]; [|done|].
  - rewrite Z.abs_neq, inject_Z_opp in He by lia.
    assert (inject_Z n < 0) as HN by (unfold Qlt; simpl; lia).
    set (N := inject_Z n) in *.
    assert (X < 0) as HX0 by nra.
    rewrite (Qabs_neg X) by lra.
    assert (E <= - X) by (apply (Qle_cancel_r _ _ D); [done|nra]).
    split; nra.
  - rewrite Z.abs_eq in He by lia.
    assert (0 < inject_Z n) as HN by (unfold Qlt; simpl; lia).
    set (N := inject_Z n) in *.
    assert (0 < X) as HX0 by nra.
    rewrite (Qabs_pos X) by lra.
    assert (E <= X) by (apply (Qle_cancel_r _ _ D); [done|nra]).
    split; nra.
Qed.

Lemma Qabs_sub_triangle (a b c : Q) : Qabs (c - a) <= Qabs (c - b) + Qabs (b - a).
Proof.
  assert (c - a == (c - b) + (b - a)) as -> by ring. apply Qabs_triangle.
Qed.

(** Relative errors compose. *)
Lemma approx_trans (a b c e1 e2 : Q) :
  0 <= e1 → 0 <= e2 →
  Qabs (b - a) <= Qabs a * e1 →
  Qabs (c - b) <= Qabs b * e2 →
  Qabs (c - a) <= Qabs a * (e1 + e2 + e1 * e2).
Proof.
  intros H1 H2 Hab Hbc.
  pose proof (Qabs_sub_triangle a b c) as Ht.
  pose proof (Qabs_triangle (b - a) a) as Hb.
  assert (b - a + a == b) as Heq by ring. rewrite Heq in Hb.
  pose proof (Qabs_nonneg a). pose proof (Qabs_nonneg b).
  set (A := Qabs a) in *. set (B := Qabs b) in *.
  set (X := Qabs (c - a)) in *. set (Y := Qabs (c - b)) in *.
  set (Z := Qabs (b - a)) in *.
  nra.
Qed.

Lemma approx_scale (x a b e : Q) :
  Qabs (b - a) <= Qabs a * e → Qabs (x * b - x * a) <= Qabs (x * a) * e.
Proof.
  intros H. assert (x * b - x * a == x * (b - a)) as -> by ring.
  rewrite !Qabs_Qmult. pose proof (Qabs_nonneg x).
  set (X := Qabs x) in *. set (A := Qabs a) in *. set (B := Qabs (b - a)) in *.
  nra.
Qed.

(** [int(.)] moves a float by less than one. *)
Lemma Qtrunc_near (q : Q) : Qabs (inject_Z (Qtrunc q) - q) < 1.
Proof.
  destruct q as [n d]. unfold Qtrunc. cbn [Qnum Qden].
  pose proof (Z.quot_rem' n (Zpos d)) as Hqr.
  pose proof (Z.rem_bound_abs n (Zpos d) ltac:(done)) as Hb.
  assert (Z.abs (Z.rem n (Zpos d)) < Zpos d)%Z as Hr by lia.
  pose proof (Qmake_scale n d) as HX.
  assert (0 < inject_Z (Zpos d)) as Hd by (unfold Qlt; simpl; lia).
  assert (inject_Z n == inject_Z (Zpos d) * inject_Z (Z.quot n (Zpos d))
                        + inject_Z (Z.rem n (Zpos d))) as Hn.
  { rewrite <- inject_Z_mult, <- inject_Z_plus. by rewrite <- Hqr. }
  apply Z.abs_lt in Hr. destruct Hr as [Hr1 Hr2].
  rewrite Zlt_Qlt in Hr1, Hr2. rewrite inject_Z_opp in Hr1.
  set (T := inject_Z (Z.quot n (Zpos d))) in *.
  set (R := inject_Z (Z.rem n (Zpos d))) in *.
  set (D := inject_Z (Zpos d)) in *. set (N := inject_Z n) in *.
  set (X := n # d) in *.
  apply Qabs_case; intros _.
  - apply (Qmult_lt_r _ _ D); [done|]. nra.
  - apply (Qmult_lt_r _ _ D); [done|]. nra.
Qed.

Lemma pow2_ge_1 (k : Z) : (0 <= k)%Z → 1 <= 2 ^ k.
Proof.
  intros Hk. rewrite <- inject_pow2 by done.
  change 1 with (inject_Z 1). rewrite <- Zle_Qle.
  pose proof (Z.pow_pos_nonneg 2 k ltac:(lia) Hk). lia.
Qed.

Lemma pow2_lt_inv (a b : Z) : 2 ^ a < 2 ^ b → (a < b)%Z.
Proof.
  intros H. destruct (Z.lt_ge_cases a b) as [|Hge]; [done|]. exfalso.
  assert (2 ^ a == 2 ^ b * 2 ^ (a - b)) as Heq.
  { rewrite <- pow2_plus. by replace (b + (a - b))%Z with a by lia. }
  pose proof (pow2_ge_1 (a - b) ltac:(lia)). pose proof (pow2_pos b).
  rewrite Heq in H. set (B := 2 ^ b) in *. set (C := 2 ^ (a - b)) in *. nra.
Qed.

Lemma round_half_even_multiple (j d : Z) :
  (0 < d)%Z → round_half_even (j * d) d = j.
Proof.
  intros Hd. unfold round_half_even.
  rewrite Z.mod_mul, Z.div_mul by lia.
  destruct (Z.compare_spec (2 * 0) d); lia.
Qed.

(** An integer below [2 ^ p] in magnitude is a number of [p] bits. *)
Lemma round_prec_integer (p : Z) (q : Q) (z : Z) :
  (0 <= p)%Z → q == inject_Z z → (Z.abs z < 2 ^ p)%Z →
  round_prec p q == inject_Z z.
Proof.
  intros Hp Hq Hz. destruct q as [n d].
  assert (n = z * Zpos d)%Z as Hn.
  { unfold Qeq in Hq. simpl in Hq. lia. }
  destruct (Z.eq_dec z 0%Z) as [->|Hz0].
  { rewrite Hn. reflexivity. }
  unfold round_prec. cbn [Qnum Qden].
  destruct (Z.eqb_spec n 0%Z) as [|Hn0]; [lia|].
  assert (0 < Z.abs n)%Z as Habs by lia.
  destruct (floor_log2_spec (Z.abs n) (Zpos d) Habs ltac:(done)) as [He _].
  set (e := floor_log2 (Z.abs n) (Zpos d)) in *.
  assert (e < p)%Z as Hep.
  { apply pow2_lt_inv.
    assert (0 < inject_Z (Zpos d)) as Hd by (unfold Qlt; simpl; lia).
    assert (inject_Z (Z.abs n) == inject_Z (Z.abs z) * inject_Z (Zpos d)) as Ha.
    { rewrite <- inject_Z_mult. by rewrite Hn, Z.abs_mul. }
    rewrite Ha in He. rewrite Zlt_Qlt, inject_pow2 in Hz by done.
    set (E := 2 ^ e) in *. set (P := 2 ^ p) in *.
    set (D := inject_Z (Zpos d)) in *. set (A := inject_Z (Z.abs z)) in *.
    apply (Qmult_lt_r _ _ D); [done|]. nra. }
  set (u := (e - p + 1)%Z).
  replace (Z.max 0 u) with 0%Z by lia. replace (Z.max 0 (- u)) with (- u)%Z by lia.
  rewrite Z.pow_0_r, Z.mul_1_r, Hn.
  replace (z * Zpos d * 2 ^ (- u))%Z with (z * 2 ^ (- u) * Zpos d)%Z by ring.
  rewrite round_half_even_multiple by done.
  rewrite inject_scaled by lia. rewrite <- Qmult_assoc, <- pow2_plus.
  replace (- u + u)%Z with 0%Z by lia. change (2 ^ 0) with 1. ring.
Qed.



(** The relative error of the scale the product is taken with, and of the
    product. *)
Lemma float_scale_error (r : Q) :
  Qabs (float32 (float64 r) - r)
    <= Qabs r * (2 ^ (-53) + 2 ^ (-24) + 2 ^ (-53) * 2 ^ (-24)).
Proof.
  apply (approx_trans r (float64 r));
    [apply Qlt_le_weak, pow2_pos..|apply round_prec_error|apply round_prec_error].
Qed.

Lemma float_product_error (x r : Q) :
  Qabs (float32 (x * float32 (float64 r)) - x * r) <= Qabs (x * r) * 2 ^ (-22).
Proof.
  pose proof (approx_scale x _ _ _ (float_scale_error r)) as H1.
  pose proof (round_prec_error 24 (x * float32 (float64 r))) as H2.
  assert (0 <= 2 ^ (-53) + 2 ^ (-24) + 2 ^ (-53) * 2 ^ (-24)) as He1
    by (by vm_compute).
  pose proof (approx_trans _ _ _ _ _ He1
    (Qlt_le_weak _ _ (pow2_pos (-24))) H1 H2) as H.
  fold (float32 (x * float32 (float64 r))) in H.
  pose proof (Qabs_nonneg (x * r)).
  assert (2 ^ (-53) + 2 ^ (-24) + 2 ^ (-53) * 2 ^ (-24) + 2 ^ (-24)
          + (2 ^ (-53) + 2 ^ (-24) + 2 ^ (-53) * 2 ^ (-24)) * 2 ^ (-24)
          <= 2 ^ (-22)) as Hc by (by vm_compute).
  set (A := Qabs (x * r)) in *.
  set (c := 2 ^ (-53) + 2 ^ (-24) + 2 ^ (-53) * 2 ^ (-24) + 2 ^ (-24)
            + (2 ^ (-53) + 2 ^ (-24) + 2 ^ (-53) * 2 ^ (-24)) * 2 ^ (-24)) in *.
  set (t := 2 ^ (-22)) in *.
  set (E := Qabs (float32 (x * float32 (float64 r)) - x * r)) in *.
  nra.
Qed.

(** The coordinate drawn is within one, and a relative error of [2 ^ -22],
    of the exact product. *)
Lemma rescale_coordinate_error (x r : Q) :
  Qabs (inject_Z (rescale_coordinate x (float64 r)) - x * r)
    < 1 + Qabs (x * r) * 2 ^ (-22).
Proof.
  unfold rescale_coordinate.
  pose proof (Qtrunc_near (float32 (x * float32 (float64 r)))) as H1.
  pose proof (float_product_error x r) as H2.
  pose proof (Qabs_sub_triangle (x * r) (float32 (x * float32 (float64 r)))
    (inject_Z (Qtrunc (float32 (x * float32 (float64 r)))))) as H3.
  lra.
Qed.

(** With a scale that is a single-precision number, a product that is an
    integer below [2 ^ 24] in magnitude is drawn as it is. *)
Lemma rescale_coordinate_exact (x r : Q) (z : Z) :
  float32 (float64 r) == r → x * r == inject_Z z → (Z.abs z < 2 ^ 24)%Z →
  rescale_coordinate x (float64 r) = z.
Proof.
  intros Hr Hz Hlt. unfold rescale_coordinate.
  rewrite (Qtrunc_comp _ (inject_Z z)); [apply Qtrunc_inject_Z|].
  apply round_prec_integer; [done| |done]. by rewrite Hr.
Qed.

End Rounding.

(** The box the loop draws, coordinate by coordinate. *)
Lemma scaled_coordinates (W H w h : Z) (x1 y1 x2 y2 : Q) :
  scaled (H, W) (h, w) (x1, y1, x2, y2)
    = (Qtrunc (float32 (x1 * float32 (float64 (inject_Z W / inject_Z w)))),
       Qtrunc (float32 (y1 * float32 (float64 (inject_Z H / inject_Z h)))),
       Qtrunc (float32 (x2 * float32 (float64 (inject_Z W / inject_Z w)))),
       Qtrunc (float32 (y2 * float32 (float64 (inject_Z H / inject_Z h))))).
Proof. reflexivity. Qed.

(** The coordinate drawn against the quotient of the specification. *)
Lemma drawn_near_quotient (x : Q) (a b : Z) :
  (Qabs (inject_Z (Qtrunc (float32 (x * float32 (float64 (inject_Z a / inject_Z b)))))
         - x * inject_Z a / inject_Z b)
   < 1 + Qabs (x * inject_Z a / inject_Z b) * 2 ^ (-22))%Q.
Proof.
  pose proof (rescale_coordinate_error x (inject_Z a / inject_Z b)) as H.
  unfold rescale_coordinate in H.
  assert (x * inject_Z a / inject_Z b == x * (inject_Z a / inject_Z b))%Q as ->
    by (unfold Qdiv; ring).
  exact H.
Qed.

Lemma drawn_exact_quotient (x : Q) (a b z : Z) :
  (float32 (float64 (inject_Z a / inject_Z b)) == inject_Z a / inject_Z b)%Q →
  (x * inject_Z a / inject_Z b == inject_Z z)%Q →
  (Z.abs z < 2 ^ 24)%Z →
  Qtrunc (float32 (x * float32 (float64 (inject_Z a / inject_Z b)))) = z.
Proof.
  intros Hs Hq Hz. apply (rescale_coordinate_exact x _ z Hs); [|done].
  rewrite <- Hq. unfold Qdiv. ring.
Qed.

(** C7, as the code has it.  With a frame of [W] by [H] resized to [w] by
    [h], the loop draws a candidate's box [(x1, y1, x2, y2)] at the
    integers [int(x1 * sx), int(y1 * sy), int(x2 * sx), int(y2 * sy)],
    where [sx] and [sy] are the floats [W / w] and [H / h]: each product is
    taken in single precision, rounded to the nearest single-precision
    number, and then truncated toward zero.  Each integer lies within
    [1 + |q| / 2^22] of the quotient [q] of the specification, and is [q]
    itself where the scale is a single-precision number and [q] an integer
    below [2^24] in magnitude.  (Products beyond the range of single
    precision, which [int] rejects, are outside the model.)  With 1280x720
    resized to 640x480, the box [(100, 100, 200, 200)] is drawn at
    [(200, 150, 400, 300)]. *)
Theorem rescale_rounds_then_truncates :
  (∀ (W H w h : Z) (x1 y1 x2 y2 : Q),
     w ≠ 0%Z → h ≠ 0%Z →
     let sx := float64 (inject_Z W / inject_Z w) in
     let sy := float64 (inject_Z H / inject_Z h) in
     let drawn := (Qtrunc (float32 (x1 * float32 sx)),
                   Qtrunc (float32 (y1 * float32 sy)),
                   Qtrunc (float32 (x2 * float32 sx)),
                   Qtrunc (float32 (y2 * float32 sy))) in
     let '(q1, q2, q3, q4) := rescale_spec W H w h (x1, y1, x2, y2) in
     (∀ (S : Type) (s : S),
        rescale (H, W) (h, w) (x1, y1, x2, y2) s = (Ok drawn, s)) ∧
     (∀ cfg names c confidence env s name,
        names !! c = Some name →
        is_candidate cfg (lower name) confidence = true →
        rectangles (process_box cfg names (H, W) (h, w)
                      ({| cls := c; conf := confidence;
                          xyxy := (x1, y1, x2, y2) |}, env) s).2
          = (rectangles s ++ [drawn])%list) ∧
     ((Qabs (inject_Z drawn.1.1.1 - q1) < 1 + Qabs q1 * 2 ^ (-22))%Q ∧
      (Qabs (inject_Z drawn.1.1.2 - q2) < 1 + Qabs q2 * 2 ^ (-22))%Q ∧
      (Qabs (inject_Z drawn.1.2 - q3) < 1 + Qabs q3 * 2 ^ (-22))%Q ∧
      (Qabs (inject_Z drawn.2 - q4) < 1 + Qabs q4 * 2 ^ (-22))%Q) ∧
     (∀ z1 z2 z3 z4 : Z,
        (float32 sx == inject_Z W / inject_Z w)%Q →
        (float32 sy == inject_Z H / inject_Z h)%Q →
        (q1 == inject_Z z1)%Q → (q2 == inject_Z z2)%Q →
        (q3 == inject_Z z3)%Q → (q4 == inject_Z z4)%Q →
        (Z.abs z1 < 2 ^ 24)%Z → (Z.abs z2 < 2 ^ 24)%Z →
        (Z.abs z3 < 2 ^ 24)%Z → (Z.abs z4 < 2 ^ 24)%Z →
        drawn = (z1, z2, z3, z4))) ∧
  rescale (720, 1280)%Z (480, 640)%Z (100, 100, 200, 200)%Q tt
    = (Ok (200, 150, 400, 300)%Z, tt).
Proof.
  split; [|by vm_compute].
  intros W H w h x1 y1 x2 y2 Hw Hh.
  cbv beta iota zeta delta [rescale_spec].
  split; [|split; [|split]].
  - intros S s. rewrite rescale_nonzero by done. by rewrite scaled_coordinates.
  - intros cfg names c confidence env s name Hn Hc.
    destruct (process_box_candidate_fields cfg names (H, W) (h, w)
      {| cls := c; conf := confidence; xyxy := (x1, y1, x2, y2) |} env s name)
      as (_ & Hr & _); [done..|].
    rewrite Hr. cbn [xyxy]. by rewrite scaled_coordinates.
  - cbn [fst snd]. repeat split; apply drawn_near_quotient.
  - intros z1 z2 z3 z4 Hsx Hsy H1 H2 H3 H4 B1 B2 B3 B4.
    f_equal; [f_equal; [f_equal|]|]; by apply drawn_exact_quotient.
Qed.

(** In the same frames the box [(-3/4, 6509909/65536, 101, 101)]: the
    exact quotients are -3/2, 148.99999..., 202 and 303/2, and the loop
    draws -1 (truncation is toward zero), 149 (the product is a tie of two
    single-precision numbers and rounds to 149 before it is truncated),
    202 and 151. *)
Lemma rescale_rounds_then_truncates_witness :
  640%Z ≠ 0%Z ∧ 480%Z ≠ 0%Z ∧
  rescale (720, 1280)%Z (480, 640)%Z
    (- (3 # 4), 6509909 # 65536, 101, 101)%Q tt
    = (Ok (-1, 149, 202, 151)%Z, tt) ∧
  ((rescale_spec 1280 720 640 480 (- (3 # 4), 6509909 # 65536, 101, 101)%Q).1.1.2
    == 19529727 # 131072)%Q.
Proof.
  assert (Hw : 640%Z ≠ 0%Z) by discriminate.
  assert (Hh : 480%Z ≠ 0%Z) by discriminate.
  split; [exact Hw|]. split; [exact Hh|]. split; [|by vm_compute].
  exact (proj1 (proj1 rescale_rounds_then_truncates 1280%Z 720%Z 640%Z 480%Z
                  (- (3 # 4))%Q (6509909 # 65536)%Q 101%Q 101%Q Hw Hh) unit tt).
Defined.

(** The rescaled box is not the tuple of exact quotients: for
    [(101, 101, 200, 200)] the second quotient is 303/2, and the loop
    draws 151. *)
Lemma rescale_not_exact :
  rescale (720, 1280)%Z (480, 640)%Z (101, 101, 200, 200)%Q tt
    = (Ok (202, 151, 400, 300)%Z, tt) ∧
  ((rescale_spec 1280 720 640 480 (101, 101, 200, 200)%Q).1.1.2 == 303 # 2)%Q ∧
  ¬ (inject_Z 151 == (rescale_spec 1280 720 640 480 (101, 101, 200, 200)%Q).1.1.2)%Q.
Proof. split; [by vm_compute|]. split; [reflexivity|]. by vm_compute. Qed.

(* ===================================================================== *)
(** * Properties of the stop operation                                    *)
(* ===================================================================== *)

Ltac proc_run :=
  unfold stop_detection_background, clear_process, proc, get, modify,
    try_finally, try_except, outcome, mbind, M_bind, mret, M_ret,
    mthrow, M_throw; simpl.

(** Without a tracked process the stop operation does nothing. *)
Lemma stop_idle (env : ProcEnv) (s : CameraState) :
  detection_process s = None →
  stop_detection_background env s = (Ok tt, s).
Proof. intros Hs. proc_run. by rewrite Hs. Qed.

(** The [finally] clause clears the handle on every path. *)
Lemma stop_clears (env : ProcEnv) (s : CameraState) :
  detection_process (stop_detection_background env s).2 = None.
Proof.
  destruct s as [[p|] log], env as [ot ow ok owt]; [|done].
  proc_run.
  destruct ot as [[]|]; simpl; try done;
    destruct ow as [[]|]; simpl; try done;
    destruct ok as [?|]; simpl; try done;
    destruct owt as [?|]; simpl; done.
Qed.

(** An exception leaves the stop operation only from the handler of
    [TimeoutExpired], when [kill()] or the [wait()] after it raises. *)
Lemma stop_raises_only_in_timeout_handler (env : ProcEnv) (s : CameraState) :
  raises (stop_detection_background env s).1 = true →
  is_Some (detection_process s) ∧
  stop_try_raises env = Some TimeoutExpired ∧
  (is_Some (on_kill env) ∨ is_Some (on_wait env)).
Proof.
  destruct s as [[p|] log], env as [ot ow ok owt]; [|done].
  unfold stop_try_raises. proc_run.
  destruct ot as [[]|]; simpl; try done;
    destruct ow as [[]|]; simpl; try done;
    destruct ok as [?|]; simpl; try done;
    destruct owt as [?|]; simpl; try done; eauto 6.
Qed.

(** What holds of the stop operation on every path.  A stop with no
    tracked process (detection never started, or a stop directly after
    another one) returns without raising, asks nothing of any process and
    leaves the handle cleared.  A stop of a tracked process clears the
    handle on every path, whether it returns or raises, so the stop that
    follows is such a no-op; it can raise only out of its handler of
    [TimeoutExpired], when [kill()] or the [wait()] after it raises. *)
Theorem stop_detection_idempotent (env env' : ProcEnv) (s : CameraState) :
  let first := stop_detection_background env s in
  (detection_process s = None → first = (Ok tt, s)) ∧
  detection_process first.2 = None ∧
  stop_detection_background env' first.2 = (Ok tt, first.2) ∧
  (raises first.1 = true →
     is_Some (detection_process s) ∧
     stop_try_raises env = Some TimeoutExpired ∧
     (is_Some (on_kill env) ∨ is_Some (on_wait env))).
Proof.
  simpl. split; [apply stop_idle|]. split; [apply stop_clears|]. split.
  - apply stop_idle, stop_clears.
  - apply stop_raises_only_in_timeout_handler.
Qed.

(** C9, at the input where the code breaks it.  Two stops in a row of a
    child that outlives [wait(timeout=2)] and cannot be killed: the first
    stop raises what [kill()] raised, out of the handler of
    [TimeoutExpired], where [kill()] and [wait()] stand unguarded, with
    the handle cleared; the second stop returns and does nothing.  The
    handler of [Exception] beside it guards the same [kill()] with a
    [try] of its own.  (The caller in [app.py] catches the exception and
    reports it to the user.) *)
Lemma stop_first_call_raises :
  stop_detection_background proc_env_kill_fails
    {| detection_process := Some 4242%nat; proc_log := [] |}
    = (Raise (OtherException "PermissionError"),
       {| detection_process := None;
          proc_log := [PTerminate 4242; PWait 4242 (Some 2%Z); PKill 4242] |}) ∧
  stop_detection_background proc_env_kill_fails
    (stop_detection_background proc_env_kill_fails
       {| detection_process := Some 4242%nat; proc_log := [] |}).2
    = (Ok tt,
       {| detection_process := None;
          proc_log := [PTerminate 4242; PWait 4242 (Some 2%Z); PKill 4242] |}).
Proof. split; reflexivity. Qed.

(** A child that exits on [terminate()]: the stop returns after
    [terminate()] and [wait(timeout=2)], with the handle cleared. *)
Example stop_live_process :
  stop_detection_background proc_env_ok
    {| detection_process := Some 4242%nat; proc_log := [] |}
    = (Ok tt,
       {| detection_process := None;
          proc_log := [PTerminate 4242; PWait 4242 (Some 2%Z)] |}).
Proof. reflexivity. Qed.

(* ===================================================================== *)
(** * More of the e-mail channel                                          *)
(* ===================================================================== *)

(** A path whose tests contradict the hypotheses. *)
Ltac email_absurd :=
  exfalso;
  repeat match goal with
  | H : _ ∧ _ |- _ => destruct H
  | H : is_Some _ |- _ => destruct H
  end;
  repeat match goal with
  | H : ?b = true, H' : context [?b] |- _ => rewrite H in H'
  end;
  simpl in *; congruence.

(** All the paths of one call on an empty trace. *)
Ltac email_paths cfg env :=
  destruct cfg as [[[]|] srv port se sp rcp ovr];
  destruct env as [pe oimg ocon otls olog osnd oquit];
  email_run; repeat email_case.

(** X1.  [send_email_alert] returns [True] exactly when the channel is
    enabled, the sender address and password are set, the recipient, the
    server and the port are configured, and every call to the SMTP server
    (connection, TLS, login, sending, closing) returns; it has then handed
    exactly one message to the server and its last act is the success
    line of the log. *)
Theorem send_email_alert_true_iff (cfg : EmailConfig) (env : EmailEnv)
    (animal_type : string) (confidence : Q) (image_path : option string) :
  ((send_email_alert cfg env animal_type confidence image_path []).1 = Ok true ↔
   email_ready cfg ∧ transport_ok env) ∧
  ((send_email_alert cfg env animal_type confidence image_path []).1 = Ok true →
   count_events is_send
     (send_email_alert cfg env animal_type confidence image_path []).2 = 1%nat ∧
   last (send_email_alert cfg env animal_type confidence image_path []).2
     = Some (EvPrint ("Email alert sent successfully for " ++ animal_type))).
Proof.
  unfold email_ready, transport_ok.
  email_paths cfg env.
  all: split; [split|]; try done.
  all: try (intros (? & ? & ? & [? ?] & [? ?] & [? ?]); discriminate).
  all: try (intros [(? & ? & ? & [? ?] & [? ?] & [? ?]) (? & ? & ? & ? & ?)];
            discriminate).
  all: try (intros _; repeat split; eauto; done).
  intros [(_ & H1 & H2 & _) _]. rewrite H1, H2 in Heqb. discriminate.
Qed.

(** X2.  Whatever happens, the channel connects to the configured server
    and port and logs in with the configured sender address and password,
    never with the override; a message it sends goes to the configured
    recipient and carries the override, when one is set, as its [From] and
    [Reply-To], and the configured sender without [Reply-To] otherwise. *)
Theorem send_email_alert_identities (cfg : EmailConfig) (env : EmailEnv)
    (animal_type : string) (confidence : Q) (image_path : option string) :
  Forall (event_identities cfg)
    (send_email_alert cfg env animal_type confidence image_path []).2.
Proof.
  unfold event_identities.
  email_paths cfg env.
  all: repeat constructor; simpl; try done.
Qed.

(** X3.  A connection that was opened is closed: when the server accepts
    the connection the trace holds one [QUIT] for it, also when TLS, the
    login or the sending raises; when the connection is refused nothing is
    closed; and no message is sent without a connection. *)
Theorem send_email_alert_quits (cfg : EmailConfig) (env : EmailEnv)
    (animal_type : string) (confidence : Q) (image_path : option string) :
  let new := (send_email_alert cfg env animal_type confidence image_path []).2 in
  (on_connect env = None →
   count_events is_quit new = count_events is_connect new) ∧
  (is_Some (on_connect env) → count_events is_quit new = 0%nat) ∧
  (count_events is_connect new = 0%nat → count_events is_send new = 0%nat).
Proof.
  email_paths cfg env.
  all: repeat split; try done.
  all: try (intros [? ?]; done).
Qed.

(** X4.  The detection image is opened at most once, and only when a path
    was given and the file exists.  A message carries either no image or
    the given path, the latter only when the file was read.  An image that
    exists and cannot be read does not stop the alert: the failure is
    logged, the message goes without image and, the channel being ready
    and the server answering, the call returns [True]. *)
Theorem send_email_alert_image (cfg : EmailConfig) (env : EmailEnv)
    (animal_type : string) (confidence : Q) (image_path : option string) :
  let new := (send_email_alert cfg env animal_type confidence image_path []).2 in
  (count_events is_open_image new ≤ 1)%nat ∧
  (count_events is_open_image new = 1%nat →
   truthy image_path = true ∧ path_exists env (default "" image_path) = true) ∧
  (∀ m, EvSendMessage m ∈ new →
     msg_image m = None ∨
     (msg_image m = image_path ∧ on_open_image env = None ∧
      count_events is_open_image new = 1%nat)) ∧
  (truthy image_path = true → path_exists env (default "" image_path) = true →
   is_Some (on_open_image env) → email_ready cfg → transport_ok env →
   (send_email_alert cfg env animal_type confidence image_path []).1 = Ok true ∧
   EvPrint "Could not attach image" ∈ new ∧
   ∀ m, EvSendMessage m ∈ new → msg_image m = None).
Proof.
  unfold email_ready, transport_ok, count_events.
  email_paths cfg env.
  all: repeat split; try lia; try done.
  all: try (match goal with H : _ && _ = true |- _ =>
              apply andb_true_iff in H as [? ?] end; done).
  all: try (intros m Hm;
            repeat (apply elem_of_cons in Hm as [Hm|Hm]; [try discriminate|]);
            try (by apply elem_of_nil in Hm); injection Hm as ->; simpl; auto).
  all: try by email_absurd.
  all: repeat first [ apply list_elem_of_here | apply list_elem_of_further ].
Qed.

(** The enabled channel of [config.py], a server that answers, an image
    that cannot be read. *)
Lemma send_email_alert_image_witness :
  (send_email_alert (EMAIL_CONFIG config_py) email_env_unreadable_image
     "dog" (0.9)%Q (Some "detections/detection_dog_20251126_103000.jpg") []).1
    = Ok true ∧
  EvPrint "Could not attach image" ∈
    (send_email_alert (EMAIL_CONFIG config_py) email_env_unreadable_image
       "dog" (0.9)%Q (Some "detections/detection_dog_20251126_103000.jpg") []).2.
Proof.
  destruct (send_email_alert_image (EMAIL_CONFIG config_py)
    email_env_unreadable_image "dog" (0.9)%Q
    (Some "detections/detection_dog_20251126_103000.jpg"))
    as (_ & _ & _ & Hfail).
  destruct Hfail as (Hr & Hp & _).
  - reflexivity.
  - reflexivity.
  - by eexists.
  - repeat split; by eexists.
  - by repeat split.
  - by split.
Defined.

(* ===================================================================== *)
(** * More of the detection loop                                          *)
(* ===================================================================== *)

Lemma gate_calls_app (cfg : Config) (c1 c2 : list (string * Q))
    (st : gmap string Q) :
  gate_calls cfg (c1 ++ c2) st =
    (((gate_calls cfg c1 st).1 ++
      (gate_calls cfg c2 (gate_calls cfg c1 st).2).1)%list,
     (gate_calls cfg c2 (gate_calls cfg c1 st).2).2).
Proof.
  revert st. induction c1 as [|[l t] c1 IH]; intros st.
  - simpl. by destruct (gate_calls cfg c2 st).
  - rewrite <- app_comm_cons, !gate_calls_cons. cbn [fst snd]. by rewrite IH.
Qed.

Lemma count_true_app (a1 a2 : list (string * Q * bool)) :
  count_true (a1 ++ a2) = (count_true a1 + count_true a2)%nat.
Proof. unfold count_true. by rewrite List.filter_app, length_app. Qed.

(** One box and the gate. *)
Lemma process_box_gate cfg names fs ps be s :
  ps.1 ≠ 0%Z → ps.2 ≠ 0%Z →
  let calls := option_list (candidate_call cfg names be) in
  let s' := (process_box cfg names fs ps be s).2 in
  last_alert_time s' = (gate_calls cfg calls (last_alert_time s)).2 ∧
  detection_count s'
    = (detection_count s + count_true (gate_calls cfg calls (last_alert_time s)).1)%nat ∧
  frame_count s' = frame_count s.
Proof.
  intros H1 H2. destruct be as [box env]. unfold candidate_call. simpl.
  destruct (names !! cls box) as [name|] eqn:Hn.
  2: { rewrite process_box_unnamed by done. destruct s; simpl.
       repeat split; unfold count_true; simpl; lia. }
  destruct (is_candidate cfg (lower name) (conf box)) eqn:Hc.
  2: { rewrite (process_box_rejected _ _ _ _ _ _ _ name) by done. simpl.
       repeat split; unfold count_true; simpl; lia. }
  destruct (process_box_candidate_fields cfg names fs ps box env s name)
    as (_ & _ & Hl & Hk); [done..|].
  simpl in Hl, Hk. rewrite Hl, Hk.
  simpl option_list. rewrite gate_calls_cons. cbn [fst snd gate_calls].
  split; [done|]. split.
  - unfold count_true. simpl.
    by destruct (should_send_alert _ _ _ _).1.
  - rewrite (process_box_candidate _ _ _ _ _ _ _ name) by done.
    destruct (should_send_alert _ _ _ _).1; cbn [fst snd].
    + destruct (trigger_alert_effect cfg env (lower name) (conf box)
        (after_gate cfg fs ps box env (lower name) s)) as (_ & _ & _ & Hf & _).
      rewrite Hf. by destruct s.
    + by destruct s.
Qed.

Lemma for_each_process_box_state cfg names fs ps bs s :
  (for_each (process_box cfg names fs ps) bs s).1 = Ok tt.
Proof. apply for_each_ok. intros a s0. apply process_box_ok. Qed.

Lemma for_each_process_box_step cfg names fs ps be bs s :
  for_each (process_box cfg names fs ps) (be :: bs) s
    = for_each (process_box cfg names fs ps) bs
        (process_box cfg names fs ps be s).2.
Proof.
  rewrite for_each_cons. pose proof (process_box_ok cfg names fs ps be s) as Hok.
  destruct (process_box cfg names fs ps be s) as [[[]|e] s1]; simpl in *; done.
Qed.

Lemma candidate_calls_cons cfg names be bs :
  candidate_calls cfg names (be :: bs)
    = (option_list (candidate_call cfg names be) ++ candidate_calls cfg names bs)%list.
Proof. unfold candidate_calls. simpl. by destruct (candidate_call cfg names be). Qed.

Lemma candidate_calls_app cfg names bs1 bs2 :
  candidate_calls cfg names (bs1 ++ bs2)
    = (candidate_calls cfg names bs1 ++ candidate_calls cfg names bs2)%list.
Proof. apply omap_app. Qed.

Lemma boxes_gate cfg names fs ps bs :
  ps.1 ≠ 0%Z → ps.2 ≠ 0%Z →
  ∀ s,
    let calls := candidate_calls cfg names bs in
    let s' := (for_each (process_box cfg names fs ps) bs s).2 in
    last_alert_time s' = (gate_calls cfg calls (last_alert_time s)).2 ∧
    detection_count s'
      = (detection_count s + count_true (gate_calls cfg calls (last_alert_time s)).1)%nat ∧
    frame_count s' = frame_count s.
Proof.
  intros H1 H2. induction bs as [|be bs IH]; intros s.
  - simpl. unfold count_true. simpl. repeat split; lia.
  - cbv zeta. rewrite for_each_process_box_step.
    destruct (process_box_gate cfg names fs ps be s H1 H2) as (Hl & Hk & Hf).
    destruct (IH (process_box cfg names fs ps be s).2) as (Hl' & Hk' & Hf').
    cbv zeta in *. rewrite Hl', Hk', Hf', Hl, Hk, Hf.
    rewrite candidate_calls_cons, gate_calls_app. cbn [fst snd]. rewrite count_true_app.
    repeat split; lia.
Qed.

Lemma resize_ok cfg s :
  frame_size_ok cfg →
  ∃ ps, resize cfg s = (Ok ps, s) ∧ ps.1 ≠ 0%Z ∧ ps.2 ≠ 0%Z.
Proof.
  intros [Hw Hh]. unfold resize.
  apply Z.ltb_lt in Hw as Hw', Hh as Hh'. rewrite Hw', Hh'. simpl.
  eexists. split; [reflexivity|]. simpl. lia.
Qed.

Lemma resize_fails cfg s :
  ¬ frame_size_ok cfg →
  resize cfg s = (Raise (OtherException "cv2.error"), s).
Proof.
  intros Hn. unfold resize, frame_size_ok in *.
  destruct (Z.ltb_spec 0 (default 640%Z (frame_width (DETECTION_CONFIG cfg))));
    destruct (Z.ltb_spec 0 (default 480%Z (frame_height (DETECTION_CONFIG cfg))));
    simpl; try done. exfalso. apply Hn. done.
Qed.

Lemma loop_iteration_sized cfg names fr s :
  frame_size_ok cfg →
  ∃ ps, ps.1 ≠ 0%Z ∧ ps.2 ≠ 0%Z ∧
    loop_iteration cfg names fr s =
      for_each (process_box cfg names (frame_shape fr) ps) (boxes fr)
        (set_detected_animals ∅ (set_frame_count (S (frame_count s)) s)).
Proof.
  intros Hok. unfold loop_iteration, modify, mbind, M_bind. simpl.
  destruct (resize_ok cfg (set_frame_count (S (frame_count s)) s) Hok)
    as (ps & -> & H1 & H2).
  by exists ps.
Qed.

Lemma loop_iteration_ok cfg names fr s :
  frame_size_ok cfg → (loop_iteration cfg names fr s).1 = Ok tt.
Proof.
  intros Hok. destruct (loop_iteration_sized cfg names fr s Hok) as (ps & _ & _ & ->).
  apply for_each_process_box_state.
Qed.

Lemma loop_iteration_gate cfg names fr s :
  frame_size_ok cfg →
  let calls := candidate_calls cfg names (boxes fr) in
  let s' := (loop_iteration cfg names fr s).2 in
  last_alert_time s' = (gate_calls cfg calls (last_alert_time s)).2 ∧
  detection_count s'
    = (detection_count s + count_true (gate_calls cfg calls (last_alert_time s)).1)%nat ∧
  frame_count s' = S (frame_count s).
Proof.
  intros Hok. destruct (loop_iteration_sized cfg names fr s Hok)
    as (ps & H1 & H2 & ->).
  destruct (boxes_gate cfg names (frame_shape fr) ps (boxes fr) H1 H2
    (set_detected_animals ∅ (set_frame_count (S (frame_count s)) s)))
    as (Hl & Hk & Hf).
  cbv zeta in *. rewrite Hl, Hk, Hf. by destruct s.
Qed.

Lemma frames_gate cfg names frames :
  frame_size_ok cfg →
  ∀ s,
    let calls := candidate_calls cfg names (concat (boxes <$> frames)) in
    let r := for_each (loop_iteration cfg names) frames s in
    r.1 = Ok tt ∧
    last_alert_time r.2 = (gate_calls cfg calls (last_alert_time s)).2 ∧
    detection_count r.2
      = (detection_count s + count_true (gate_calls cfg calls (last_alert_time s)).1)%nat ∧
    frame_count r.2 = (frame_count s + length frames)%nat.
Proof.
  intros Hok. induction frames as [|fr frames IH]; intros s.
  - cbv zeta. unfold count_true. simpl. repeat split; lia.
  - cbv zeta. rewrite for_each_cons.
    pose proof (loop_iteration_ok cfg names fr s Hok) as Hr.
    destruct (loop_iteration_gate cfg names fr s Hok) as (Hl & Hk & Hf).
    destruct (loop_iteration cfg names fr s) as [[[]|e] s1]; simpl in *; [|done].
    destruct (IH s1) as (Hr' & Hl' & Hk' & Hf').
    cbv zeta in *. rewrite candidate_calls_app, gate_calls_app. cbn [fst snd].
    rewrite count_true_app, Hl', Hk', Hf', Hl, Hk, Hf. cbn [length].
    split; [done|]. split; [done|]. split; [by rewrite Nat.add_assoc|lia].
Qed.

(** A relation between states that no step of the loop but the dispatch
    of an alert for a target animal can break holds over a box. *)
Lemma process_box_relation (R : LoopState → LoopState → Prop)
    (cfg : Config) (names : gmap Z string) :
  (∀ s, R s s) →
  (∀ s1 s2 s3, R s1 s2 → R s2 s3 → R s1 s3) →
  (∀ s c, R s (set_console c s)) →
  (∀ s d, R s (set_detected_animals d s)) →
  (∀ s r, R s (set_rectangles r s)) →
  (∀ s m, R s (set_last_alert_time m s)) →
  (∀ label env confidence s,
     label ∈ TARGET_ANIMALS cfg →
     R s (trigger_alert cfg env label confidence s).2) →
  ∀ fs ps be s, R s (process_box cfg names fs ps be s).2.
Proof.
  intros Hrefl Htrans Hc Hd Hr Hm Ht fs ps [box env] s.
  destruct (names !! cls box) as [name|] eqn:Hn.
  2: { rewrite process_box_unnamed by done. apply Hc. }
  destruct (is_candidate cfg (lower name) (conf box)) eqn:Hcand.
  2: { rewrite (process_box_rejected _ _ _ _ _ _ _ name) by done. apply Hrefl. }
  assert (Hgate : R s (after_gate cfg fs ps box env (lower name) s)).
  { unfold after_gate. eapply Htrans; [apply Hd|].
    eapply Htrans; [apply Hr|]. apply Hm. }
  destruct (decide (ps.1 = 0%Z ∨ ps.2 = 0%Z)) as [Hz|Hnz].
  - rewrite (process_box_zero_shape _ _ _ _ _ _ _ name) by done. simpl.
    eapply Htrans; [apply Hd|]. apply Hc.
  - rewrite (process_box_candidate _ _ _ _ _ _ _ name) by tauto.
    destruct (should_send_alert _ _ _ _).1; cbn [fst snd]; [|done].
    eapply Htrans; [apply Hgate|]. apply Ht.
    by apply is_candidate_iff in Hcand as [? _].
Qed.

Lemma main_loop_relation (R : LoopState → LoopState → Prop)
    (cfg : Config) (names : gmap Z string) :
  (∀ s, R s s) →
  (∀ s1 s2 s3, R s1 s2 → R s2 s3 → R s1 s3) →
  (∀ s c, R s (set_console c s)) →
  (∀ s d, R s (set_detected_animals d s)) →
  (∀ s r, R s (set_rectangles r s)) →
  (∀ s m, R s (set_last_alert_time m s)) →
  (∀ s n, R s (set_frame_count n s)) →
  (∀ label env confidence s,
     label ∈ TARGET_ANIMALS cfg →
     R s (trigger_alert cfg env label confidence s).2) →
  ∀ frames s, R s (main_loop cfg names frames s).2.
Proof.
  intros Hrefl Htrans Hc Hd Hr Hm Hf Ht frames s.
  assert (Hit : ∀ fr s0, R s0 (loop_iteration cfg names fr s0).2).
  { intros fr s0. unfold loop_iteration, modify, mbind, M_bind. simpl.
    eapply Htrans; [apply (Hf s0 (S (frame_count s0)))|].
    destruct (resize cfg _) as [[ps|e] s1] eqn:Hres.
    - assert (s1 = set_frame_count (S (frame_count s0)) s0) as ->.
      { unfold resize in Hres. destruct (_ && _)%bool; by injection Hres. }
      eapply Htrans; [apply Hd|].
      apply for_each_invariant; [done|done|].
      intros be _ s2. by apply process_box_relation.
    - assert (s1 = set_frame_count (S (frame_count s0)) s0) as ->.
      { unfold resize in Hres. destruct (_ && _)%bool; by injection Hres. }
      apply Hrefl. }
  unfold main_loop, try_except.
  pose proof (for_each_invariant R (loop_iteration cfg names) frames Hrefl
    Htrans (λ fr _ s0, Hit fr s0) s) as Hall.
  destruct (for_each _ _ _) as [[[]|e] s1]; simpl in *; [done|].
  eapply Htrans; [apply Hall|]. apply Hc.
Qed.

(** The rows of one dispatch. *)
Lemma save_to_database_rows (cfg : Config) (env : BoxEnv) (label : string)
    (s : LoopState) :
  threads (save_to_database cfg env label s).2 = threads s ∧
  ∃ d a,
    detections (save_to_database cfg env label s).2 = (detections s ++ d)%list ∧
    alerts (save_to_database cfg env label s).2 = (alerts s ++ a)%list ∧
    Forall (eq (detection_row cfg label)) d ∧
    Forall (eq (alert_row cfg label)) a.
Proof.
  destruct s. destruct env as [t ts oim ir sf ee df af].
  unfold detection_row, alert_row.
  destruct df as [[]|], af as [[]|]; loop_run; simpl.
  all: split; [done|].
  all: eexists _, _; split; [appended|split; [appended|]].
  all: split; repeat constructor.
Qed.

(** What one dispatch changes, apart from the console. *)
Lemma trigger_alert_dispatch (cfg : Config) (env : BoxEnv) (label : string)
    (confidence : Q) (s : LoopState) :
  let s' := (trigger_alert cfg env label confidence s).2 in
  let mail := send_email_alert (EMAIL_CONFIG cfg) (email_env env) label
                confidence (saved_image_path cfg env label) [] in
  threads s' = (threads s ++ [SoundThread label (sound_fails env);
                              EmailThread mail.1 mail.2])%list ∧
  ∃ d a,
    detections s' = (detections s ++ d)%list ∧
    alerts s' = (alerts s ++ a)%list ∧
    Forall (eq (detection_row cfg label)) d ∧
    Forall (eq (alert_row cfg label)) a.
Proof.
  unfold trigger_alert, start_thread, print, modify, mbind, M_bind. simpl.
  assert (Himg : ∀ s0, ∃ c,
    save_detection_image cfg env label s0
      = (Ok (saved_image_path cfg env label), set_console c s0)).
  { intros s0. unfold saved_image_path. destruct s0.
    loop_run. simpl.
    destruct (default true _); simpl; [|by eexists].
    destruct (on_imwrite env); simpl; by eexists. }
  match goal with |- context [save_detection_image cfg env label ?s0] =>
    destruct (Himg s0) as (c & ->)
  end.
  destruct (send_email_alert _ _ _ _ _ _) as [r evs].
  match goal with |- context [save_to_database cfg env label ?s0] =>
    destruct (save_to_database_rows cfg env label s0)
      as (Hth & d & a & Hd & Ha & Hfd & Hfa)
  end.
  rewrite Hth. split; [destruct s; simpl; by rewrite <- app_assoc|].
  exists d, a. rewrite Hd, Ha. by destruct s.
Qed.

Lemma rows_of_targets_refl cfg s : rows_of_targets cfg s s.
Proof. exists [], []. by rewrite !app_nil_r. Qed.

Lemma rows_of_targets_trans cfg s1 s2 s3 :
  rows_of_targets cfg s1 s2 → rows_of_targets cfg s2 s3 →
  rows_of_targets cfg s1 s3.
Proof.
  intros (d1 & a1 & Hd1 & Ha1 & Fd1 & Fa1) (d2 & a2 & Hd2 & Ha2 & Fd2 & Fa2).
  exists (d1 ++ d2)%list, (a1 ++ a2)%list.
  rewrite Hd2, Hd1, Ha2, Ha1, <- !app_assoc.
  repeat split; by apply Forall_app.
Qed.

Lemma threads_per_alert_refl s : threads_per_alert s s.
Proof. exists []. rewrite app_nil_r. simpl. repeat split; lia. Qed.

Lemma threads_per_alert_trans s1 s2 s3 :
  threads_per_alert s1 s2 → threads_per_alert s2 s3 → threads_per_alert s1 s3.
Proof.
  intros (t1 & Ht1 & Hc1 & He1 & Hl1) (t2 & Ht2 & Hc2 & He2 & Hl2).
  exists (t1 ++ t2)%list.
  rewrite Ht2, Ht1, Hc2, Hc1, <- app_assoc, !List.filter_app, !length_app.
  repeat split; lia.
Qed.

Lemma rows_of_targets_same cfg s s' :
  detections s' = detections s → alerts s' = alerts s →
  rows_of_targets cfg s s'.
Proof. intros Hd Ha. exists [], []. by rewrite Hd, Ha, !app_nil_r. Qed.

Lemma threads_per_alert_same s s' :
  threads s' = threads s → detection_count s' = detection_count s →
  threads_per_alert s s'.
Proof.
  intros Ht Hc. exists []. rewrite Ht, Hc, app_nil_r. simpl. repeat split; lia.
Qed.

Lemma main_loop_rows_of_targets (cfg : Config) (names : gmap Z string)
    (frames : list Frame) (s : LoopState) :
  rows_of_targets cfg s (main_loop cfg names frames s).2.
Proof.
  apply main_loop_relation.
  - apply rows_of_targets_refl.
  - apply rows_of_targets_trans.
  - intros s0 c. by apply rows_of_targets_same; destruct s0.
  - intros s0 c. by apply rows_of_targets_same; destruct s0.
  - intros s0 c. by apply rows_of_targets_same; destruct s0.
  - intros s0 c. by apply rows_of_targets_same; destruct s0.
  - intros s0 c. by apply rows_of_targets_same; destruct s0.
  - intros label env confidence s0 Hl.
    destruct (trigger_alert_dispatch cfg env label confidence s0)
      as (_ & d & a & Hd & Ha & Fd & Fa).
    exists d, a. repeat split; try done.
    + eapply Forall_impl; [exact Fd|]. intros r <-. by exists label.
    + eapply Forall_impl; [exact Fa|]. intros r <-. by exists label.
Qed.

Lemma main_loop_threads_per_alert (cfg : Config) (names : gmap Z string)
    (frames : list Frame) (s : LoopState) :
  threads_per_alert s (main_loop cfg names frames s).2.
Proof.
  apply main_loop_relation.
  - apply threads_per_alert_refl.
  - apply threads_per_alert_trans.
  - intros s0 c. by apply threads_per_alert_same; destruct s0.
  - intros s0 c. by apply threads_per_alert_same; destruct s0.
  - intros s0 c. by apply threads_per_alert_same; destruct s0.
  - intros s0 c. by apply threads_per_alert_same; destruct s0.
  - intros s0 c. by apply threads_per_alert_same; destruct s0.
  - intros label env confidence s0 Hl.
    destruct (trigger_alert_dispatch cfg env label confidence s0) as (Ht & _).
    destruct (trigger_alert_effect cfg env label confidence s0)
      as (_ & _ & Hc & _).
    eexists. split; [exact Ht|]. simpl. rewrite Hc. repeat split; lia.
Qed.


(** X5.  With a positive configured frame size, a run puts to the cooldown
    gate exactly the boxes that pass the filter, in the order the
    classifier gave them, frame after frame: the cooldown state after the
    run is the one those calls leave, the alerts counted are the calls
    answered [true], and every frame is processed. *)
Theorem main_loop_follows_gate (cfg : Config) (names : gmap Z string)
    (frames : list Frame) (s : LoopState) :
  frame_size_ok cfg →
  let calls := candidate_calls cfg names (concat (boxes <$> frames)) in
  let s' := (main_loop cfg names frames s).2 in
  last_alert_time s' = (gate_calls cfg calls (last_alert_time s)).2 ∧
  detection_count s'
    = (detection_count s + count_true (gate_calls cfg calls (last_alert_time s)).1)%nat ∧
  frame_count s' = (frame_count s + length frames)%nat.
Proof.
  intros Hok. cbv zeta. unfold main_loop, try_except.
  destruct (frames_gate cfg names frames Hok s) as (Hr & Hl & Hk & Hf).
  destruct (for_each _ _ _) as [[[]|e] s1]; simpl in *; done.
Qed.

(** Three dogs at 1000 s, 1030 s and 1061 s with the cooldown of 60 s. *)
Lemma main_loop_follows_gate_witness :
  frame_size_ok config_py ∧
  detection_count (main_loop config_py coco_names
    [dog_frame 1000 None None; dog_frame 1030 None None;
     dog_frame 1061 None None] initial_state).2
    = (0 + count_true (gate_calls config_py
         [("dog", 1000%Q); ("dog", 1030%Q); ("dog", 1061%Q)] ∅).1)%nat.
Proof.
  assert (Hok : frame_size_ok config_py) by (by split).
  split; [exact Hok|].
  exact (proj1 (proj2 (main_loop_follows_gate config_py coco_names
    [dog_frame 1000 None None; dog_frame 1030 None None;
     dog_frame 1061 None None] initial_state Hok))).
Defined.

(** X7.  Every row a run writes belongs to an alert for a target animal:
    a detection row has the configured user (1 by default), the
    capitalised label of a target animal and the location "Camera Feed";
    an alert row has the same user, the message of that animal and the
    type "danger".  Rows are appended; none is changed or removed. *)
Theorem main_loop_rows (cfg : Config) (names : gmap Z string)
    (frames : list Frame) (s : LoopState) :
  ∃ d a,
    detections (main_loop cfg names frames s).2 = (detections s ++ d)%list ∧
    alerts (main_loop cfg names frames s).2 = (alerts s ++ a)%list ∧
    Forall (λ r, ∃ l, l ∈ TARGET_ANIMALS cfg ∧ r = detection_row cfg l) d ∧
    Forall (λ r, ∃ l, l ∈ TARGET_ANIMALS cfg ∧ r = alert_row cfg l) a.
Proof. exact (main_loop_rows_of_targets cfg names frames s). Qed.

(** X8.  A run starts one sound thread and one e-mail thread for each
    alert it counts, and no other thread. *)
Theorem main_loop_threads (cfg : Config) (names : gmap Z string)
    (frames : list Frame) (s : LoopState) :
  ∃ t,
    threads (main_loop cfg names frames s).2 = (threads s ++ t)%list ∧
    detection_count (main_loop cfg names frames s).2
      = (detection_count s + length (List.filter is_sound_thread t))%nat ∧
    length (List.filter is_email_thread t)
      = length (List.filter is_sound_thread t) ∧
    length t = (2 * length (List.filter is_sound_thread t))%nat.
Proof. exact (main_loop_threads_per_alert cfg names frames s). Qed.

(** Without a path the channel opens no file. *)
Lemma send_email_alert_no_path (cfg : EmailConfig) (env : EmailEnv)
    (animal_type : string) (confidence : Q) :
  count_events is_open_image
    (send_email_alert cfg env animal_type confidence None []).2 = 0%nat.
Proof. unfold count_events. email_paths cfg env; done. Qed.

(** What [cv2.imwrite] returns changes nothing of an alert. *)
Lemma trigger_alert_imwrite_returns (cfg : Config) (env : BoxEnv)
    (label : string) (confidence : Q) (s : LoopState) (b : bool) :
  trigger_alert cfg (set_imwrite_returns b env) label confidence s
    = trigger_alert cfg env label confidence s.
Proof. reflexivity. Qed.

(** X9.  A triggered alert starts the sound thread for its label and then
    the e-mail thread, which is given the path of the image saved for it,
    [os.path.join(folder, detection_<label>_<timestamp>.jpg)]; when saving
    images is switched off or the save raised, the e-mail is given no path
    and opens no file.  What [cv2.imwrite] returns is not read: a write
    that fails without raising hands on the same path, and leaves the same
    state, as one that succeeds. *)
Theorem alert_dispatch (cfg : Config) (env : BoxEnv) (label : string)
    (confidence : Q) (s : LoopState) :
  let mail := send_email_alert (EMAIL_CONFIG cfg) (email_env env) label
                confidence (saved_image_path cfg env label) [] in
  threads (trigger_alert cfg env label confidence s).2
    = (threads s ++ [SoundThread label (sound_fails env);
                     EmailThread mail.1 mail.2])%list ∧
  (default true (save_detection_images (DETECTION_CONFIG cfg)) = false ∨
   is_Some (on_imwrite env) →
   saved_image_path cfg env label = None ∧
   count_events is_open_image mail.2 = 0%nat) ∧
  (default true (save_detection_images (DETECTION_CONFIG cfg)) = true →
   on_imwrite env = None →
   saved_image_path cfg env label
     = Some (path_join
               (default "detections" (detections_folder (DETECTION_CONFIG cfg)))
               ("detection_" ++ label ++ "_" ++ timestamp env ++ ".jpg"))) ∧
  (∀ b : bool,
     saved_image_path cfg (set_imwrite_returns b env) label
       = saved_image_path cfg env label ∧
     trigger_alert cfg (set_imwrite_returns b env) label confidence s
       = trigger_alert cfg env label confidence s).
Proof.
  cbv zeta. split; [apply trigger_alert_dispatch|]. split; [|split].
  - intros Hoff.
    assert (saved_image_path cfg env label = None) as ->.
    { unfold saved_image_path. destruct Hoff as [->|[e ->]]; [done|].
      by rewrite andb_false_r. }
    split; [done|]. apply send_email_alert_no_path.
  - intros Hon Hw. unfold saved_image_path. by rewrite Hon, Hw.
  - intros b. split; [reflexivity|apply trigger_alert_imwrite_returns].
Qed.

(** [config.py] and an image written, also when [cv2.imwrite] reports
    that it was not. *)
Lemma alert_dispatch_witness :
  (default true (save_detection_images (DETECTION_CONFIG config_py)) = true ∧
   on_imwrite (set_imwrite_returns false (box_env 1000 None None)) = None) ∧
  saved_image_path config_py (set_imwrite_returns false (box_env 1000 None None))
    "dog"
    = Some "detections/detection_dog_20251126_103000.jpg".
Proof.
  split; [by split|].
  exact (proj1 (proj2 (proj2 (alert_dispatch config_py
    (set_imwrite_returns false (box_env 1000 None None)) "dog"
    (0.9)%Q initial_state))) eq_refl eq_refl).
Defined.

(** The labels a box adds to [detected_animals]. *)
Lemma process_box_detected cfg names fs ps be s :
  detected_animals (process_box cfg names fs ps be s).2
    = list_to_set (option_list (candidate_call cfg names be)).*1
        ∪ detected_animals s.
Proof.
  destruct be as [box env]. unfold candidate_call. simpl.
  destruct (names !! cls box) as [name|] eqn:Hn.
  2: { rewrite process_box_unnamed by done. simpl.
       rewrite (left_id_L ∅ (∪)). by destruct s. }
  destruct (is_candidate cfg (lower name) (conf box)) eqn:Hc.
  2: { rewrite (process_box_rejected _ _ _ _ _ _ _ name) by done. simpl.
       by rewrite (left_id_L ∅ (∪)). }
  simpl. rewrite (right_id_L ∅ (∪)).
  destruct (decide (ps.1 = 0%Z ∨ ps.2 = 0%Z)) as [Hz|Hnz].
  - rewrite (process_box_zero_shape _ _ _ _ _ _ _ name) by done. by destruct s.
  - by destruct (process_box_candidate_fields cfg names fs ps box env s name)
      as (Hd & _); [done|done|tauto|tauto|].
Qed.

Lemma boxes_detected cfg names fs ps bs :
  ∀ s,
    detected_animals (for_each (process_box cfg names fs ps) bs s).2
      = list_to_set (candidate_calls cfg names bs).*1 ∪ detected_animals s.
Proof.
  induction bs as [|be bs IH]; intros s.
  - simpl. by rewrite (left_id_L ∅ (∪)).
  - rewrite for_each_process_box_step, IH, process_box_detected.
    rewrite candidate_calls_cons, fmap_app, list_to_set_app_L.
    rewrite (assoc_L (∪)). f_equal. apply (comm_L (∪)).
Qed.

Lemma candidate_calls_targets cfg names bs l t :
  (l, t) ∈ candidate_calls cfg names bs → l ∈ TARGET_ANIMALS cfg.
Proof.
  unfold candidate_calls. intros (be & _ & Hc)%list_elem_of_omap.
  unfold candidate_call in Hc.
  destruct (names !! cls be.1) as [name|]; [|done].
  destruct (is_candidate cfg (lower name) (conf be.1)) eqn:Hcand; [|done].
  injection Hc as <- _. by apply is_candidate_iff in Hcand as [? _].
Qed.

(** X6.  With a positive configured frame size, [detected_animals] after
    one turn of the loop is the set of the labels of the boxes of that
    frame that passed the filter, whatever the cooldown state: a suppressed
    repeat is still shown as detected.  Every label in it is a target
    animal. *)
Theorem loop_iteration_detected (cfg : Config) (names : gmap Z string)
    (fr : Frame) (s : LoopState) :
  frame_size_ok cfg →
  detected_animals (loop_iteration cfg names fr s).2
    = list_to_set (candidate_calls cfg names (boxes fr)).*1 ∧
  ∀ l, l ∈ detected_animals (loop_iteration cfg names fr s).2 →
       l ∈ TARGET_ANIMALS cfg.
Proof.
  intros Hok.
  destruct (loop_iteration_sized cfg names fr s Hok) as (ps & _ & _ & ->).
  rewrite boxes_detected.
  assert (detected_animals
    (set_detected_animals ∅ (set_frame_count (S (frame_count s)) s)) = ∅)
    as -> by by destruct s.
  rewrite (right_id_L ∅ (∪)). split; [done|].
  intros l Hl. apply elem_of_list_to_set, list_elem_of_fmap in Hl
    as ([l' t] & -> & Hin).
  by apply candidate_calls_targets in Hin.
Qed.

(** X10.  A candidate whose label alerted less than a cooldown ago is
    drawn and noted, and nothing else: the state of the loop changes in
    [detected_animals] and in the drawn rectangles only, so no alert is
    counted, no image saved, no thread started, no row written and no line
    printed. *)
Theorem process_box_suppressed (cfg : Config) (names : gmap Z string)
    (fs ps : Z * Z) (box : Box) (env : BoxEnv) (s : LoopState)
    (name : string) (last : Q) :
  names !! cls box = Some name →
  is_candidate cfg (lower name) (conf box) = true →
  ps.1 ≠ 0%Z → ps.2 ≠ 0%Z →
  last_alert_time s !! lower name = Some last →
  (time_time env - last < get_alert_cooldown cfg)%Q →
  process_box cfg names fs ps (box, env) s
    = (Ok tt,
       set_rectangles (rectangles s ++ [scaled fs ps (xyxy box)])%list
         (set_detected_animals ({[lower name]} ∪ detected_animals s) s)).
Proof.
  intros Hn Hc H1 H2 Hlast Hlt.
  rewrite (process_box_candidate _ _ _ _ _ _ _ name) by done.
  unfold after_gate.
  rewrite (should_send_alert_suppressed cfg _ _ last) by done.
  by destruct s.
Qed.

(** X11.  With a configured frame width or height that is not positive,
    resizing the first frame raises: the loop counts that frame, prints the
    error and ends; whatever the frames hold, nothing is detected and no
    alert is raised. *)
Theorem main_loop_bad_frame_size (cfg : Config) (names : gmap Z string)
    (fr : Frame) (frames : list Frame) (s : LoopState) :
  ¬ frame_size_ok cfg →
  main_loop cfg names (fr :: frames) s
    = (Ok tt,
       set_console (console s ++ ["Error during detection"])%list
         (set_frame_count (S (frame_count s)) s)).
Proof.
  intros Hbad. unfold main_loop, try_except. rewrite for_each_cons.
  unfold loop_iteration, modify, mbind, M_bind. simpl.
  rewrite resize_fails by done. reflexivity.
Qed.

Lemma loop_iteration_detected_witness :
  frame_size_ok config_py ∧
  detected_animals (loop_iteration config_py coco_names
    (dog_frame 1030 None None) state_after_dog_alert).2 = {["dog"]}.
Proof.
  assert (Hok : frame_size_ok config_py) by (by split).
  split; [exact Hok|].
  rewrite (proj1 (loop_iteration_detected config_py coco_names
    (dog_frame 1030 None None) state_after_dog_alert Hok)).
  reflexivity.
Defined.

Lemma process_box_suppressed_witness :
  (coco_names !! 16%Z = Some "dog" ∧
   is_candidate config_py "dog" (0.9)%Q = true ∧
   last_alert_time state_after_dog_alert !! "dog" = Some 1000%Q ∧
   (1030 - 1000 < get_alert_cooldown config_py)%Q) ∧
  process_box config_py coco_names (720, 1280)%Z (480, 640)%Z
    (dog_box (0.9)%Q (100, 100, 200, 200)%Q, box_env 1030 None None)
    state_after_dog_alert
    = (Ok tt,
       set_rectangles [(200, 150, 400, 300)%Z]
         (set_detected_animals {["dog"]} state_after_dog_alert)).
Proof.
  assert (Hlt : (1030 - 1000 < get_alert_cooldown config_py)%Q) by by vm_compute.
  split; [by repeat split|].
  rewrite (process_box_suppressed config_py coco_names (720, 1280)%Z
    (480, 640)%Z (dog_box (0.9)%Q (100, 100, 200, 200)%Q)
    (box_env 1030 None None) state_after_dog_alert "dog" 1000%Q);
    [reflexivity | reflexivity | reflexivity | discriminate | discriminate
    | reflexivity | exact Hlt].
Defined.

Lemma main_loop_bad_frame_size_witness :
  ¬ frame_size_ok config_zero_width ∧
  main_loop config_zero_width coco_names
    [dog_frame 1000 None None; dog_frame 1061 None None] initial_state
    = (Ok tt,
       set_console ["Error during detection"]
         (set_frame_count 1 initial_state)).
Proof.
  assert (Hbad : ¬ frame_size_ok config_zero_width) by (by intros [? _]).
  split; [exact Hbad|].
  exact (main_loop_bad_frame_size config_zero_width coco_names
    (dog_frame 1000 None None) [dog_frame 1061 None None] initial_state Hbad).
Defined.


(* ===================================================================== *)
(** * Properties of the sound channel                                     *)
(* ===================================================================== *)

(** The beeps, when none raises. *)
Lemma beep_loop_ok env f d n : ∀ i tr,
  (∀ j, (i ≤ j < i + n)%nat → on_beep env j = None) →
  beep_loop env f d i n tr
    = (Ok tt, (tr ++ concat (replicate n [SndBeep f d; SndSleep]))%list).
Proof.
  induction n as [|n IH]; intros i tr Hok.
  - simpl. by rewrite app_nil_r.
  - simpl. unfold sound_attempt, sound_emit, modify, outcome, mbind, M_bind,
      mret, M_ret. simpl.
    rewrite (Hok i) by lia. rewrite IH by (intros j Hj; apply Hok; lia).
    by rewrite <- !app_assoc.
Qed.

(** The beeps up to the first that raises. *)
Lemma beep_loop_raises env f d n e : ∀ i k tr,
  (k < n)%nat →
  (∀ j, (i ≤ j < i + k)%nat → on_beep env j = None) →
  on_beep env (i + k) = Some e →
  beep_loop env f d i n tr
    = (Raise e, (tr ++ concat (replicate k [SndBeep f d; SndSleep])
                    ++ [SndBeep f d])%list).
Proof.
  induction n as [|n IH]; intros i k tr Hk Hok He; [lia|].
  simpl. unfold sound_attempt, sound_emit, modify, outcome, mbind, M_bind,
    mret, M_ret, mthrow, M_throw. simpl.
  destruct k as [|k].
  - rewrite Nat.add_0_r in He. rewrite He. done.
  - rewrite (Hok i) by lia.
    rewrite (IH (S i) k); [|lia| |].
    + simpl. by rewrite <- !app_assoc.
    + intros j Hj. apply Hok. lia.
    + by replace (S i + k)%nat with (i + S k)%nat by lia.
Qed.

Ltac sound_run :=
  unfold play_sound_alert, play_sound_file, beep_fallback, sound_attempt,
    sound_emit, try_except, outcome, modify, mbind, M_bind, mret, M_ret,
    mthrow, M_throw; simpl.

(** The fallback never raises and starts no player. *)
Lemma beep_loop_events env f d n : ∀ i tr,
  ∃ r new, beep_loop env f d i n tr = (r, (tr ++ new)%list) ∧
           List.filter is_player new = [].
Proof.
  induction n as [|n IH]; intros i tr.
  - exists (Ok tt), []. simpl. by rewrite app_nil_r.
  - simpl. unfold sound_attempt, sound_emit, modify, outcome, mbind, M_bind,
      mret, M_ret, mthrow, M_throw. simpl.
    destruct (on_beep env i) as [e|].
    + by exists (Raise e), [SndBeep f d].
    + destruct (IH (S i) ((tr ++ [SndBeep f d]) ++ [SndSleep])%list)
        as (r & new & -> & Hnew).
      exists r, ([SndBeep f d; SndSleep] ++ new)%list. split.
      * by rewrite <- !app_assoc.
      * done.
Qed.

Lemma beep_fallback_events scfg env tr :
  ∃ new, beep_fallback scfg env tr = (Ok tt, (tr ++ new)%list) ∧
         List.filter is_player new = [].
Proof.
  unfold beep_fallback, try_except, mbind, M_bind, mret, M_ret, mthrow, M_throw.
  destruct (winsound_available env); simpl.
  - destruct (beep_loop_events env (default 1000%Z (beep_frequency scfg))
      (default 500%Z (beep_duration scfg))
      (Z.to_nat (default 3%Z (beep_count scfg))) 0%nat tr)
      as ([[]|e] & new & -> & Hnew); simpl.
    + eexists. unfold sound_emit, modify. rewrite <- app_assoc.
      split; [reflexivity|]. by rewrite List.filter_app, Hnew.
    + destruct (is_import_error e); unfold sound_emit, modify;
        rewrite <- app_assoc; eexists; (split; [reflexivity|]);
        by rewrite List.filter_app, Hnew.
  - by eexists.
Qed.

(** X12.  [play_sound_alert] never raises.  With sound switched off it
    does nothing at all.  Otherwise the players it starts are decided by the
    sound file of the animal: none when the animal has no file on disk (or
    no animal was given), PowerShell alone when PowerShell starts, PowerShell
    and then ffplay when PowerShell fails, always on that file; and once
    either player has returned, no beep follows. *)
Theorem play_sound_alert_players (scfg : SoundConfig) (env : SoundEnv)
    (animal_type : option string) :
  let r := play_sound_alert scfg env animal_type [] in
  r.1 = Ok tt ∧
  (default true (sound_enabled scfg) = false → r.2 = []) ∧
  (default true (sound_enabled scfg) = true →
   List.filter is_player r.2 =
     match sound_file_for env animal_type with
     | None => []
     | Some f =>
         if on_sound_popen env is None then [SndPopen f]
         else [SndPopen f; SndFfplay f]
     end) ∧
  (∀ f, sound_file_for env animal_type = Some f →
        on_sound_popen env = None ∨ on_ffplay env = None →
        List.filter is_beep r.2 = []).
Proof.
  cbv zeta. unfold play_sound_alert, sound_file_for.
  destruct (default true (sound_enabled scfg)) eqn:Hen; simpl.
  2: { unfold mret, M_ret. simpl. by repeat split. }
  unfold mbind, M_bind.
  destruct (beep_fallback_events scfg env []) as (new & Hnew & Hpl).
  simpl in Hnew.
  destruct (truthy animal_type) eqn:Ht; simpl.
  2: { unfold mret, M_ret. simpl. rewrite Hnew. by repeat split. }
  destruct (load_sound_file env (default "" animal_type)) as [f|] eqn:Hf; simpl.
  2: { unfold mret, M_ret. simpl. rewrite Hnew. by repeat split. }
  unfold play_sound_file, sound_attempt, sound_emit, try_except, outcome,
    modify, mbind, M_bind, mret, M_ret, mthrow, M_throw. simpl.
  destruct (on_sound_popen env) as [e1|] eqn:Hp; simpl.
  2: { repeat split; try done. }
  destruct (on_ffplay env) as [e2|] eqn:Hff; simpl.
  2: { repeat split; try done. }
  destruct (beep_fallback_events scfg env
    [SndPopen f; SndFfplay f;
     SndPrint ("Could not play " ++ f ++ ", falling back to beep")])
    as (new' & -> & Hpl').
  simpl. rewrite Hpl'. repeat split; try done.
  intros f' _ [?|?]; done.
Qed.

(** X13.  The beep fallback never raises.  Without [winsound] it prints one
    line and beeps nothing; when every beep returns it beeps the configured
    number of times (3 by default, none for a count that is not positive)
    at the configured frequency and duration, each beep followed by the
    pause, and reports the alert as played; when a beep raises, the beeps
    stop there: the failed beep is the last, no pause follows it and one
    line is printed in place of the report. *)
Theorem beep_fallback_trace (scfg : SoundConfig) (env : SoundEnv) :
  let f := default 1000%Z (beep_frequency scfg) in
  let d := default 500%Z (beep_duration scfg) in
  let n := Z.to_nat (default 3%Z (beep_count scfg)) in
  (winsound_available env = false →
   beep_fallback scfg env []
     = (Ok tt, [SndPrint "Sound alert not available on this platform"])) ∧
  (winsound_available env = true →
   (∀ j, (j < n)%nat → on_beep env j = None) →
   beep_fallback scfg env []
     = (Ok tt, (concat (replicate n [SndBeep f d; SndSleep])
                ++ [SndPrint "Sound alert played (beep)"])%list)) ∧
  (winsound_available env = true →
   ∀ k e, (k < n)%nat → (∀ j, (j < k)%nat → on_beep env j = None) →
          on_beep env k = Some e →
          ∃ line,
            beep_fallback scfg env []
              = (Ok tt, (concat (replicate k [SndBeep f d; SndSleep])
                         ++ [SndBeep f d; SndPrint line])%list)).
Proof.
  cbv zeta. unfold beep_fallback, try_except, mbind, M_bind, mret, M_ret,
    mthrow, M_throw.
  split; [|split].
  - intros ->. reflexivity.
  - intros -> Hok. simpl.
    rewrite beep_loop_ok by (intros j Hj; apply Hok; lia). reflexivity.
  - intros -> k e Hk Hok He. simpl.
    rewrite (beep_loop_raises env _ _ _ e 0 k) by (done || (intros j Hj; apply Hok; lia)).
    unfold sound_emit, modify. simpl.
    destruct (is_import_error e); eexists; by rewrite <- app_assoc.
Qed.

(* ===================================================================== *)
(** * Properties of the users table                                       *)
(* ===================================================================== *)

Lemma row_dict_password (r : UserRow) :
  row_dict r !! "password" = Some (VText (user_password r)).
Proof. by vm_compute. Qed.

Lemma public_dict_no_password (r : UserRow) :
  public_dict r !! "password" = None.
Proof. by vm_compute. Qed.

(** Dropping the hash from [SELECT *] gives the columns [create_user]
    selects. *)
Lemma without_password_row_dict (r : UserRow) :
  without_password (row_dict r) = public_dict r.
Proof.
  apply map_eq. intros k. unfold without_password.
  rewrite map_lookup_filter. unfold row_dict, public_dict.
  destruct (decide (k = "password")) as [->|Hk].
  - vm_compute. done.
  - destruct (decide (k = "id")) as [->|?]; [by vm_compute|].
    destruct (decide (k = "name")) as [->|?]; [by vm_compute|].
    destruct (decide (k = "email")) as [->|?]; [by vm_compute|].
    destruct (decide (k = "location")) as [->|?]; [by vm_compute|].
    destruct (decide (k = "created_at")) as [->|?]; [by vm_compute|].
    rewrite !lookup_insert_ne by done. rewrite !lookup_singleton_ne by done.
    done.
Qed.

Lemma largest_rowid_bound (rows : list UserRow) :
  Forall (λ r, (user_row_id r ≤ largest_rowid rows)%Z) rows.
Proof.
  induction rows as [|r rows IH]; [constructor|].
  unfold largest_rowid in *. rewrite fmap_cons. cbn [foldr]. constructor.
  - lia.
  - eapply Forall_impl; [exact IH|]. intros r' Hr'. simpl in Hr'. lia.
Qed.

Lemma next_rowid_fresh (t : UsersTable) :
  Forall (λ r, (user_row_id r < next_rowid t)%Z) (user_rows t).
Proof.
  eapply Forall_impl; [apply largest_rowid_bound|].
  intros r Hr. simpl in Hr. unfold next_rowid. lia.
Qed.

Lemma find_email_app email (rows : list UserRow) row :
  email ∉ user_email <$> rows →
  user_email row = email →
  List.find (λ r, bool_decide (user_email r = email)) (rows ++ [row])
    = Some row.
Proof.
  intros Hnot Hrow. induction rows as [|r rows IH]; simpl.
  - by rewrite bool_decide_true.
  - rewrite fmap_cons, not_elem_of_cons in Hnot. destruct Hnot as [Hne Hnot].
    rewrite bool_decide_false by done. by apply IH.
Qed.

Lemma find_email_other other (rows : list UserRow) row :
  user_email row ≠ other →
  List.find (λ r, bool_decide (user_email r = other)) (rows ++ [row])
    = List.find (λ r, bool_decide (user_email r = other)) rows.
Proof.
  intros Hne. induction rows as [|r rows IH]; simpl.
  - by rewrite bool_decide_false.
  - by destruct (bool_decide _).
Qed.

Lemma find_id_app (id : Z) (rows : list UserRow) row :
  Forall (λ r, (user_row_id r < id)%Z) rows →
  user_row_id row = id →
  List.find (λ r, bool_decide (user_row_id r = id)) (rows ++ [row]) = Some row.
Proof.
  intros Hall Hrow. induction Hall as [|r rows Hr Hall IH]; simpl.
  - by rewrite bool_decide_true.
  - rewrite bool_decide_false by lia. done.
Qed.

Lemma select_user_by_email_Some email t r :
  select_user_by_email email t = Some r →
  r ∈ user_rows t ∧ user_email r = email.
Proof.
  unfold select_user_by_email. intros Hf.
  apply List.find_some in Hf as [Hin Hb].
  split; [by apply list_elem_of_In|]. by apply bool_decide_eq_true in Hb.
Qed.

Lemma select_user_by_email_None email t :
  email ∉ user_email <$> user_rows t →
  select_user_by_email email t = None.
Proof.
  unfold select_user_by_email. intros Hnot.
  induction (user_rows t) as [|r rows IH]; [done|]. simpl.
  rewrite fmap_cons, not_elem_of_cons in Hnot. destruct Hnot as [Hne Hnot].
  rewrite bool_decide_false by done. by apply IH.
Qed.

Section PasswordsFacts.

Variable generate_password_hash : string → string → string.
Variable check_password_hash : string → string → bool.

Lemma create_user_fresh salt now name email password location t :
  write_locked t = false →
  email ∉ user_email <$> user_rows t →
  let row := new_user_row (generate_password_hash salt password) now
               name email location t in
  create_user generate_password_hash salt now name email password location t
    = (Ok (Some (public_dict row)),
       {| user_rows := user_rows t ++ [row];
          users_sequence := next_rowid t;
          write_locked := false |}).
Proof.
  intros Hfree Hnew. cbv zeta. unfold create_user, select_user_by_id.
  rewrite Hfree, bool_decide_false by done.
  cbn [user_rows user_row_id new_user_row].
  erewrite find_id_app; [done| |done]. apply next_rowid_fresh.
Qed.

(** The insert of an e-mail of the table: the connection is left open. *)
Lemma create_user_refused salt now name email password location t :
  write_locked t = false →
  email ∈ user_email <$> user_rows t →
  create_user generate_password_hash salt now name email password location t
    = (Ok None,
       {| user_rows := user_rows t; users_sequence := users_sequence t;
          write_locked := true |}).
Proof.
  intros Hfree Hin. unfold create_user. by rewrite Hfree, bool_decide_true.
Qed.

(** An insert while the write lock is held. *)
Lemma create_user_locked salt now name email password location t :
  write_locked t = true →
  create_user generate_password_hash salt now name email password location t
    = (Raise database_is_locked, t).
Proof. intros Hlock. unfold create_user. by rewrite Hlock. Qed.

Lemma create_user_keeps_ok salt now name email password location t :
  users_table_ok t →
  users_table_ok
    (create_user generate_password_hash salt now name email password location t).2.
Proof.
  intros Hok. unfold create_user.
  destruct (write_locked t); [done|].
  destruct (bool_decide_reflect (email ∈ user_email <$> user_rows t))
    as [Hin|Hnew]; [done|].
  destruct Hok as (He & Hi). unfold users_table_ok. cbv zeta.
  cbn [snd user_rows users_sequence].
  split.
  - rewrite fmap_app. apply NoDup_app. split; [done|]. split.
    + intros x Hx [->|H]%elem_of_cons; [done|by apply elem_of_nil in H].
    + apply NoDup_singleton.
  - rewrite fmap_app. apply NoDup_app. split; [done|]. split.
    + intros x Hx [->|H]%elem_of_cons; [|by apply elem_of_nil in H].
      apply list_elem_of_fmap in Hx as (r & Hr & Hin).
      pose proof (next_rowid_fresh t) as Hids.
      rewrite Forall_forall in Hids. apply Hids in Hin. simpl in *. lia.
    + apply NoDup_singleton.
Qed.

Lemma authenticate_user_found email password t r :
  select_user_by_email email t = Some r →
  authenticate_user check_password_hash email password t
    = if check_password_hash (user_password r) password
      then Some (public_dict r) else None.
Proof.
  intros Hsel. unfold authenticate_user, get_user_by_email.
  rewrite Hsel. cbn [fmap option_fmap option_map].
  rewrite row_dict_password.
  destruct (check_password_hash _ _); [|done].
  f_equal; apply without_password_row_dict.
Qed.

(** X14.  While no connection left open holds the write lock, a
    registration with an e-mail the table does not hold returns the public
    columns of the new row, whose id is above every id of the table and
    above the sequence; afterwards [get_user_by_email] finds that row under
    the e-mail, with the hash and not the password, every other e-mail is
    looked up as before, the rows of the table are the old ones followed by
    the new one, and no lock is left. *)
Theorem create_user_round_trip salt now name email password location t :
  write_locked t = false →
  email ∉ user_email <$> user_rows t →
  let row := new_user_row (generate_password_hash salt password) now
               name email location t in
  let r := create_user generate_password_hash salt now name email password
             location t in
  r.1 = Ok (Some (public_dict row)) ∧
  get_user_by_email email r.2 = Some (row_dict row) ∧
  (∀ other, other ≠ email →
     get_user_by_email other r.2 = get_user_by_email other t) ∧
  user_rows r.2 = (user_rows t ++ [row])%list ∧
  Forall (λ old, (user_row_id old < user_row_id row)%Z) (user_rows t) ∧
  (users_sequence t < user_row_id row)%Z ∧
  users_sequence r.2 = user_row_id row ∧
  write_locked r.2 = false.
Proof.
  intros Hfree Hnew. cbv zeta. rewrite create_user_fresh by done.
  cbn [fst snd]. unfold get_user_by_email, select_user_by_email.
  cbn [user_rows users_sequence write_locked user_row_id new_user_row].
  split; [done|].
  split; [|split; [|split; [done|split; [|split; [|split; done]]]]].
  - by rewrite find_email_app.
  - intros other Hne. by rewrite find_email_other.
  - apply next_rowid_fresh.
  - unfold next_rowid. lia.
Qed.

(** X15.  A registration with an e-mail that is in the table, made while
    no write lock is held, returns [None] and leaves the rows and the
    sequence as they were, but it leaves its connection open with the
    write lock.  While that lock is held every registration, whatever its
    e-mail, raises [OperationalError] and changes nothing; once the garbage
    collector has freed the lock, a registration under a new e-mail goes
    through again.  On every path [create_user] keeps the e-mails and the
    ids of the table pairwise different. *)
Theorem create_user_unique salt now name email password location t :
  (write_locked t = false → email ∈ user_email <$> user_rows t →
   create_user generate_password_hash salt now name email password location t
     = (Ok None,
        {| user_rows := user_rows t; users_sequence := users_sequence t;
           write_locked := true |})) ∧
  (write_locked t = true →
   create_user generate_password_hash salt now name email password location t
     = (Raise database_is_locked, t)) ∧
  (email ∉ user_email <$> user_rows t →
   (create_user generate_password_hash salt now name email password location
      (collect_garbage t)).1
     = Ok (Some (public_dict
                   (new_user_row (generate_password_hash salt password) now
                      name email location t)))) ∧
  (users_table_ok t →
   users_table_ok
     (create_user generate_password_hash salt now name email password
        location t).2).
Proof.
  split; [|split; [|split]].
  - apply create_user_refused.
  - apply create_user_locked.
  - intros Hnew. by rewrite create_user_fresh.
  - apply create_user_keeps_ok.
Qed.

(** X16.  What [authenticate_user] returns has no key [password]; it is the
    row [get_user_by_email] finds under the e-mail, without the hash, and
    the hash of that row checks against the password given.  An e-mail the
    table does not hold is never authenticated, whatever the check
    answers. *)
Theorem authenticate_user_result email password t :
  (∀ d, authenticate_user check_password_hash email password t = Some d →
     d !! "password" = None ∧
     ∃ r, r ∈ user_rows t ∧ user_email r = email ∧
          check_password_hash (user_password r) password = true ∧
          d = public_dict r ∧
          get_user_by_email email t = Some (row_dict r)) ∧
  (email ∉ user_email <$> user_rows t →
   authenticate_user check_password_hash email password t = None).
Proof.
  split.
  - intros d.
    destruct (select_user_by_email email t) as [r|] eqn:Hsel.
    2: { unfold authenticate_user, get_user_by_email. by rewrite Hsel. }
    rewrite (authenticate_user_found _ _ _ _ Hsel).
    destruct (check_password_hash (user_password r) password) eqn:Hc; [|done].
    intros Heq. apply (inj Some) in Heq. subst d.
    apply select_user_by_email_Some in Hsel as Hr. destruct Hr as [Hin He].
    split; [apply public_dict_no_password|]. exists r.
    unfold get_user_by_email. by rewrite Hsel.
  - intros Hnot. unfold authenticate_user, get_user_by_email.
    by rewrite select_user_by_email_None.
Qed.

Hypothesis check_generated :
  ∀ salt password,
    check_password_hash (generate_password_hash salt password) password = true.

(** X17.  When the check accepts every password against its own hash:
    after a registration with a new e-mail, made while no write lock is
    held, logging in with that e-mail and password returns what the
    registration returned, and logging in with any password the check
    rejects against the stored hash returns [None]. *)
Theorem authenticate_after_create salt now name email password location t :
  write_locked t = false →
  email ∉ user_email <$> user_rows t →
  let r := create_user generate_password_hash salt now name email password
             location t in
  Ok (authenticate_user check_password_hash email password r.2) = r.1 ∧
  (∃ d, r.1 = Ok (Some d)) ∧
  (∀ wrong,
     check_password_hash (generate_password_hash salt password) wrong = false →
     authenticate_user check_password_hash email wrong r.2 = None).
Proof.
  intros Hfree Hnew. cbv zeta. rewrite create_user_fresh by done.
  cbn [fst snd].
  set (row := new_user_row _ _ _ _ _ _).
  assert (select_user_by_email email
            {| user_rows := user_rows t ++ [row];
               users_sequence := next_rowid t;
               write_locked := false |} = Some row) as Hsel.
  { unfold select_user_by_email. cbn [user_rows]. by apply find_email_app. }
  split; [|split].
  - rewrite (authenticate_user_found _ _ _ _ Hsel).
    subst row. cbn [user_password new_user_row]. by rewrite check_generated.
  - by eexists.
  - intros wrong Hw. rewrite (authenticate_user_found _ _ _ _ Hsel).
    subst row. cbn [user_password new_user_row]. by rewrite Hw.
Qed.

End PasswordsFacts.

Lemma create_user_round_trip_witness :
  write_locked users_empty = false ∧
  ("a@b.c" ∉ (user_email <$> user_rows users_empty)) ∧
  (create_user toy_hash "salt" "2025-11-26 10:30:00" "Asha" "a@b.c" "secret"
     None users_empty).1
    = Ok (Some (public_dict
        (new_user_row "secret" "2025-11-26 10:30:00" "Asha" "a@b.c" None
           users_empty))).
Proof.
  assert ("a@b.c" ∉ (user_email <$> user_rows users_empty)) as Hnew
    by (intros H; by apply elem_of_nil in H).
  split; [reflexivity|]. split; [exact Hnew|].
  exact (proj1 (create_user_round_trip toy_hash "salt" "2025-11-26 10:30:00"
    "Asha" "a@b.c" "secret" None users_empty eq_refl Hnew)).
Defined.

(** After a refused registration the next one raises, whatever its e-mail,
    until the garbage is collected. *)
Lemma create_user_unique_witness :
  write_locked users_after_refusal = true ∧
  create_user toy_hash "salt" "2025-11-26 10:31:00" "Ben" "b@b.c" "pass" None
    users_after_refusal
    = (Raise database_is_locked, users_after_refusal) ∧
  (create_user toy_hash "salt" "2025-11-26 10:31:00" "Ben" "b@b.c" "pass" None
     (collect_garbage users_after_refusal)).1
    = Ok (Some (public_dict
        (new_user_row "pass" "2025-11-26 10:31:00" "Ben" "b@b.c" None
           users_after_refusal))).
Proof.
  assert ("b@b.c" ∉ (user_email <$> user_rows users_after_refusal)) as Hnew.
  { intros [H|H]%elem_of_cons; [discriminate H|by apply elem_of_nil in H]. }
  split; [reflexivity|]. split.
  - exact (proj1 (proj2 (create_user_unique toy_hash "salt"
      "2025-11-26 10:31:00" "Ben" "b@b.c" "pass" None users_after_refusal))
      eq_refl).
  - exact (proj1 (proj2 (proj2 (create_user_unique toy_hash "salt"
      "2025-11-26 10:31:00" "Ben" "b@b.c" "pass" None users_after_refusal)))
      Hnew).
Defined.

Lemma authenticate_after_create_witness :
  (∀ salt password, toy_check (toy_hash salt password) password = true) ∧
  write_locked users_empty = false ∧
  ("a@b.c" ∉ (user_email <$> user_rows users_empty)) ∧
  Ok (authenticate_user toy_check "a@b.c" "secret"
        (create_user toy_hash "salt" "2025-11-26 10:30:00" "Asha" "a@b.c"
           "secret" None users_empty).2)
  = (create_user toy_hash "salt" "2025-11-26 10:30:00" "Asha" "a@b.c" "secret"
       None users_empty).1.
Proof.
  assert (∀ salt password, toy_check (toy_hash salt password) password = true)
    as Hcheck by (intros salt password; by apply bool_decide_eq_true).
  assert ("a@b.c" ∉ (user_email <$> user_rows users_empty)) as Hnew
    by (intros H; by apply elem_of_nil in H).
  split; [exact Hcheck|]. split; [reflexivity|]. split; [exact Hnew|].
  exact (proj1 (authenticate_after_create toy_hash toy_check Hcheck "salt"
    "2025-11-26 10:30:00" "Asha" "a@b.c" "secret" None users_empty eq_refl
    Hnew)).
Defined.

(* ===================================================================== *)
(** * Properties of the start of the detection                            *)
(* ===================================================================== *)

(** What a stop asks, it asks of the tracked process, and first to
    terminate. *)
Lemma stop_addresses_tracked (env : ProcEnv) (p : nat) (log : list proc_event) :
  ∃ added,
    proc_log (stop_detection_background env
      {| detection_process := Some p; proc_log := log |}).2
      = (log ++ PTerminate p :: added)%list ∧
    Forall (λ ev, event_pid ev = Some p ∨ event_pid ev = None) added.
Proof.
  destruct env as [ot ow ok owt]. proc_run.
  destruct ot as [[]|]; simpl;
    try (destruct ok as [?|]; simpl;
         eexists; rewrite <- ?app_assoc; (split; [reflexivity|]);
         repeat constructor; simpl; auto; fail).
  all: destruct ow as [[]|]; simpl;
    try (destruct ok as [?|]; simpl; try (destruct owt as [?|]; simpl);
         eexists; rewrite <- ?app_assoc; (split; [reflexivity|]);
         repeat constructor; simpl; auto; fail).
  all: try (destruct ok as [?|]; simpl; try (destruct owt as [?|]; simpl);
         eexists; rewrite <- ?app_assoc; (split; [reflexivity|]);
         repeat constructor; simpl; auto; fail).
  all: eexists; rewrite <- ?app_assoc; (split; [reflexivity|]);
         repeat constructor; simpl; auto.
Qed.

(** X18.  [start_detection_background] does not stop the process it
    tracks: when one is tracked and the start succeeds, the new child is
    tracked in its place and the old one stays among the children; a stop
    that follows addresses the new child only, so nothing is ever asked of
    the old one, and leaves no process tracked. *)
Theorem start_orphans_tracked_child (senv : StartEnv) (penv : ProcEnv)
    (sender recipient : option string) (s : Supervisor) (old new : nat) :
  detection_process (camera s) = Some old →
  on_spawn senv = Ok new →
  new ≠ old →
  let s1 := (start_detection_background senv sender recipient s).2 in
  let s2 := (on_camera (stop_detection_background penv) s1).2 in
  detection_process (camera s1) = Some new ∧
  child_pid <$> children s2 = ((child_pid <$> children s) ++ [new])%list ∧
  detection_process (camera s2) = None ∧
  ∃ added,
    proc_log (camera s2) = (proc_log (camera s) ++ added)%list ∧
    PTerminate new ∈ added ∧
    Forall (λ ev, event_pid ev ≠ Some old) added.
Proof.
  intros Hold Hnew Hne. cbv zeta.
  unfold start_detection_background, spawn, try_except, modify. rewrite Hnew.
  simpl. unfold on_camera. simpl.
  destruct (stop_addresses_tracked penv new (proc_log (camera s)))
    as (added & Hlog & Hall).
  pose proof (stop_clears penv
    {| detection_process := Some new; proc_log := proc_log (camera s) |}) as Hc.
  destruct (stop_detection_background penv _) as [r c]. simpl in *.
  split; [done|]. split; [by rewrite fmap_app|]. split; [done|].
  exists (PTerminate new :: added). split; [done|]. split; [left|].
  constructor; [simpl; congruence|].
  eapply Forall_impl; [exact Hall|]. intros ev [H|H]; congruence.
Qed.

Lemma start_orphans_tracked_child_witness :
  detection_process (camera (supervisor_tracking 1)) = Some 1%nat ∧
  on_spawn (start_env 2) = Ok 2%nat ∧
  child_pid <$> children
    (on_camera (stop_detection_background proc_env_ok)
       (start_detection_background (start_env 2) None None
          (supervisor_tracking 1)).2).2 = [1%nat; 2%nat].
Proof.
  split; [reflexivity|]. split; [reflexivity|].
  exact (proj1 (proj2 (start_orphans_tracked_child (start_env 2) proc_env_ok
    None None (supervisor_tracking 1) 1 2 eq_refl eq_refl
    (λ H : 2%nat = 1%nat, eq_ind 2%nat (λ n, match n with 2%nat => True | _ => False end) I 1%nat H)))).
Defined.

(** The configuration of a child started with both addresses. *)
Lemma apply_spawn_environ (environ : gmap string string)
    (sender recipient : option string) (cfg : EmailConfig) :
  truthy sender = true → truthy recipient = true →
  apply_environment (spawn_environ environ sender recipient) cfg
    = {| enabled := enabled cfg; smtp_server := smtp_server cfg;
         smtp_port := smtp_port cfg; sender_email := sender_email cfg;
         sender_password := sender_password cfg;
         recipient_email := recipient;
         override_sender := sender |}.
Proof.
  intros Hs Hr. unfold apply_environment, spawn_environ.
  rewrite Hs, Hr.
  destruct sender as [[|a s]|]; try done.
  destruct recipient as [[|b r]|]; try done. simpl.
  rewrite lookup_insert_eq. rewrite lookup_insert_ne by done.
  rewrite lookup_insert_eq. simpl. done.
Qed.

(** X19.  The two addresses survive the passage through the environment:
    a child started with a sender and a recipient that are not empty reads
    them back as [override_sender] and [recipient_email] and keeps the
    rest of [EMAIL_CONFIG], the SMTP login included; without addresses the
    child gets the environment of the parent as it is; and an environment
    where both variables are unset or empty leaves [EMAIL_CONFIG] as
    configured. *)
Theorem environment_round_trip (environ : gmap string string)
    (sender recipient : option string) (cfg : EmailConfig) :
  (truthy sender = true → truthy recipient = true →
   let cfg' := apply_environment (spawn_environ environ sender recipient) cfg in
   override_sender cfg' = sender ∧
   recipient_email cfg' = recipient ∧
   enabled cfg' = enabled cfg ∧ smtp_server cfg' = smtp_server cfg ∧
   smtp_port cfg' = smtp_port cfg ∧ sender_email cfg' = sender_email cfg ∧
   sender_password cfg' = sender_password cfg) ∧
  (truthy sender = false → truthy recipient = false →
   spawn_environ environ sender recipient = environ) ∧
  (truthy (environ !! "DETECTION_SENDER_EMAIL") = false →
   truthy (environ !! "DETECTION_RECIPIENT_EMAIL") = false →
   apply_environment environ cfg = cfg).
Proof.
  split; [|split].
  - intros Hs Hr. cbv zeta. by rewrite apply_spawn_environ.
  - intros Hs Hr. unfold spawn_environ. by rewrite Hs, Hr.
  - intros Hs Hr. unfold apply_environment. rewrite Hs, Hr. by destruct cfg.
Qed.

(* ===================================================================== *)
(** * Properties of the routes                                            *)
(* ===================================================================== *)



Lemma public_dict_id (r : UserRow) :
  public_dict r !! "id" = Some (VInt (user_row_id r)).
Proof. by vm_compute. Qed.

Lemma public_dict_email (r : UserRow) :
  public_dict r !! "email" = Some (VText (user_email r)).
Proof. by vm_compute. Qed.

Lemma public_dict_truthy (r : UserRow) : dict_truthy (Some (public_dict r)) = true.
Proof.
  unfold dict_truthy. rewrite bool_decide_false; [done|].
  intros H. pose proof (public_dict_id r) as Hid. rewrite H in Hid.
  by rewrite lookup_empty in Hid.
Qed.

Lemma row_dict_truthy (r : UserRow) : dict_truthy (Some (row_dict r)) = true.
Proof.
  unfold dict_truthy. rewrite bool_decide_false; [done|].
  intros H. pose proof (row_dict_password r) as Hp. rewrite H in Hp.
  by rewrite lookup_empty in Hp.
Qed.

Lemma select_user_by_email_elem email t :
  email ∈ user_email <$> user_rows t →
  ∃ r, select_user_by_email email t = Some r.
Proof.
  unfold select_user_by_email. intros Hin.
  induction (user_rows t) as [|r rows IH]; [by apply elem_of_nil in Hin|].
  simpl. rewrite fmap_cons in Hin.
  destruct (bool_decide_reflect (user_email r = email)) as [He|Hne]; [by eexists|].
  apply elem_of_cons in Hin as [Hin|Hin]; [done|]. by apply IH.
Qed.

(** [get_user_by_email] is true exactly on the e-mails of the table. *)
Lemma get_user_by_email_truthy email t :
  dict_truthy (get_user_by_email email t)
    = bool_decide (email ∈ user_email <$> user_rows t).
Proof.
  unfold get_user_by_email.
  destruct (bool_decide_reflect (email ∈ user_email <$> user_rows t)) as [Hin|Hnot].
  - destruct (select_user_by_email_elem _ _ Hin) as [r ->].
    apply row_dict_truthy.
  - by rewrite select_user_by_email_None.
Qed.

(** The session once the two assignments have run on a row. *)
Lemma set_session_user_public (r : UserRow) (w : WebState) :
  set_session_user (public_dict r) w
    = (Ok tt,
       set_session (<["user_email" := VText (user_email r)]>
                      (<["user_id" := VInt (user_row_id r)]> (session w))) w).
Proof.
  unfold set_session_user, dict_subscript, mbind, M_bind.
  rewrite public_dict_id. unfold mret at 1, M_ret at 1.
  unfold modify at 1. cbv beta iota.
  rewrite public_dict_email. reflexivity.
Qed.

Lemma next_rowid_positive (t : UsersTable) : (0 < next_rowid t)%Z.
Proof.
  assert (0 ≤ largest_rowid (user_rows t))%Z; [|unfold next_rowid; lia].
  induction (user_rows t) as [|r rows IH]; [done|].
  unfold largest_rowid in *. rewrite fmap_cons. cbn [foldr]. lia.
Qed.

Lemma nonempty_true (s : string) : nonempty s = true → s ≠ "".
Proof. by destruct s. Qed.

Section RoutesFacts.

Variable generate_password_hash : string → string → string.
Variable check_password_hash : string → string → bool.

(** A login that succeeds returns the public columns of the row under the
    e-mail. *)
Lemma authenticate_user_Some email password t d :
  authenticate_user check_password_hash email password t = Some d →
  ∃ r, select_user_by_email email t = Some r ∧
       check_password_hash (user_password r) password = true ∧
       d = public_dict r.
Proof.
  destruct (select_user_by_email email t) as [r|] eqn:Hsel.
  2: { unfold authenticate_user, get_user_by_email. by rewrite Hsel. }
  rewrite (authenticate_user_found _ _ _ _ _ Hsel).
  destruct (check_password_hash (user_password r) password) eqn:Hc; [|done].
  intros Heq. apply (inj Some) in Heq. by exists r.
Qed.

(** The data of a registration request are complete. *)
Lemma user_register_complete form :
  (nonempty (strip (form_get (form_name form)))
   && nonempty (lower (strip (form_get (form_email form))))
   && nonempty (form_get (form_password form)))%bool = true →
  (negb (nonempty (strip (form_get (form_name form))))
   || negb (nonempty (lower (strip (form_get (form_email form)))))
   || negb (nonempty (form_get (form_password form))))%bool = false.
Proof.
  intros Hc. apply andb_prop in Hc as [Hc Hp]. apply andb_prop in Hc as [Hn He].
  by rewrite Hn, He, Hp.
Qed.

(** The registration of incomplete data. *)
Lemma user_register_incomplete salt now between form w :
  (nonempty (strip (form_get (form_name form)))
   && nonempty (lower (strip (form_get (form_email form))))
   && nonempty (form_get (form_password form)))%bool = false →
  user_register generate_password_hash salt now between POST form w
    = (Ok (RenderTemplate "user_register.html"),
       (flash "Name, email and password are required" w).2).
Proof.
  intros Hc. unfold user_register.
  destruct (nonempty (strip (form_get (form_name form))));
    destruct (nonempty (lower (strip (form_get (form_email form)))));
    destruct (nonempty (form_get (form_password form)));
    try discriminate Hc; reflexivity.
Qed.

(** The registration of complete data under an e-mail of the table. *)
Lemma user_register_known salt now between form w :
  (nonempty (strip (form_get (form_name form)))
   && nonempty (lower (strip (form_get (form_email form))))
   && nonempty (form_get (form_password form)))%bool = true →
  lower (strip (form_get (form_email form))) ∈ user_email <$> user_rows (users w) →
  user_register generate_password_hash salt now between POST form w
    = (Ok (RenderTemplate "user_register.html"),
       (flash "A user with that email already exists" w).2).
Proof.
  intros Hc Hin. unfold user_register.
  rewrite (user_register_complete _ Hc).
  unfold get at 1, mbind at 1, M_bind at 1. cbv beta iota.
  by rewrite get_user_by_email_truthy, bool_decide_true by done.
Qed.

(** The registration of complete data under an e-mail the table did not
    hold at the look-up: the insert decides. *)
Lemma user_register_insert salt now between form w :
  (nonempty (strip (form_get (form_name form)))
   && nonempty (lower (strip (form_get (form_email form))))
   && nonempty (form_get (form_password form)))%bool = true →
  lower (strip (form_get (form_email form))) ∉ user_email <$> user_rows (users w) →
  user_register generate_password_hash salt now between POST form w
    = (user ← on_users (create_user generate_password_hash salt now
                          (strip (form_get (form_name form)))
                          (lower (strip (form_get (form_email form))))
                          (form_get (form_password form))
                          (if nonempty (strip (form_get (form_location form)))
                           then Some (strip (form_get (form_location form)))
                           else None));
       if dict_truthy user
       then set_session_user (default ∅ user);;
            mret (Redirect "user_dashboard")
       else flash "Failed to create user (email may already be in use)";;
            mret (RenderTemplate "user_register.html"))
      (set_users (between (users w)) w).
Proof.
  intros Hc Hnew. unfold user_register.
  rewrite (user_register_complete _ Hc).
  unfold get at 1, mbind at 1, M_bind at 1. cbv beta iota.
  rewrite get_user_by_email_truthy, bool_decide_false by done.
  reflexivity.
Qed.

(** The insert goes through. *)
Lemma user_register_fresh salt now between form w :
  let name := strip (form_get (form_name form)) in
  let email := lower (strip (form_get (form_email form))) in
  let password := form_get (form_password form) in
  let location :=
    let l := strip (form_get (form_location form)) in
    if nonempty l then Some l else None in
  let t := between (users w) in
  let row := new_user_row (generate_password_hash salt password) now name
               email location t in
  (nonempty name && nonempty email && nonempty password)%bool = true →
  email ∉ user_email <$> user_rows (users w) →
  write_locked t = false →
  email ∉ user_email <$> user_rows t →
  user_register generate_password_hash salt now between POST form w
    = (Ok (Redirect "user_dashboard"),
       {| supervisor := supervisor w;
          users := {| user_rows := user_rows t ++ [row];
                      users_sequence := next_rowid t;
                      write_locked := false |};
          session := <["user_email" := VText email]>
                       (<["user_id" := VInt (next_rowid t)]> (session w));
          flashes := flashes w |}).
Proof.
  cbv zeta. intros Hc Hnew Hfree Hnew'.
  rewrite user_register_insert by done.
  unfold on_users, mbind, M_bind. cbn [users set_users].
  rewrite create_user_fresh by done.
  rewrite public_dict_truthy. cbn [default from_option id].
  rewrite set_session_user_public. reflexivity.
Qed.

(** The insert is refused: another request has registered the e-mail since
    the look-up. *)
Lemma user_register_refused salt now between form w :
  let email := lower (strip (form_get (form_email form))) in
  let t := between (users w) in
  (nonempty (strip (form_get (form_name form))) && nonempty email
   && nonempty (form_get (form_password form)))%bool = true →
  email ∉ user_email <$> user_rows (users w) →
  write_locked t = false →
  email ∈ user_email <$> user_rows t →
  user_register generate_password_hash salt now between POST form w
    = (Ok (RenderTemplate "user_register.html"),
       {| supervisor := supervisor w;
          users := {| user_rows := user_rows t;
                      users_sequence := users_sequence t;
                      write_locked := true |};
          session := session w;
          flashes := (flashes w
                      ++ ["Failed to create user (email may already be in use)"])%list |}).
Proof.
  cbv zeta. intros Hc Hnew Hfree Hin.
  rewrite user_register_insert by done.
  unfold on_users, mbind, M_bind. cbn [users set_users].
  by rewrite create_user_refused by done.
Qed.

(** The insert does not get the write lock. *)
Lemma user_register_locked salt now between form w :
  let email := lower (strip (form_get (form_email form))) in
  let t := between (users w) in
  (nonempty (strip (form_get (form_name form))) && nonempty email
   && nonempty (form_get (form_password form)))%bool = true →
  email ∉ user_email <$> user_rows (users w) →
  write_locked t = true →
  user_register generate_password_hash salt now between POST form w
    = (Raise database_is_locked, set_users t w).
Proof.
  cbv zeta. intros Hc Hnew Hlock.
  rewrite user_register_insert by done.
  unfold on_users, mbind, M_bind. cbn [users set_users].
  by rewrite create_user_locked by done.
Qed.


(** A login the table accepts. *)
Lemma user_login_accepts form w d :
  authenticate_user check_password_hash
    (lower (strip (form_get (form_email form))))
    (form_get (form_password form)) (users w) = Some d →
  ∃ r, r ∈ user_rows (users w) ∧
       user_email r = lower (strip (form_get (form_email form))) ∧
       d = public_dict r ∧
       user_login check_password_hash POST form w
         = (Ok (Redirect "user_dashboard"),
            set_session (<["user_email" := VText (user_email r)]>
                           (<["user_id" := VInt (user_row_id r)]> (session w)))
                        w).
Proof.
  intros Ha. destruct (authenticate_user_Some _ _ _ _ Ha) as (r & Hsel & Hc & ->).
  apply select_user_by_email_Some in Hsel as [Hin He].
  exists r. split; [done|]. split; [done|]. split; [done|].
  unfold user_login. unfold get at 1, mbind at 1, M_bind at 1. cbv beta iota zeta.
  rewrite Ha, public_dict_truthy. cbn [default from_option id].
  unfold mbind, M_bind. by rewrite set_session_user_public.
Qed.

(** A login the table rejects. *)
Lemma user_login_rejects form w :
  authenticate_user check_password_hash
    (lower (strip (form_get (form_email form))))
    (form_get (form_password form)) (users w) = None →
  user_login check_password_hash POST form w
    = (Ok (RenderTemplate "user_login.html"),
       (flash "Invalid email or password" w).2).
Proof.
  intros Ha. unfold user_login.
  unfold get at 1, mbind at 1, M_bind at 1. cbv beta iota zeta.
  by rewrite Ha.
Qed.

(** X23.  The login route touches neither the detection process nor the
    table.  When [authenticate_user] accepts the e-mail, stripped and in
    lower case, with the password as typed, the session gets the id of the
    user and that e-mail, every other key of it stays, nothing is flashed
    and the answer is the redirect to the dashboard.  Otherwise the login
    page is rendered with one message and the session is left as it was: a
    failed login does not log out. *)
Theorem user_login_outcomes form w :
  let email := lower (strip (form_get (form_email form))) in
  let password := form_get (form_password form) in
  let r := user_login check_password_hash POST form w in
  supervisor r.2 = supervisor w ∧ users r.2 = users w ∧
  match authenticate_user check_password_hash email password (users w) with
  | Some user =>
      r.1 = Ok (Redirect "user_dashboard") ∧ flashes r.2 = flashes w ∧
      session r.2 !! "user_email" = Some (VText email) ∧
      session r.2 !! "user_id" = user !! "id" ∧
      logged_in (session r.2) = value_truthy (user !! "id") ∧
      (∀ key, key ≠ "user_id" → key ≠ "user_email" →
              session r.2 !! key = session w !! key)
  | None =>
      r = (Ok (RenderTemplate "user_login.html"),
           (flash "Invalid email or password" w).2)
  end.
Proof.
  cbv zeta.
  destruct (authenticate_user check_password_hash _ _ (users w)) as [d|] eqn:Ha.
  - destruct (user_login_accepts _ _ _ Ha) as (r & Hin & He & -> & ->).
    cbn [fst snd supervisor users session flashes set_session].
    split; [done|]. split; [done|]. split; [done|]. split; [done|].
    rewrite lookup_insert_eq, He. split; [done|].
    unfold logged_in. rewrite lookup_insert_ne by done.
    rewrite lookup_insert_eq, public_dict_id.
    split; [done|]. split; [done|].
    intros key H1 H2. by rewrite !lookup_insert_ne by done.
  - by rewrite user_login_rejects.
Qed.

(** The invariant looks at the table and the session only. *)
Lemma web_ok_same (w w' : WebState) :
  users w' = users w → session w' = session w → web_ok w → web_ok w'.
Proof.
  unfold web_ok, session_names_user. by intros -> ->.
Qed.

Lemma user_register_keeps_web_ok salt now between method form w :
  keeps_registrations between →
  web_ok w →
  web_ok (user_register generate_password_hash salt now between method form w).2.
Proof.
  intros Hbetween Hok. destruct method; [done|].
  destruct (nonempty (strip (form_get (form_name form))) &&
            nonempty (lower (strip (form_get (form_email form)))) &&
            nonempty (form_get (form_password form)))%bool eqn:Hc.
  2: { rewrite user_register_incomplete by done. by eapply web_ok_same. }
  destruct (decide (lower (strip (form_get (form_email form)))
                    ∈ user_email <$> user_rows (users w))) as [Hin|Hnew].
  { rewrite user_register_known by done. by eapply web_ok_same. }
  destruct Hok as (Ht & Hrows & Hsess).
  destruct (Hbetween (users w) Ht Hrows) as (Ht' & Hrows' & Hkeep).
  assert (session_names_user (set_users (between (users w)) w)) as Hsess'.
  { destruct Hsess as [?|(r & Hin & ?)]; [by left|].
    right. exists r. split; [by apply Hkeep|done]. }
  destruct (write_locked (between (users w))) eqn:Hlock.
  { rewrite user_register_locked by done. done. }
  destruct (decide (lower (strip (form_get (form_email form)))
                    ∈ user_email <$> user_rows (between (users w))))
    as [Hin'|Hnew'].
  { rewrite user_register_refused by done. done. }
  rewrite user_register_fresh by done. cbn [snd].
  apply andb_prop in Hc as [Hc Hp]. apply andb_prop in Hc as [Hn He].
  split; [|split]; cbn [users session user_rows].
  - pose proof (create_user_keeps_ok generate_password_hash salt now
      (strip (form_get (form_name form)))
      (lower (strip (form_get (form_email form))))
      (form_get (form_password form))
      (if nonempty (strip (form_get (form_location form)))
       then Some (strip (form_get (form_location form))) else None)
      (between (users w)) Ht') as Hk.
    by rewrite create_user_fresh in Hk by done.
  - apply Forall_app. split; [done|]. constructor; [|constructor].
    split; cbn [new_user_row user_row_id user_email].
    + apply next_rowid_positive.
    + by apply nonempty_true.
  - unfold session_names_user. cbn [users session user_rows].
    right. eexists. split; [apply elem_of_app; right; apply list_elem_of_here|].
    cbn [new_user_row user_row_id user_email].
    rewrite lookup_insert_ne by done. by rewrite !lookup_insert_eq.
Qed.

Lemma user_login_keeps_web_ok method form w :
  web_ok w → web_ok (user_login check_password_hash method form w).2.
Proof.
  intros Hok. destruct method; [done|].
  destruct (authenticate_user check_password_hash
              (lower (strip (form_get (form_email form))))
              (form_get (form_password form)) (users w)) as [d|] eqn:Ha.
  2: { rewrite user_login_rejects by done. by eapply web_ok_same. }
  destruct (user_login_accepts _ _ _ Ha) as (r & Hin & He & _ & ->).
  destruct Hok as (Ht & Hrows & _). cbn [snd].
  split; [done|]. split; [done|].
  unfold session_names_user. cbn [users session set_session].
  right. exists r. split; [done|].
  rewrite lookup_insert_ne by done. by rewrite !lookup_insert_eq.
Qed.

End RoutesFacts.

Lemma logout_keeps_web_ok w : web_ok w → web_ok (logout w).2.
Proof.
  intros (Ht & Hrows & _). split; [done|]. split; [done|]. by left.
Qed.

Lemma start_detection_keeps (env : StartEnv) (w : WebState) :
  users (start_detection env w).2 = users w ∧
  session (start_detection env w).2 = session w.
Proof.
  unfold start_detection, get, mbind, M_bind.
  destruct (logged_in (session w)); simpl; [|done].
  unfold try_except, on_supervisor, start_detection_background, spawn,
    supervisor_print, flash, modify, mbind, M_bind, mret, M_ret,
    mthrow, M_throw, try_except. simpl.
  by destruct (on_spawn env).
Qed.

Lemma stop_detection_keeps (env : ProcEnv) (w : WebState) :
  users (stop_detection env w).2 = users w ∧
  session (stop_detection env w).2 = session w.
Proof.
  unfold stop_detection, get, mbind, M_bind.
  destruct (logged_in (session w)); simpl; [|done].
  unfold try_except, on_supervisor, on_camera, flash, modify, mbind, M_bind,
    mret, M_ret. simpl.
  by destruct (stop_detection_background env (camera (supervisor w)))
    as [[[]|e] c].
Qed.

Lemma admin_login_keeps (method : http_method) (form : Form) (w : WebState) :
  users (admin_login method form w).2 = users w ∧
  session (admin_login method form w).2 !! "user_id" = session w !! "user_id" ∧
  session (admin_login method form w).2 !! "user_email"
    = session w !! "user_email".
Proof.
  destruct method; [done|]. unfold admin_login.
  destruct (_ && _)%bool; [|done].
  unfold modify, mbind, M_bind, mret, M_ret. cbn [snd users session set_session].
  by rewrite !lookup_insert_ne by done.
Qed.

Lemma admin_logout_keeps (w : WebState) :
  users (admin_logout w).2 = users w ∧
  session (admin_logout w).2 !! "user_id" = session w !! "user_id" ∧
  session (admin_logout w).2 !! "user_email" = session w !! "user_email".
Proof.
  unfold admin_logout, modify, mbind, M_bind, mret, M_ret.
  cbn [snd users session set_session].
  by rewrite !lookup_delete_ne by done.
Qed.

(** The invariant looks at two keys of the session only. *)
Lemma web_ok_keys (w w' : WebState) :
  users w' = users w →
  session w' !! "user_id" = session w !! "user_id" →
  session w' !! "user_email" = session w !! "user_email" →
  web_ok w → web_ok w'.
Proof.
  unfold web_ok, session_names_user. by intros -> -> ->.
Qed.

Lemma web_initial_ok : web_ok web_initial.
Proof.
  split; [split; apply NoDup_nil_2|]. split; [constructor|]. by left.
Qed.

Lemma keeps_registrations_id : keeps_registrations id.
Proof. by intros t Ht Hrows. Qed.

Lemma keeps_registrations_collect : keeps_registrations collect_garbage.
Proof. by intros t Ht Hrows. Qed.

(** Another registration, complete as the route sends it, is such a
    change of the table. *)
Lemma keeps_registrations_create generate_password_hash salt now name email
    password location :
  email ≠ "" →
  keeps_registrations
    (λ t, (create_user generate_password_hash salt now name email password
             location t).2).
Proof.
  intros He t Ht Hrows.
  split; [by apply create_user_keeps_ok|].
  unfold create_user. destruct (write_locked t); [done|].
  destruct (bool_decide _); [done|]. cbn [snd user_rows]. split.
  - apply Forall_app. split; [done|]. constructor; [|constructor].
    split; [apply next_rowid_positive|done].
  - intros r Hr. apply elem_of_app. by left.
Qed.

(** X24.  Each of the routes that write the table of the users or the
    session ([user_register], [user_login], [logout], [admin_login] and
    [admin_logout]) and each of the two routes that start and stop the
    detection keeps the invariant of the application: the e-mails and the
    ids of the table stay pairwise different, every row has a positive id
    and an e-mail that is not empty, and the session either holds no user
    or holds the id and the e-mail of one row of the table.  For
    [user_register] this holds whatever other registrations and runs of the
    garbage collector fall between its look-up and its insert. *)
Theorem routes_keep_web_ok generate_password_hash check_password_hash w :
  web_ok w →
  (∀ salt now between method form,
     keeps_registrations between →
     web_ok (user_register generate_password_hash salt now between method
               form w).2) ∧
  (∀ method form, web_ok (user_login check_password_hash method form w).2) ∧
  web_ok (logout w).2 ∧
  (∀ method form, web_ok (admin_login method form w).2) ∧
  web_ok (admin_logout w).2 ∧
  (∀ env, web_ok (start_detection env w).2) ∧
  (∀ env, web_ok (stop_detection env w).2) ∧
  keeps_registrations id ∧
  keeps_registrations collect_garbage ∧
  (∀ salt now name email password location,
     email ≠ "" →
     keeps_registrations
       (λ t, (create_user generate_password_hash salt now name email password
                location t).2)).
Proof.
  intros Hok.
  split; [|split; [|split; [|split; [|split; [|split; [|split; [|split; [|split]]]]]]]].
  - intros. by apply user_register_keeps_web_ok.
  - intros. by apply user_login_keeps_web_ok.
  - by apply logout_keeps_web_ok.
  - intros method form.
    destruct (admin_login_keeps method form w) as (? & ? & ?).
    by eapply web_ok_keys.
  - destruct (admin_logout_keeps w) as (? & ? & ?). by eapply web_ok_keys.
  - intros env. destruct (start_detection_keeps env w). by eapply web_ok_same.
  - intros env. destruct (stop_detection_keeps env w). by eapply web_ok_same.
  - apply keeps_registrations_id.
  - apply keeps_registrations_collect.
  - intros. by apply keeps_registrations_create.
Qed.

(** From the empty application: a registration whose e-mail a rival
    registers between the look-up and the insert. *)
Lemma routes_keep_web_ok_witness :
  web_ok web_initial ∧
  keeps_registrations rival_registration ∧
  web_ok (user_register toy_hash "salt" "2025-11-26 10:30:00"
            rival_registration POST registration_form web_initial).2.
Proof.
  assert (keeps_registrations rival_registration) as Hrival.
  { exact (proj2 (proj2 (proj2 (proj2 (proj2 (proj2 (proj2 (proj2 (proj2
      (routes_keep_web_ok toy_hash toy_check web_initial web_initial_ok)))))))))
      "salt" "2025-11-26 10:29:59" "Ben" "asha@farm.example" "other" None
      ltac:(discriminate)). }
  split; [exact web_initial_ok|]. split; [exact Hrival|].
  exact (proj1 (routes_keep_web_ok toy_hash toy_check web_initial
    web_initial_ok) "salt" "2025-11-26 10:30:00" rival_registration POST
    registration_form Hrival).
Defined.

(** X25.  Under the invariant, a logged-in user who starts the detection
    gets a child whose environment is that of the web process with the two
    address variables set to the e-mail of the registered row the session
    names; read back at the top of [detection.py], that address is the
    override of the sender and the recipient of the alerts, and the rest of
    [EMAIL_CONFIG], the SMTP login included, is as configured. *)
Theorem start_detection_registered_user (env : StartEnv) (w : WebState)
    (pid : nat) (cfg : EmailConfig) :
  web_ok w → logged_in (session w) = true → on_spawn env = Ok pid →
  ∃ r child,
    r ∈ user_rows (users w) ∧
    session w !! "user_id" = Some (VInt (user_row_id r)) ∧
    children (supervisor (start_detection env w).2)
      = (children (supervisor w) ++ [child])%list ∧
    child_pid child = pid ∧
    child_environ child
      = <["DETECTION_RECIPIENT_EMAIL" := user_email r]>
          (<["DETECTION_SENDER_EMAIL" := user_email r]> (os_environ env)) ∧
    apply_environment (child_environ child) cfg
      = {| enabled := enabled cfg; smtp_server := smtp_server cfg;
           smtp_port := smtp_port cfg; sender_email := sender_email cfg;
           sender_password := sender_password cfg;
           recipient_email := Some (user_email r);
           override_sender := Some (user_email r) |}.
Proof.
  intros (_ & Hrows & Hs) Hlog Hspawn.
  destruct Hs as [[Hid _]|(r & Hin & Hid & Hemail)].
  { unfold logged_in in Hlog. by rewrite Hid in Hlog. }
  rewrite Forall_forall in Hrows. destruct (Hrows r Hin) as [_ Hne].
  assert (truthy (Some (user_email r)) = true) as Ht
    by (destruct (user_email r); done).
  exists r, {| child_pid := pid;
               child_environ :=
                 spawn_environ (os_environ env) (Some (user_email r))
                   (Some (user_email r)) |}.
  split; [done|]. split; [done|]. split; [|split; [done|split]].
  - unfold start_detection, get, mbind, M_bind. rewrite Hlog, Hemail.
    cbn [negb text_argument].
    unfold try_except, on_supervisor, start_detection_background, spawn,
      supervisor_print, flash, modify, mbind, M_bind, mret, M_ret,
      mthrow, M_throw, try_except. rewrite Hspawn. reflexivity.
  - cbn [child_environ]. unfold spawn_environ. by rewrite Ht.
  - cbn [child_environ]. by apply apply_spawn_environ.
Qed.

Section RegisterLogin.

Variable generate_password_hash : string → string → string.
Variable check_password_hash : string → string → bool.

Hypothesis check_generated :
  ∀ salt password,
    check_password_hash (generate_password_hash salt password) password = true.

(** X26.  The two account routes normalise alike.  When the check accepts
    every password against its own hash, a user who registered with
    complete data under a new e-mail, served alone and while no write lock
    was held, can log out and log in again with the same form: the login
    is accepted, the session holds the id and the e-mail the registration
    put there, and the table is the one the registration left. *)
Theorem register_then_login salt now form w :
  (nonempty (strip (form_get (form_name form)))
   && nonempty (lower (strip (form_get (form_email form))))
   && nonempty (form_get (form_password form)))%bool = true →
  lower (strip (form_get (form_email form))) ∉ user_email <$> user_rows (users w) →
  write_locked (users w) = false →
  let w1 := (user_register generate_password_hash salt now id POST form w).2 in
  let w2 := (logout w1).2 in
  let r := user_login check_password_hash POST form w2 in
  r.1 = Ok (Redirect "user_dashboard") ∧
  session w2 = ∅ ∧
  session r.2 !! "user_id" = session w1 !! "user_id" ∧
  session r.2 !! "user_email" = session w1 !! "user_email" ∧
  logged_in (session r.2) = true ∧
  users r.2 = users w1.
Proof.
  intros Hc Hnew Hfree. cbv zeta. rewrite user_register_fresh by done.
  cbn [snd]. unfold logout at 2. unfold modify, mbind, M_bind, mret, M_ret.
  cbn [snd set_session session]. unfold id.
  set (row := new_user_row _ _ _ _ _ _).
  set (w2 := (logout _).2).
  assert (authenticate_user check_password_hash
            (lower (strip (form_get (form_email form))))
            (form_get (form_password form)) (users w2)
          = Some (public_dict row)) as Ha.
  { rewrite (authenticate_user_found _ _ _ _ row).
    - subst row. cbn [user_password new_user_row]. by rewrite check_generated.
    - unfold select_user_by_email. subst w2. cbn. by apply find_email_app. }
  destruct (user_login_accepts check_password_hash _ _ _ Ha)
    as (r & Hin & He & Hd & ->).
  assert (user_row_id r = user_row_id row ∧ user_email r = user_email row)
    as [Hi He'].
  { pose proof (public_dict_id r) as H1. pose proof (public_dict_email r) as H2.
    rewrite <- Hd, public_dict_id in H1. rewrite <- Hd, public_dict_email in H2.
    split; congruence. }
  cbn [fst snd set_session session users].
  split; [done|]. split; [done|].
  rewrite !(lookup_insert_ne _ "user_email" "user_id") by done.
  rewrite !lookup_insert_eq, Hi, He'.
  split; [done|]. split; [done|]. split; [|done].
  unfold logged_in. rewrite lookup_insert_ne by done.
  rewrite lookup_insert_eq. cbn [value_truthy].
  pose proof (next_rowid_positive (users w)). subst row.
  cbn [new_user_row user_row_id].
  apply negb_true_iff, Z.eqb_neq. lia.
Qed.

End RegisterLogin.

Lemma web_registered_ok : web_ok web_registered.
Proof.
  apply user_register_keeps_web_ok;
    [apply keeps_registrations_id|apply web_initial_ok].
Qed.

Lemma start_detection_registered_user_witness :
  web_ok web_registered ∧ logged_in (session web_registered) = true ∧
  on_spawn (start_env 7) = Ok 7%nat ∧
  ∃ r child,
    r ∈ user_rows (users web_registered) ∧
    session web_registered !! "user_id" = Some (VInt (user_row_id r)) ∧
    children (supervisor (start_detection (start_env 7) web_registered).2)
      = (children (supervisor web_registered) ++ [child])%list ∧
    child_pid child = 7%nat ∧
    child_environ child
      = <["DETECTION_RECIPIENT_EMAIL" := user_email r]>
          (<["DETECTION_SENDER_EMAIL" := user_email r]>
             (os_environ (start_env 7))) ∧
    apply_environment (child_environ child) (EMAIL_CONFIG config_py)
      = {| enabled := enabled (EMAIL_CONFIG config_py);
           smtp_server := smtp_server (EMAIL_CONFIG config_py);
           smtp_port := smtp_port (EMAIL_CONFIG config_py);
           sender_email := sender_email (EMAIL_CONFIG config_py);
           sender_password := sender_password (EMAIL_CONFIG config_py);
           recipient_email := Some (user_email r);
           override_sender := Some (user_email r) |}.
Proof.
  assert (logged_in (session web_registered) = true) as Hlog by reflexivity.
  split; [exact web_registered_ok|]. split; [exact Hlog|].
  split; [reflexivity|].
  exact (start_detection_registered_user (start_env 7) web_registered 7
    (EMAIL_CONFIG config_py) web_registered_ok Hlog eq_refl).
Defined.

Lemma register_then_login_witness :
  (∀ salt password, toy_check (toy_hash salt password) password = true) ∧
  (nonempty (strip (form_get (form_name registration_form)))
   && nonempty (lower (strip (form_get (form_email registration_form))))
   && nonempty (form_get (form_password registration_form)))%bool = true ∧
  (user_login toy_check POST registration_form (logout web_registered).2).1
    = Ok (Redirect "user_dashboard").
Proof.
  assert (∀ salt password, toy_check (toy_hash salt password) password = true)
    as Hcheck by (intros salt password; by apply bool_decide_eq_true).
  assert (lower (strip (form_get (form_email registration_form)))
          ∉ user_email <$> user_rows (users web_initial)) as Hnew
    by (intros H; by apply elem_of_nil in H).
  split; [exact Hcheck|]. split; [reflexivity|].
  exact (proj1 (register_then_login toy_hash toy_check Hcheck "salt"
    "2025-11-26 10:30:00" registration_form web_initial eq_refl Hnew
    eq_refl)).
Defined.


(* ===================================================================== *)
(** * Properties of the accepted file names                               *)
(* ===================================================================== *)

Lemma rsplit_dot_None (s : string) :
  rsplit_dot s = None ↔ contains_dot s = false.
Proof.
  induction s as [|c r IH]; [done|]. simpl.
  destruct (rsplit_dot r) as [e|].
  - split; [done|]. intros [_ H]%orb_false_elim. by apply IH in H.
  - destruct (Ascii.eqb c "."); [done|]. simpl. split; [|done].
    intros _. by apply IH.
Qed.

Lemma rsplit_dot_app (name ext : string) :
  contains_dot ext = false →
  rsplit_dot (name ++ "." ++ ext) = Some ext.
Proof.
  intros Hext. apply rsplit_dot_None in Hext.
  induction name as [|c r IH].
  - change (rsplit_dot (String "." ext) = Some ext). simpl. by rewrite Hext.
  - change (rsplit_dot (String c (r ++ "." ++ ext)) = Some ext). simpl.
    by rewrite IH.
Qed.

Lemma contains_dot_app (name ext : string) :
  contains_dot (name ++ "." ++ ext) = true.
Proof.
  induction name as [|c r IH]; [done|].
  change (contains_dot (String c (r ++ "." ++ ext)) = true). simpl.
  rewrite IH. by destruct (Ascii.eqb c ".").
Qed.

(** X27.  Whether an upload is accepted depends on what follows the last
    dot of the file name only, compared in lower case: a name without dot
    is refused, and [name.ext], where [ext] has no dot, is accepted exactly
    when the lower case of [ext] is one of the extensions.  Every name the
    image upload accepts the dataset upload accepts too, and a name only
    the dataset upload accepts ends, up to case, in [zip]. *)
Theorem allowed_file_extension (filename name ext : string) :
  (contains_dot filename = false →
   allowed_file filename = false ∧ is_allowed_dataset_file filename = false) ∧
  (contains_dot ext = false →
   allowed_file (name ++ "." ++ ext)
     = bool_decide (lower ext ∈ ALLOWED_EXTENSIONS) ∧
   is_allowed_dataset_file (name ++ "." ++ ext)
     = bool_decide (lower ext ∈ ALLOWED_DATASET_EXT)) ∧
  (allowed_file filename = true → is_allowed_dataset_file filename = true) ∧
  (is_allowed_dataset_file filename = true → allowed_file filename = false →
   lower <$> rsplit_dot filename = Some "zip").
Proof.
  unfold allowed_file, is_allowed_dataset_file, allowed_in.
  split; [|split; [|split]].
  - by intros ->.
  - intros Hext. by rewrite contains_dot_app, rsplit_dot_app.
  - destruct (contains_dot filename); [|done]. simpl.
    destruct (rsplit_dot filename) as [e|]; [|done].
    intros H%bool_decide_eq_true. apply bool_decide_eq_true.
    unfold ALLOWED_EXTENSIONS, ALLOWED_DATASET_EXT in *.
    rewrite !elem_of_union, !elem_of_singleton in *. tauto.
  - destruct (contains_dot filename); [|done]. simpl.
    destruct (rsplit_dot filename) as [e|]; [|done].
    intros H1%bool_decide_eq_true H2%bool_decide_eq_false. simpl. f_equal.
    unfold ALLOWED_EXTENSIONS, ALLOWED_DATASET_EXT in *.
    rewrite !elem_of_union, !elem_of_singleton in *. tauto.
Qed.
